(** * Payroll console programs: validated input, registry and report

    A shallow embedding of the interactive payroll programs of the
    repository:

    - [src/A_E.cpp]: string identifiers, every input line trimmed, numeric
      conversions wrapped in [try]/[catch];
    - [src/DeepSeek.cpp] (and [src/Test_code.cpp], the same code with more
      comments): integer identifiers, no trimming, conversions unguarded.

    The console is modelled as a list of input lines (what [getline] will
    deliver) and a list of inserted items (what was sent to [cout] with
    [<<]).  The standard-library functions the programs call ([isdigit],
    [isalpha], [isalnum], [isspace], [std::stoi], [std::stod]) are modelled
    for the "C" locale, 32-bit [int], and IEEE-754 binary64 [double]. *)

From Stdlib Require Import ZArith List String Ascii Bool Lia.
From Stdlib Require Import Floats.SpecFloat.
Import ListNotations.

Set Warnings "-notation-for-abbreviation".

Local Open Scope string_scope.
Local Open Scope Z_scope.

(** ** Characters and strings *)

Module CType.

Definition code (c : ascii) : Z := Z.of_N (N_of_ascii c).

(** [<cctype>] in the "C" locale.  Bytes above 127 belong to no class. *)
Definition isdigit (c : ascii) : bool :=
  (48 <=? code c) && (code c <=? 57).

Definition isupper (c : ascii) : bool :=
  (65 <=? code c) && (code c <=? 90).

Definition islower (c : ascii) : bool :=
  (97 <=? code c) && (code c <=? 122).

Definition isalpha (c : ascii) : bool := isupper c || islower c.

Definition isalnum (c : ascii) : bool := isalpha c || isdigit c.

(** space, \t, \n, \v, \f, \r *)
Definition isspace (c : ascii) : bool :=
  (code c =? 32) || ((9 <=? code c) && (code c <=? 13)).

End CType.
Export CType.

(** The line feed and the horizontal tab; literals below spell
    ["text\n"] as ["text" ++ LF]. *)
Definition LF : string := String "010"%char EmptyString.
Definition TAB : string := String "009"%char EmptyString.

Definition empty (s : string) : bool :=
  match s with EmptyString => true | _ => false end.

(** [str[i]]; reading at or past the end yields the terminating NUL. *)
Definition at_ (str : string) (i : nat) : ascii :=
  match String.get i str with Some c => c | None => zero end.

(** ** [trim] (A_E.cpp, lines 213-223)

    The two index loops of the source.  [start] moves right while
    [start <= end] and the character is white space; [end] moves left while
    [end >= start] and the character is white space.  Indices are
    [size_t], 64 bits wide. *)

Definition SIZE_MAX : Z := 2 ^ 64 - 1.

(** Arithmetic on [size_t] wraps around. *)
Definition size_t_wrap (n : Z) : nat := Z.to_nat (n mod (SIZE_MAX + 1)).

(** The first loop makes at most [str.length()] passes, which is the
    [fuel] it is given. *)
Fixpoint trim_start (str : string) (start end_ : nat) (fuel : nat) : nat :=
  match fuel with
  | O => start
  | S fuel' =>
      if (start <=? end_)%nat && isspace (at_ str start)
      then trim_start str (S start) end_ fuel'
      else start
  end.

(** [end--] at 0 would wrap around and the loop would go on to read
    [str[SIZE_MAX]]: [None].  The loop never gets there, because it is at
    index 0 only if [start = 0], and then the first loop has stopped on a
    character that is not white space (see [trim_defined]). *)
Fixpoint trim_end (str : string) (start end_ : nat) : option nat :=
  if (start <=? end_)%nat && isspace (at_ str end_)
  then match end_ with
       | O => None
       | S e => trim_end str start e
       end
  else Some end_.

Definition trim (str : string) : string :=
  if empty str then EmptyString
  else
    let start := 0%nat in
    let end_ := (String.length str - 1)%nat in
    let start := trim_start str start end_ (String.length str) in
    match trim_end str start end_ with
    | Some end_ =>
        String.substring start
          (size_t_wrap (Z.of_nat end_ - Z.of_nat start + 1)) str
    | None => EmptyString
    end.

(** ** Numbers *)

Definition INT_MAX : Z := 2147483647.
Definition INT_MIN : Z := -2147483648.

(** [double] is IEEE-754 binary64, as specified by [SpecFloat]. *)
Definition double : Type := spec_float.
Definition prec : Z := 53.
Definition emax : Z := 1024.

(** The usual arithmetic conversion [int -> double] (exact for 32 bits). *)
Definition double_of_int (n : Z) : double := binary_normalize prec emax n 0 false.

(** [a * b] on doubles, rounding to nearest even. *)
Definition dmul (a b : double) : double := SFmul prec emax a b.

(** [0 <= d] as C++ evaluates it (false on NaN). *)
Definition nonneg (d : double) : bool := SFleb (S754_zero false) d.

Inductive exception : Type :=
| invalid_argument
| out_of_range.

(** Result of a library call that may throw. *)
Inductive thrown (A : Type) : Type :=
| Value (a : A)
| Throw (e : exception).
Arguments Value {A} a.
Arguments Throw {A} e.

Module Std.

Definition digit_value (c : ascii) : Z := code c - 48.

Fixpoint decimal_value (digits : string) (acc : Z) : Z :=
  match digits with
  | EmptyString => acc
  | String c rest => decimal_value rest (10 * acc + digit_value c)
  end.

Fixpoint skip_space (s : string) : string :=
  match s with
  | String c rest => if isspace c then skip_space rest else s
  | EmptyString => s
  end.

(** The longest prefix of decimal digits, and what follows it. *)
Fixpoint span_digits (s : string) : string * string :=
  match s with
  | String c rest =>
      if isdigit c
      then let (d, r) := span_digits rest in (String c d, r)
      else (EmptyString, s)
  | EmptyString => (EmptyString, EmptyString)
  end.

Definition take_sign (s : string) : bool * string :=
  match s with
  | String "-"%char rest => (true, rest)
  | String "+"%char rest => (false, rest)
  | _ => (false, s)
  end.

(** [std::stoi(str)] (base 10): [strtol] skips white space, reads an
    optional sign and the longest run of digits; no digit at all is
    [invalid_argument]; a value outside [int] is [out_of_range]. *)
Definition stoi (str : string) : thrown Z :=
  let (neg, s) := take_sign (skip_space str) in
  let (digits, _) := span_digits s in
  if empty digits then Throw invalid_argument
  else
    let n := decimal_value digits 0 in
    let v := if neg then - n else n in
    if (INT_MIN <=? v) && (v <=? INT_MAX) then Value v
    else Throw out_of_range.

(** The decimal mantissa [strtod] reads: digits, optionally a point and
    more digits, at least one digit in all.  Returns the digits as an
    integer and the number of those after the point. *)
Definition mantissa (s : string) : option (Z * nat) :=
  let (ipart, rest) := span_digits s in
  let fpart :=
    match rest with
    | String "."%char rest' => fst (span_digits rest')
    | _ => EmptyString
    end in
  if empty ipart && empty fpart then None
  else Some (decimal_value (ipart ++ fpart) 0, String.length fpart).

(** [m / d] rounded to the nearest double (ties to even), together with
    whether rounding lost something. *)
Definition round_ratio (m d : positive) : double * bool :=
  let '(q, e, l) := SFdiv_core_binary prec emax (Zpos m) 0 (Zpos d) 0 in
  let inexact :=
    match loc_of_shr_record (fst (shr_fexp prec emax q e l)) with
    | loc_Exact => false
    | loc_Inexact _ => true
    end in
  (binary_round_aux prec emax false q e l, inexact).

(** Whether [m / d] is tiny after rounding: rounded to [prec] bits as
    if the exponent had no lower bound, it is still below the least normal
    double [2^-1022].  The numbers of that format below [2^-1022] end at
    [2^-1022 - 2^-1075], and what lies at or above the midpoint
    [2^-1022 - 2^-1076] rounds to [2^-1022] (the tie goes to the even
    mantissa); so [m / d] is tiny iff [m / d < (2^54 - 1) / 2^1076]. *)
Definition tiny (m d : positive) : bool :=
  Zpos m * 2 ^ 1076 <? (2 ^ 54 - 1) * Zpos d.

(** [std::stod(str)] on decimal notation without exponent (the
    validators pass nothing else to it: what they let through is made of
    digits and points).  [strtod] rounds correctly; it reports ERANGE,
    which [stod] turns into [out_of_range], when the value overflows and,
    as glibc does, when a non-zero value underflows: the result is zero,
    or the value is tiny after rounding and the result is inexact.  The
    second case includes the values just below [2^-1022] that round up to
    [2^-1022] in the format of [double] but not when rounded to [prec]
    bits with no bound on the exponent. *)
Definition stod (str : string) : thrown double :=
  let (neg, s) := take_sign (skip_space str) in
  match mantissa s with
  | None => Throw invalid_argument
  | Some (m, k) =>
      match m with
      | Zpos p =>
          let d := Z.to_pos (10 ^ Z.of_nat k) in
          let (x, inexact) := round_ratio p d in
          let x := if neg then SFopp x else x in
          match x with
          | S754_infinity _ => Throw out_of_range
          | S754_zero _ => Throw out_of_range
          | _ => if tiny p d && inexact then Throw out_of_range
                 else Value x
          end
      | _ => Value (S754_zero neg)
      end
  end.

End Std.
Export Std.

(** ** The console and the registry *)

(** What [cout << x] appends to the output: the inserted value, before the
    stream formats it. *)
Inductive item : Type :=
| Str (s : string)
| Int (n : Z)
| Dbl (d : double).

(** [operator<<] is overloaded on the type of its right operand. *)
Class Insertable (T : Type) : Type := inserted : T -> item.
#[export] Instance Insertable_string : Insertable string := Str.
#[export] Instance Insertable_int : Insertable Z := Int.
#[export] Instance Insertable_double : Insertable double := Dbl.

(** [operator==] on identifiers. *)
Class EqualityComparable (T : Type) : Type := {
  equal : T -> T -> bool;
  equal_spec : forall x y, equal x y = true <-> x = y
}.
#[export] Instance EqualityComparable_string : EqualityComparable string :=
  {| equal := String.eqb; equal_spec := String.eqb_eq |}.
#[export] Instance EqualityComparable_int : EqualityComparable Z :=
  {| equal := Z.eqb; equal_spec := Z.eqb_eq |}.

Section Payroll.

(** The type of identifiers: [string] in A_E.cpp, [int] in DeepSeek.cpp.
    The classes below are the same in both files up to this type. *)
Context {ID : Type} {ID_out : Insertable ID} {ID_eq : EqualityComparable ID}.

(** The three derived classes of [Employee] and their own fields. *)
Inductive Kind : Type :=
| FullTime
| PartTime (hourlyRate : double) (hoursWorked : Z)
| Contractual (paymentPerProject : double) (projectsCompleted : Z).

(** An object of a class derived from [Employee]: the base-class fields
    and the derived part. *)
Record Employee : Type := {
  id : ID;
  name : string;
  salary : double;
  kind : Kind
}.

Definition getId (e : Employee) : ID := id e.

(** The constructors, with the base-class initialiser each one uses. *)
Definition FullTimeEmployee (id : ID) (name : string) (salary : double) : Employee :=
  {| id := id; name := name; salary := salary; kind := FullTime |}.

Definition PartTimeEmployee (id : ID) (name : string)
           (hourlyRate : double) (hoursWorked : Z) : Employee :=
  {| id := id; name := name;
     salary := dmul hourlyRate (double_of_int hoursWorked);
     kind := PartTime hourlyRate hoursWorked |}.

Definition ContractualEmployee (id : ID) (name : string)
           (paymentPerProject : double) (projectsCompleted : Z) : Employee :=
  {| id := id; name := name;
     salary := dmul paymentPerProject (double_of_int projectsCompleted);
     kind := Contractual paymentPerProject projectsCompleted |}.

(** [display()], dispatched on the dynamic type. *)
Definition display (e : Employee) : list item :=
  match kind e with
  | FullTime =>
      [ Str "Employee: "; inserted (name e); Str " (ID: "; inserted (id e); Str (")" ++ LF);
        Str "Fixed Monthly Salary: $"; inserted (salary e); Str (LF ++ LF) ]
  | PartTime hourlyRate hoursWorked =>
      [ Str "Employee: "; inserted (name e); Str " (ID: "; inserted (id e); Str (")" ++ LF);
        Str "Hourly Rate: $"; inserted hourlyRate; Str LF;
        Str "Hours Worked: "; inserted hoursWorked; Str LF;
        Str "Total Salary: $"; inserted (salary e); Str (LF ++ LF) ]
  | Contractual paymentPerProject projectsCompleted =>
      [ Str "Employee: "; inserted (name e); Str " (ID: "; inserted (id e); Str (")" ++ LF);
        Str "Contract Payment Per Project: $"; inserted paymentPerProject; Str LF;
        Str "Projects Completed: "; inserted projectsCompleted; Str LF;
        Str "Total Salary: $"; inserted (salary e); Str (LF ++ LF) ]
  end.

(** The state a member function of [PayrollSystem] runs in: the
    [employees] vector and the lines [cin] has yet to deliver. *)
Record World : Type := {
  employees : list Employee;
  cin : list string
}.

(** How a computation ends: it returns; or [cin] is exhausted and the
    enclosing loop keeps asking for input forever; or an exception leaves
    it uncaught. *)
Inductive outcome (A : Type) : Type :=
| Returned (a : A) (w : World)
| Diverges
| Thrown (e : exception).
Arguments Returned {A} a w.
Arguments Diverges {A}.
Arguments Thrown {A} e.

(** A computation: from a state to what it prints and how it ends. *)
Definition IO (A : Type) : Type := World -> list item * outcome A.

Definition ret {A} (a : A) : IO A := fun w => ([], Returned a w).

Definition bind {A B} (m : IO A) (f : A -> IO B) : IO B :=
  fun w =>
    let (out, o) := m w in
    match o with
    | Returned a w' => let (out', o') := f a w' in ((out ++ out')%list, o')
    | Diverges => (out, Diverges)
    | Thrown e => (out, Thrown e)
    end.

(** [cout << a << b << ...] *)
Definition print (items : list item) : IO unit :=
  fun w => (items, Returned tt w).

(** [getline(cin, input)].  At the end of the input [getline] fails, the
    string stays empty, and every loop of the program that called it
    rejects the empty string and calls it again, without end. *)
Definition getline : IO string :=
  fun w =>
    match cin w with
    | [] => ([], Diverges)
    | line :: rest => ([], Returned line {| employees := employees w; cin := rest |})
    end.

(** [throw], and the rethrow of what a library call threw. *)
Definition throw {A} (e : exception) : IO A := fun _ => ([], Thrown e).

Definition get_employees : IO (list Employee) :=
  fun w => ([], Returned (employees w) w).

(** [employees.push_back(e)] *)
Definition push_back (e : Employee) : IO unit :=
  fun w => ([], Returned tt {| employees := (employees w ++ [e])%list; cin := cin w |}).

End Payroll.

Arguments Kind : clear implicits.
Arguments Employee : clear implicits.
Arguments World : clear implicits.
Arguments outcome : clear implicits.
Arguments IO : clear implicits.
Arguments Returned {ID A} a w.
Arguments Diverges {ID A}.
Arguments Thrown {ID A} e.

Notation "x <- m ;; k" := (bind m (fun x => k))
  (at level 61, m at next level, right associativity).
Notation "m ;; k" := (bind m (fun _ => k))
  (at level 61, right associativity).

Section Loops.

Context {ID : Type}.

Definition prepend {A} (out : list item) (r : list item * outcome ID A)
  : list item * outcome ID A :=
  ((out ++ fst r)%list, snd r).

(** A [while] loop: [step] is one pass of the body from the loop state
    [s]; it ends the pass with the next loop state ([inl], go round
    again) or with the value the loop leaves with ([inr]). *)
Fixpoint loop_fuel {S A} (fuel : nat) (step : S -> IO ID (S + A)) (s : S) (w : World ID)
  : option (list item * outcome ID A) :=
  match fuel with
  | O => None
  | Datatypes.S fuel' =>
      let (out, o) := step s w in
      match o with
      | Returned (inr a) w' => Some (out, Returned a w')
      | Returned (inl s') w' => option_map (prepend out) (loop_fuel fuel' step s' w')
      | Diverges => Some (out, Diverges)
      | Thrown e => Some (out, Thrown e)
      end
  end.

(** Every loop of the programs reads a line in each pass that goes round
    again, so one more pass than there are lines left is enough
    ([loop_total] shows the fallback is never used for such a body). *)
Definition loop {S A} (step : S -> IO ID (S + A)) (s : S) : IO ID A :=
  fun w =>
    match loop_fuel (Datatypes.S (List.length (cin w))) step s w with
    | Some r => r
    | None => ([], Diverges)
    end.

Definition again {A} : IO ID (unit + A) := ret (inl tt).
Definition leave {A} (a : A) : IO ID (unit + A) := ret (inr a).

(** The shape of a pass of the validation loops: print a prompt, read a
    line, decide on it. *)
Definition ask {A} (prompt : list item) (K : string -> IO ID (unit + A))
  : unit -> IO ID (unit + A) :=
  fun _ => print prompt ;; input <- getline ;; K input.

(** [for (const auto& x : xs) body(x);] *)
Fixpoint for_each {T} (xs : list T) (body : T -> IO ID unit) : IO ID unit :=
  match xs with
  | [] => ret tt
  | x :: xs' => body x ;; for_each xs' body
  end.

End Loops.

(** ** [PayrollSystem]: the members both programs share *)

Section Registry.

Context {ID : Type} {ID_out : Insertable ID} {ID_eq : EqualityComparable ID}.

(** The scan of [isIdUnique]: [return false] at the first record with
    this id, [return true] after the last. *)
Fixpoint scanIds (emps : list (Employee ID)) (id : ID) : bool :=
  match emps with
  | [] => true
  | emp :: rest => if equal (getId emp) id then false else scanIds rest id
  end.

(** [bool isIdUnique(id) const] (A_E.cpp 72-77, DeepSeek.cpp 90-95) *)
Definition isIdUnique (id : ID) : IO ID bool :=
  emps <- get_employees ;;
  ret (scanIds emps id).

(** [void displayPayrollReport() const] (A_E.cpp 251-260, DeepSeek.cpp 192-201) *)
Definition displayPayrollReport : IO ID unit :=
  emps <- get_employees ;;
  match emps with
  | [] => print [Str ("No employees in system!" ++ LF ++ LF)]
  | _ =>
      print [Str (LF ++ "Employee Payroll Report ---" ++ LF)] ;;
      for_each emps (fun emp => print (display emp))
  end.

(** The menu [main] prints at the top of every pass. *)
Definition menu : list item :=
  [ Str ("Payroll System Menu" ++ LF);
    Str ("1. Add Full-time Employee" ++ LF);
    Str ("2. Add Part-time Employee" ++ LF);
    Str ("3. Add Contractual Employee" ++ LF);
    Str ("4. Generate Report" ++ LF);
    Str ("5. Exit" ++ LF) ].

End Registry.

(** ** src/A_E.cpp *)

Module A_E.

#[local] Notation IO := (IO string).
#[local] Notation Employee := (Employee string).
#[local] Notation World := (World string).

(** The character loop of [getValidID] (lines 88-93). *)
Fixpoint scanID (input : string) (valid : bool) : bool :=
  match input with
  | EmptyString => valid
  | String c rest => if negb (isalnum c) then false else scanID rest valid
  end.

(** What a pass of the loop of [getValidID] does with the line it read. *)
Definition checkID (input : string) : IO (unit + string) :=
  let input := trim input in
  let valid := scanID input (negb (empty input)) in
  if valid then
    unique <- isIdUnique input ;;
    if unique then leave input
    else print [Str ("Duplicate ID! Try again." ++ LF)] ;; again
  else print [Str ("Invalid ID! Use only letters and numbers." ++ LF)] ;; again.

Definition getValidID : IO string :=
  loop (fun _ : unit =>
    print [Str "Enter ID: "] ;;
    input <- getline ;;
    checkID input) tt.

(** The character loop of [getValidDouble] (lines 121-130), from the
    values [valid], [decimalPoints] and [hasDigit] have before a
    character to those they have when the loop is left. *)
Fixpoint scanDouble (input : string) (valid : bool) (decimalPoints : Z) (hasDigit : bool)
  : bool * bool :=
  match input with
  | EmptyString => (valid, hasDigit)
  | String c rest =>
      let '(valid, decimalPoints, hasDigit) :=
        if Ascii.eqb c "."%char then
          let decimalPoints := decimalPoints + 1 in
          ((if decimalPoints >? 1 then false else valid), decimalPoints, hasDigit)
        else if isdigit c then (valid, decimalPoints, true)
        else (false, decimalPoints, hasDigit) in
      if negb valid then (valid, hasDigit)
      else scanDouble rest valid decimalPoints hasDigit
  end.

(** What a pass of the loop of [getValidDouble] does with the line it read. *)
Definition checkDouble (input : string) : IO (unit + double) :=
  let input := trim input in
  let '(valid, hasDigit) := scanDouble input (negb (empty input)) 0 false in
  if valid && hasDigit then
    match stod input with
    | Value value => leave value
    | Throw invalid_argument =>
        print [Str ("Invalid input! Please enter a valid number." ++ LF)] ;; again
    | Throw out_of_range =>
        print [Str ("Input out of range for a double." ++ LF)] ;; again
    end
  else
    print [Str ("Invalid input! Use numbers with optional single decimal point." ++ LF)] ;;
    again.

Definition getValidDouble (prompt : string) : IO double :=
  loop (fun _ : unit =>
    print [Str prompt] ;;
    input <- getline ;;
    checkDouble input) tt.

(** The character loop of [getValidInt] (lines 158-163). *)
Fixpoint scanInt (input : string) (valid : bool) : bool :=
  match input with
  | EmptyString => valid
  | String c rest => if negb (isdigit c) then false else scanInt rest valid
  end.

(** What a pass of the loop of [getValidInt] does with the line it read. *)
Definition checkInt (input : string) : IO (unit + Z) :=
  let input := trim input in
  let valid := scanInt input (negb (empty input)) in
  if valid then
    match stoi input with
    | Value value => leave value
    | Throw invalid_argument =>
        print [Str ("Invalid input! Please enter a valid integer." ++ LF)] ;; again
    | Throw out_of_range =>
        print [Str ("Input out of range for an integer." ++ LF)] ;; again
    end
  else
    print [Str ("Invalid input! Please enter whole numbers only." ++ LF)] ;; again.

Definition getValidInt (prompt : string) : IO Z :=
  loop (fun _ : unit =>
    print [Str prompt] ;;
    input <- getline ;;
    checkInt input) tt.

(** The character loop of [getValidName] (lines 192-201). *)
Fixpoint scanName (input : string) (valid prevSpace : bool) : bool :=
  match input with
  | EmptyString => valid
  | String c rest =>
      let '(valid, prevSpace) :=
        if isspace c then ((if prevSpace then false else valid), true)
        else ((if negb (isalpha c) then false else valid), false) in
      if negb valid then valid
      else scanName rest valid prevSpace
  end.

(** What a pass of the loop of [getValidName] does with the line it read. *)
Definition checkName (input : string) : IO (unit + string) :=
  let input := trim input in
  let valid := scanName input (negb (empty input)) false in
  if valid then leave input
  else
    print [Str ("Invalid name! Use letters and single spaces between names." ++ LF)] ;;
    again.

Definition getValidName : IO string :=
  loop (fun _ : unit =>
    print [Str "Enter Name: "] ;;
    input <- getline ;;
    checkName input) tt.

Definition addEmployee (type : Z) : IO unit :=
  id <- getValidID ;;
  name <- getValidName ;;
  match type with
  | 1 =>
      salary <- getValidDouble "Monthly Salary: $" ;;
      push_back (FullTimeEmployee id name salary)
  | 2 =>
      rate <- getValidDouble "Hourly Rate: $" ;;
      hours <- getValidInt "Hours Worked: " ;;
      push_back (PartTimeEmployee id name rate hours)
  | 3 =>
      rate <- getValidDouble "Payment Per Project: $" ;;
      projects <- getValidInt "Projects Completed: " ;;
      push_back (ContractualEmployee id name rate projects)
  | _ => ret tt
  end ;;
  print [Str ("Employee added!" ++ LF ++ LF)].

(** One pass of the [while(running)] loop of [main], and in [dispatch]
    what it does with the line it read: [inl tt] when the loop goes round
    again, [inr 0] when [running] was cleared and [main] returns 0. *)
Definition dispatch (choice : string) : IO (unit + Z) :=
  let choice := trim choice in
  if negb (String.length choice =? 1)%nat || negb (isdigit (at_ choice 0)) then
    print [Str ("Invalid menu choice!" ++ LF)] ;; again
  else
    match at_ choice 0 with
    | "1"%char => addEmployee 1 ;; again
    | "2"%char => addEmployee 2 ;; again
    | "3"%char => addEmployee 3 ;; again
    | "4"%char => displayPayrollReport ;; again
    | "5"%char => print [Str ("Exiting system..." ++ LF)] ;; leave 0
    | _ => print [Str ("Invalid menu option!" ++ LF)] ;; again
    end.

Definition main_pass (_ : unit) : IO (unit + Z) :=
  print menu ;;
  print [Str "Selection: "] ;;
  choice <- getline ;;
  dispatch choice.

Definition main : IO Z := loop main_pass tt.

(** A run of the program on the lines typed by the operator. *)
Definition run (lines : list string) : list item * outcome string Z :=
  main {| employees := []; cin := lines |}.

End A_E.

(** ** src/DeepSeek.cpp (and src/Test_code.cpp, the same code) *)

Module DeepSeek.

#[local] Notation IO := (IO Z).
#[local] Notation Employee := (Employee Z).
#[local] Notation World := (World Z).

(** The character loop of [getValidInt] (lines 105-110). *)
Fixpoint scanInt (input : string) (valid : bool) : bool :=
  match input with
  | EmptyString => valid
  | String c rest => if negb (isdigit c) then false else scanInt rest valid
  end.

(** [if (valid) return stoi(input);] has no handler around it: what
    [stoi] throws leaves the function. *)
(** What a pass of the loop of [getValidInt] does with the line it read. *)
Definition checkInt (input : string) : IO (unit + Z) :=
  let valid := scanInt input (negb (empty input)) in
  if valid then
    match stoi input with
    | Value value => leave value
    | Throw e => throw e
    end
  else
    print [Str ("Invalid input! Please enter whole numbers only." ++ LF)] ;; again.

Definition getValidInt (prompt : string) : IO Z :=
  loop (fun _ : unit =>
    print [Str prompt] ;;
    input <- getline ;;
    checkInt input) tt.

(** The character loop of [getValidDouble] (lines 125-132). *)
Fixpoint scanDouble (input : string) (valid : bool) (decimalPoints : Z) : bool :=
  match input with
  | EmptyString => valid
  | String c rest =>
      let '(valid, decimalPoints) :=
        if Ascii.eqb c "."%char then
          let decimalPoints := decimalPoints + 1 in
          ((if decimalPoints >? 1 then false else valid), decimalPoints)
        else if negb (isdigit c) then (false, decimalPoints)
        else (valid, decimalPoints) in
      if negb valid then valid
      else scanDouble rest valid decimalPoints
  end.

(** What a pass of the loop of [getValidDouble] does with the line it read. *)
Definition checkDouble (input : string) : IO (unit + double) :=
  let valid := scanDouble input (negb (empty input)) 0 in
  if valid then
    match stod input with
    | Value value => leave value
    | Throw e => throw e
    end
  else
    print [Str ("Invalid input! Use numbers with optional single decimal point." ++ LF)] ;;
    again.

Definition getValidDouble (prompt : string) : IO double :=
  loop (fun _ : unit =>
    print [Str prompt] ;;
    input <- getline ;;
    checkDouble input) tt.

(** The character loop of [getValidName] (lines 146-151). *)
Fixpoint scanName (name : string) (valid : bool) : bool :=
  match name with
  | EmptyString => valid
  | String c rest =>
      if negb (isalpha c) && negb (Ascii.eqb c " "%char) then false
      else scanName rest valid
  end.

(** What a pass of the loop of [getValidName] does with the line it read. *)
Definition checkName (name : string) : IO (unit + string) :=
  let valid := scanName name (negb (empty name)) in
  if valid then leave name
  else print [Str ("Invalid name! Use letters and spaces only." ++ LF)] ;; again.

Definition getValidName (prompt : string) : IO string :=
  loop (fun _ : unit =>
    print [Str prompt] ;;
    name <- getline ;;
    checkName name) tt.

(** The identifier loop of [addEmployee] (lines 161-165): one pass of
    [while (!isIdUnique(id))] from the current [id]. *)
Definition uniqueIdPass (id : Z) : IO (Z + Z) :=
  unique <- isIdUnique id ;;
  if negb unique then
    print [Str ("Duplicate ID! Try again." ++ LF)] ;;
    id <- getValidInt "Enter ID: " ;;
    ret (inl id)
  else ret (inr id).

Definition addEmployee (type : Z) : IO unit :=
  id <- getValidInt "Enter ID: " ;;
  id <- loop uniqueIdPass id ;;
  name <- getValidName "Enter Name: " ;;
  match type with
  | 1 =>
      salary <- getValidDouble "Monthly Salary: $" ;;
      push_back (FullTimeEmployee id name salary)
  | 2 =>
      rate <- getValidDouble "Hourly Rate: $" ;;
      hours <- getValidInt "Hours Worked: " ;;
      push_back (PartTimeEmployee id name rate hours)
  | 3 =>
      rate <- getValidDouble "Payment Per Project: $" ;;
      projects <- getValidInt "Projects Completed: " ;;
      push_back (ContractualEmployee id name rate projects)
  | _ => ret tt
  end ;;
  print [Str ("Employee added!" ++ LF ++ LF)].

(** One pass of the [while (true)] loop of [main], and in [dispatch] what
    it does with the line it read; [inr 0] is [return 0]. *)
Definition dispatch (choice : string) : IO (unit + Z) :=
  if negb (String.length choice =? 1)%nat || negb (isdigit (at_ choice 0)) then
    print [Str ("Invalid menu choice!" ++ LF)] ;; again
  else
    match at_ choice 0 with
    | "1"%char => addEmployee 1 ;; again
    | "2"%char => addEmployee 2 ;; again
    | "3"%char => addEmployee 3 ;; again
    | "4"%char => displayPayrollReport ;; again
    | "5"%char => print [Str ("Exiting system..." ++ LF)] ;; leave 0
    | _ => print [Str ("Invalid menu option!" ++ LF)] ;; again
    end.

Definition main_pass (_ : unit) : IO (unit + Z) :=
  print menu ;;
  print [Str "Selection: "] ;;
  choice <- getline ;;
  dispatch choice.

Definition main : IO Z := loop main_pass tt.

Definition run (lines : list string) : list item * outcome Z Z :=
  main {| employees := []; cin := lines |}.

End DeepSeek.

(** ** Vocabulary of the statements *)

Section Behaviour.

Context {ID : Type}.

(** [m] leaves the state as it found it whenever it returns. *)
Definition frame {A} (m : IO ID A) : Prop :=
  forall w out a w', m w = (out, Returned a w') -> w' = w.

(** [m] leaves the registry as it found it whenever it returns. *)
Definition keeps {A} (m : IO ID A) : Prop :=
  forall w out a w', m w = (out, Returned a w') -> employees w' = employees w.

(** [m] only moves forward in the input. *)
Definition forward {A} (m : IO ID A) : Prop :=
  forall w out a w', m w = (out, Returned a w') ->
    (List.length (cin w') <= List.length (cin w))%nat.

(** [m] reads at least a line before it returns. *)
Definition reads {A} (m : IO ID A) : Prop :=
  forall w out a w', m w = (out, Returned a w') ->
    (List.length (cin w') < List.length (cin w))%nat.

(** A pass of a loop that goes round again has read at least a line. *)
Definition consuming {S A} (step : S -> IO ID (S + A)) : Prop :=
  forall s w out s' w', step s w = (out, Returned (inl s') w') ->
    (List.length (cin w') < List.length (cin w))%nat.

(** A computation that does not let an exception out. *)
Definition nothrow {A} (m : IO ID A) : Prop :=
  forall w out e, m w <> (out, Thrown e).

End Behaviour.

(** The characters of a string, in order. *)
Definition chars (s : string) : list ascii := list_ascii_of_string s.

(** No two neighbours in [l] both satisfy [p]. *)
Fixpoint no_adjacent (p : ascii -> bool) (l : list ascii) : bool :=
  match l with
  | a :: (b :: _) as tail => negb (p a && p b) && no_adjacent p tail
  | _ => true
  end.

Definition is_point (c : ascii) : bool := Ascii.eqb c "."%char.
Definition is_blank (c : ascii) : bool := Ascii.eqb c " "%char.

(** The number of decimal points of a string. *)
Definition points (s : string) : nat := List.length (filter is_point (chars s)).

Module Grammar.

(** The grammars as the specification words them. *)

(** Monetary amount: [digit+ ('.' digit+)?]. *)
Definition amount (s : string) : bool :=
  let (ipart, rest) := span_digits s in
  negb (empty ipart) &&
  match rest with
  | EmptyString => true
  | String "."%char rest' =>
      let (fpart, rest'') := span_digits rest' in
      negb (empty fpart) && empty rest''
  | _ => false
  end.

(** Name: non-empty, letters and spaces only, no two spaces in a row. *)
Definition name (s : string) : bool :=
  negb (empty s)
  && forallb (fun c => isalpha c || is_blank c) (chars s)
  && no_adjacent is_blank (chars s).

(** The grammars the validators of A_E.cpp check on the trimmed line. *)

(** Digits and at most one point, with a digit somewhere. *)
Definition amount_shape (s : string) : bool :=
  negb (empty s)
  && forallb (fun c => isdigit c || is_point c) (chars s)
  && (points s <=? 1)%nat
  && existsb isdigit (chars s).

(** Letters and white space ([isspace]), never two white-space
    characters in a row. *)
Definition name_shape (s : string) : bool :=
  negb (empty s)
  && forallb (fun c => isalpha c || isspace c) (chars s)
  && no_adjacent isspace (chars s).

(** A non-empty string of digits. *)
Definition count_shape (s : string) : bool :=
  negb (empty s) && forallb isdigit (chars s).

(** A non-empty string of letters and digits. *)
Definition id_shape (s : string) : bool :=
  negb (empty s) && forallb isalnum (chars s).

End Grammar.

(** A double that is [+0] or positive and finite. *)
Definition unsigned_finite (x : double) : Prop :=
  x = S754_zero false \/ exists m e, x = S754_finite false m e.

(** A double that is [+0], positive and finite, or [+inf]. *)
Definition unsigned (x : double) : Prop :=
  unsigned_finite x \/ x = S754_infinity false.

(** One half, written as a double. *)
Definition half : double := binary_normalize prec emax 1 (-1) false.

(** What [main] answers to a selection it does not act upon, if the
    trimmed selection [choice] is one: a selection that is not exactly one
    character, or not a digit, is an invalid choice; a single digit that is
    none of 1-5 is an invalid option. *)
Definition refusal (choice : string) : option string :=
  if negb (String.length choice =? 1)%nat || negb (isdigit (at_ choice 0))
  then Some "Invalid menu choice!"
  else if (49 <=? code (at_ choice 0)) && (code (at_ choice 0) <=? 53)
       then None
       else Some "Invalid menu option!".

(** The states of A_E.cpp the command loop can be in at the top of a
    pass: the state [main] starts in, with an empty registry, and every
    state a pass of the loop ends in. *)
Inductive reachable : World string -> Prop :=
| reach_start (lines : list string) :
    reachable {| employees := []; cin := lines |}
| reach_pass (w : World string) out r (w' : World string) :
    reachable w -> A_E.main_pass tt w = (out, Returned r w') -> reachable w'.

(** No record has a negative salary, and no two records share an id. *)
Definition registry_ok {ID} (emps : list (Employee ID)) : Prop :=
  (forall e, In e emps -> nonneg (salary e) = true)
  /\ NoDup (map getId emps).

(** The salary a record should have, given its variant: nothing to
    compute for full time, rate times count for the other two. *)
Definition salary_formula {ID} (e : Employee ID) : Prop :=
  match kind e with
  | FullTime => True
  | PartTime hourlyRate hoursWorked =>
      salary e = dmul hourlyRate (double_of_int hoursWorked)
  | Contractual paymentPerProject projectsCompleted =>
      salary e = dmul paymentPerProject (double_of_int projectsCompleted)
  end.

(** [n] zeros in a row. *)
Fixpoint zeros (n : nat) : string :=
  match n with
  | O => EmptyString
  | S n' => String "0"%char (zeros n')
  end.



(** Trimming, said on the list of characters: drop the white space in
    front, and the white space at the back. *)
Fixpoint drop_space (l : list ascii) : list ascii :=
  match l with
  | c :: rest => if isspace c then drop_space rest else l
  | [] => []
  end.

Definition strip (l : list ascii) : list ascii :=
  rev (drop_space (rev (drop_space l))).

(** ** Vocabulary of the further properties *)

(** A list of characters with no white space at either end. *)
Definition outer_clean (l : list ascii) : Prop :=
  match l with c :: _ => isspace c = false | [] => True end
  /\ match rev l with c :: _ => isspace c = false | [] => True end.

Module Loose.

(** The grammars the validators of DeepSeek.cpp check, on the line as it
    was typed. *)

(** Digits and at most one point. *)
Definition amount_shape (s : string) : bool :=
  negb (empty s)
  && forallb (fun c => isdigit c || is_point c) (chars s)
  && (points s <=? 1)%nat.

(** Letters and blanks. *)
Definition name_shape (s : string) : bool :=
  negb (empty s) && forallb (fun c => isalpha c || is_blank c) (chars s).

End Loose.

(** The states the command loop of DeepSeek.cpp can be in at the top of
    a pass. *)
Inductive DeepSeek_reachable : World Z -> Prop :=
| DeepSeek_start (lines : list string) :
    DeepSeek_reachable {| employees := []; cin := lines |}
| DeepSeek_pass (w : World Z) out r (w' : World Z) :
    DeepSeek_reachable w -> DeepSeek.main_pass tt w = (out, Returned r w') ->
    DeepSeek_reachable w'.

(** The items a computation may print are among [allowed]. *)
Definition prints_only {ID A} (allowed : list item) (r : list item * outcome ID A) : Prop :=
  Forall (fun i => In i allowed) (fst r).

(** Whether a computation ended with an exception nobody caught. *)
Definition escapes {ID A} (r : list item * outcome ID A) : bool :=
  match snd r with
  | Thrown _ => true
  | _ => false
  end.

(** ** src/abstraction_encapsulation/main.cpp *)

(** The file as it stands is not accepted by a compiler: the class
    [InternEmployee] (lines 63-65) has no members and no [;] after it.
    What follows models the member functions of the three classes before
    it, as they are written. *)

Module Encapsulation.

(** The two classes derived from [Employee] that have a body. *)
Inductive Derived : Type :=
| PermanentEmployee
| ContractEmployee.

(** An [Employee] object: the private fields of the base class and the
    dynamic type. *)
Record Employee : Type := {
  name : string;
  age : Z;
  salary : double;
  derived : Derived
}.

Definition getName (e : Employee) : string := name e.
Definition getAge (e : Employee) : Z := age e.
Definition getSalary (e : Employee) : double := salary e.

(** [x > 0], the [0] converted to [double]; false on NaN. *)
Definition positive (x : double) : bool := SFltb (S754_zero false) x.

(** [void setSalary(double empSalary)] (lines 34-38), as the object after
    the call. *)
Definition setSalary (empSalary : double) (e : Employee) : Employee :=
  if positive empSalary
  then {| name := name e; age := age e; salary := empSalary; derived := derived e |}
  else e.

(** The literals [0.1] and [0.05], as the doubles nearest to them. *)
Definition tenth : double := S754_finite false 7205759403792794 (-56).
Definition twentieth : double := S754_finite false 7205759403792794 (-57).

(** The [bonus] local of [calculateBonus()] (lines 46-49 and 57-60). *)
Definition bonus (e : Employee) : double :=
  match derived e with
  | PermanentEmployee => dmul (getSalary e) tenth
  | ContractEmployee => dmul (getSalary e) twentieth
  end.

(** [void calculateBonus()]: what it sends to [cout]. *)
Definition calculateBonus (e : Employee) : list item :=
  match derived e with
  | PermanentEmployee =>
      [Str "Permanent Employee "; Str (getName e); Str " gets a bonus of: $";
       Dbl (bonus e); Str LF]
  | ContractEmployee =>
      [Str "Contract Employee "; Str (getName e); Str " gets a bonus of: $";
       Dbl (bonus e); Str LF]
  end.

End Encapsulation.

(** * Properties *)

(** ** The monad and its loops *)

Section LoopFacts.

Context {ID : Type}.
Implicit Types w : World ID.

Lemma prepend_nil {A} (r : list item * outcome ID A) : prepend [] r = r.
Proof. destruct r; reflexivity. Qed.

Lemma prepend_prepend {A} (o1 o2 : list item) (r : list item * outcome ID A) :
  prepend o1 (prepend o2 r) = prepend (o1 ++ o2)%list r.
Proof. unfold prepend; simpl. now rewrite app_assoc. Qed.

Lemma bind_run {A B} (m : IO ID A) (f : A -> IO ID B) w out a w' :
  m w = (out, Returned a w') -> (x <- m ;; f x) w = prepend out (f a w').
Proof. intros E. unfold bind, prepend. rewrite E. now destruct (f a w'). Qed.

Lemma bind_diverges {A B} (m : IO ID A) (f : A -> IO ID B) w out :
  m w = (out, Diverges) -> (x <- m ;; f x) w = (out, Diverges).
Proof. intros E. unfold bind. now rewrite E. Qed.

Lemma bind_thrown {A B} (m : IO ID A) (f : A -> IO ID B) w out e :
  m w = (out, Thrown e) -> (x <- m ;; f x) w = (out, Thrown e).
Proof. intros E. unfold bind. now rewrite E. Qed.

(** What a returning [bind] is made of. *)
Lemma bind_inv {A B} (m : IO ID A) (f : A -> IO ID B) w out b w'' :
  (x <- m ;; f x) w = (out, Returned b w'') ->
  exists out1 a w' out2,
    m w = (out1, Returned a w') /\ f a w' = (out2, Returned b w'') /\
    out = (out1 ++ out2)%list.
Proof.
  unfold bind. destruct (m w) as [out1 [a w'| |e]]; try discriminate.
  destruct (f a w') as [out2 o] eqn:E. intros H. inversion H; subst.
  now exists out1, a, w', out2.
Qed.

Lemma bind_thrown_inv {A B} (m : IO ID A) (f : A -> IO ID B) w out e :
  (x <- m ;; f x) w = (out, Thrown e) ->
  (exists o, m w = (o, Thrown e))
  \/ exists o1 a w' o2, m w = (o1, Returned a w') /\ f a w' = (o2, Thrown e).
Proof.
  unfold bind. destruct (m w) as [o1 [a w'| |e']]; try discriminate.
  - destruct (f a w') as [o2 o] eqn:E. intros H. inversion H; subst.
    right. now exists o1, a, w', o2.
  - intros H. inversion H; subst. left. eauto.
Qed.

Section Fuel.

Context {S A : Type} (step : S -> IO ID (S + A)).
Hypothesis step_consuming : consuming step.

(** With more fuel than lines the loop has a result, and more fuel
    does not change it. *)
Lemma loop_fuel_enough (n : nat) :
  forall s w, (List.length (cin w) < n)%nat ->
    exists r, forall m, (n <= m)%nat -> loop_fuel m step s w = Some r.
Proof.
  induction n as [|n IH]; intros s w Hlen; [lia|].
  destruct (step s w) as [out o] eqn:E.
  destruct o as [[s'|a] w'| |e].
  - destruct (IH s' w') as [r Hr].
    { apply step_consuming in E. lia. }
    exists (prepend out r). intros [|m] Hm; [lia|].
    simpl. rewrite E, Hr by lia. reflexivity.
  - exists (out, Returned a w'). intros [|m] Hm; [lia|]. simpl. now rewrite E.
  - exists (out, Diverges). intros [|m] Hm; [lia|]. simpl. now rewrite E.
  - exists (out, Thrown e). intros [|m] Hm; [lia|]. simpl. now rewrite E.
Qed.

(** The loop always has the fuel it needs. *)
Lemma loop_total s w :
  exists r, loop_fuel (Datatypes.S (List.length (cin w))) step s w = Some r
            /\ loop step s w = r.
Proof.
  destruct (loop_fuel_enough (Datatypes.S (List.length (cin w))) s w) as [r Hr]; [lia|].
  exists r. unfold loop. rewrite Hr by lia. auto.
Qed.

(** A loop is its first pass followed, unless the pass left it, by
    the loop again. *)
Lemma loop_unfold s w :
  loop step s w =
  (r <- step s ;; match r with inl s' => loop step s' | inr a => ret a end) w.
Proof.
  unfold loop at 1. simpl. unfold bind.
  destruct (step s w) as [out o] eqn:E.
  destruct o as [[s'|a] w'| |e]; try reflexivity.
  - destruct (loop_fuel_enough (Datatypes.S (List.length (cin w'))) s' w') as [r Hr]; [lia|].
    apply step_consuming in E.
    unfold loop. rewrite !Hr by lia. destruct r; reflexivity.
  - unfold ret. now rewrite app_nil_r.
Qed.

End Fuel.

End LoopFacts.

Section LoopRules.

Context {ID : Type}.
Implicit Types w : World ID.

(** A relation between the states before and after each pass, if
    transitive, relates the states before and after the loop. *)
Lemma loop_rule {S A} (step : S -> IO ID (S + A)) (R : World ID -> World ID -> Prop) :
  consuming step ->
  (forall w1 w2 w3, R w1 w2 -> R w2 w3 -> R w1 w3) ->
  (forall s w out r w', step s w = (out, Returned r w') -> R w w') ->
  forall s w out a w', loop step s w = (out, Returned a w') -> R w w'.
Proof.
  intros Hc Htrans Hstep.
  assert (H : forall n s w out a w', (List.length (cin w) <= n)%nat ->
               loop step s w = (out, Returned a w') -> R w w').
  { induction n as [|n IH]; intros s w out a w' Hn Hrun;
      rewrite (loop_unfold step Hc) in Hrun;
      apply bind_inv in Hrun as (o1 & r & w1 & o2 & E1 & E2 & _);
      destruct r as [s'|a'].
    - apply Hc in E1. lia.
    - inversion E2; subst. eauto.
    - pose proof (Hc _ _ _ _ _ E1).
      apply Htrans with w1; [eauto|]. apply IH in E2; [exact E2|lia].
    - inversion E2; subst. eauto. }
  intros s w out a w'. now apply (H (List.length (cin w))).
Qed.

(** What holds of the value of every pass that leaves the loop, relative
    to the registry, holds of the value of the loop, if no pass changes
    the registry. *)
Lemma loop_returns {S A} (step : S -> IO ID (S + A))
      (Q : list (Employee ID) -> A -> Prop) :
  consuming step ->
  (forall s, keeps (step s)) ->
  (forall s w out a w', step s w = (out, Returned (inr a) w') -> Q (employees w) a) ->
  forall s w out a w', loop step s w = (out, Returned a w') -> Q (employees w) a.
Proof.
  intros Hc Hk Hq.
  assert (H : forall n s w out a w', (List.length (cin w) <= n)%nat ->
               loop step s w = (out, Returned a w') -> Q (employees w) a).
  { induction n as [|n IH]; intros s w out a w' Hn Hrun;
      rewrite (loop_unfold step Hc) in Hrun;
      apply bind_inv in Hrun as (o1 & r & w1 & o2 & E1 & E2 & _);
      destruct r as [s'|a'].
    - apply Hc in E1. lia.
    - inversion E2; subst. eauto.
    - pose proof (Hc _ _ _ _ _ E1). rewrite <- (Hk _ _ _ _ _ E1).
      apply IH in E2; [exact E2|lia].
    - inversion E2; subst. eauto. }
  intros s w out a w'. now apply (H (List.length (cin w))).
Qed.

Lemma keeps_loop {S A} (step : S -> IO ID (S + A)) :
  consuming step -> (forall s, keeps (step s)) -> forall s, keeps (loop step s).
Proof.
  intros Hc Hk s w out a w'.
  apply (loop_rule step (fun w w' => employees w' = employees w) Hc).
  - intros; congruence.
  - intros s0 w0 o r w0'. apply Hk.
Qed.

Lemma forward_loop {S A} (step : S -> IO ID (S + A)) :
  consuming step -> (forall s, forward (step s)) -> forall s, forward (loop step s).
Proof.
  intros Hc Hk s w out a w'.
  apply (loop_rule step (fun w w' => (List.length (cin w') <= List.length (cin w))%nat) Hc).
  - intros; lia.
  - intros s0 w0 o r w0'. apply Hk.
Qed.

Lemma reads_loop {S A} (step : S -> IO ID (S + A)) :
  (forall s, reads (step s)) -> forall s, reads (loop step s).
Proof.
  intros Hk s w out a w'.
  assert (Hc : consuming step) by (intros s0 w0 o s1 w1; apply Hk).
  apply (loop_rule step (fun w w' => (List.length (cin w') < List.length (cin w))%nat) Hc).
  - intros; lia.
  - intros s0 w0 o r w0'. apply Hk.
Qed.

Lemma nothrow_loop {S A} (step : S -> IO ID (S + A)) :
  consuming step -> (forall s, nothrow (step s)) -> forall s, nothrow (loop step s).
Proof.
  intros Hc Hs.
  assert (H : forall n s w out e, (List.length (cin w) <= n)%nat ->
               loop step s w <> (out, Thrown e)).
  { induction n as [|n IH]; intros s w out e Hn Hrun;
      rewrite (loop_unfold step Hc) in Hrun;
      apply bind_thrown_inv in Hrun as [[o E]|(o1 & [s'|a] & w1 & o2 & E1 & E2)];
      try (eapply Hs, E); try discriminate E2.
    - apply Hc in E1. lia.
    - pose proof (Hc _ _ _ _ _ E1). apply IH in E2; [exact E2|lia]. }
  intros s w out e. now apply (H (List.length (cin w))).
Qed.

Lemma reads_forward {A} (m : IO ID A) : reads m -> forward m.
Proof. intros H w out a w' E. apply H in E. lia. Qed.

Lemma frame_keeps {A} (m : IO ID A) : frame m -> keeps m.
Proof. intros H w out a w' E. apply H in E. now subst. Qed.

Lemma frame_forward {A} (m : IO ID A) : frame m -> forward m.
Proof. intros H w out a w' E. apply H in E. now subst. Qed.

Lemma frame_ret {A} (a : A) : frame (ret (ID:=ID) a).
Proof. intros w out a' w' E. now inversion E. Qed.

Lemma frame_print items : frame (print (ID:=ID) items).
Proof. intros w out a' w' E. now inversion E. Qed.

Lemma frame_throw {A} e : frame (throw (ID:=ID) (A:=A) e).
Proof. intros w out a' w' E. inversion E. Qed.

Lemma frame_get_employees : frame (get_employees (ID:=ID)).
Proof. intros w out a' w' E. now inversion E. Qed.

Lemma frame_bind {A B} (m : IO ID A) (f : A -> IO ID B) :
  frame m -> (forall a, frame (f a)) -> frame (x <- m ;; f x).
Proof.
  intros Hm Hf w out b w'' E.
  apply bind_inv in E as (o1 & a & w' & o2 & E1 & E2 & _).
  apply Hm in E1. apply Hf in E2. congruence.
Qed.

Lemma keeps_bind {A B} (m : IO ID A) (f : A -> IO ID B) :
  keeps m -> (forall a, keeps (f a)) -> keeps (x <- m ;; f x).
Proof.
  intros Hm Hf w out b w'' E.
  apply bind_inv in E as (o1 & a & w' & o2 & E1 & E2 & _).
  apply Hm in E1. apply Hf in E2. congruence.
Qed.

Lemma forward_bind {A B} (m : IO ID A) (f : A -> IO ID B) :
  forward m -> (forall a, forward (f a)) -> forward (x <- m ;; f x).
Proof.
  intros Hm Hf w out b w'' E.
  apply bind_inv in E as (o1 & a & w' & o2 & E1 & E2 & _).
  apply Hm in E1. apply Hf in E2. lia.
Qed.

Lemma reads_bind_l {A B} (m : IO ID A) (f : A -> IO ID B) :
  reads m -> (forall a, forward (f a)) -> reads (x <- m ;; f x).
Proof.
  intros Hm Hf w out b w'' E.
  apply bind_inv in E as (o1 & a & w' & o2 & E1 & E2 & _).
  apply Hm in E1. apply Hf in E2. lia.
Qed.

Lemma reads_bind_r {A B} (m : IO ID A) (f : A -> IO ID B) :
  forward m -> (forall a, reads (f a)) -> reads (x <- m ;; f x).
Proof.
  intros Hm Hf w out b w'' E.
  apply bind_inv in E as (o1 & a & w' & o2 & E1 & E2 & _).
  apply Hm in E1. apply Hf in E2. lia.
Qed.

Lemma reads_getline : reads (getline (ID:=ID)).
Proof.
  intros w out a w' E. unfold getline in E.
  destruct (cin w) as [|l rest]; inversion E; subst. simpl. lia.
Qed.

Lemma keeps_getline : keeps (getline (ID:=ID)).
Proof.
  intros w out a w' E. unfold getline in E.
  destruct (cin w) as [|l rest]; inversion E; subst. reflexivity.
Qed.

Lemma forward_push_back e : forward (push_back (ID:=ID) e).
Proof. intros w out a w' E. inversion E; subst. simpl. lia. Qed.

Lemma frame_for_each {T} (xs : list T) (body : T -> IO ID unit) :
  (forall x, frame (body x)) -> frame (for_each xs body).
Proof.
  intros Hb. induction xs as [|x xs IH]; simpl.
  - apply frame_ret.
  - apply frame_bind; [apply Hb | intros _; exact IH].
Qed.

Lemma nothrow_ret {A} (a : A) : nothrow (ret (ID:=ID) a).
Proof. intros w out e H. discriminate. Qed.

Lemma nothrow_print items : nothrow (print (ID:=ID) items).
Proof. intros w out e H. discriminate. Qed.

Lemma nothrow_get_employees : nothrow (get_employees (ID:=ID)).
Proof. intros w out e H. discriminate. Qed.

Lemma nothrow_push_back x : nothrow (push_back (ID:=ID) x).
Proof. intros w out e H. discriminate. Qed.

Lemma nothrow_getline : nothrow (getline (ID:=ID)).
Proof. intros w out e H. unfold getline in H. destruct (cin w); discriminate. Qed.

Lemma nothrow_bind {A B} (m : IO ID A) (f : A -> IO ID B) :
  nothrow m -> (forall a, nothrow (f a)) -> nothrow (x <- m ;; f x).
Proof.
  intros Hm Hf w out e H.
  apply bind_thrown_inv in H as [[o H]|(o1 & a & w' & o2 & _ & H)].
  - eapply Hm, H.
  - eapply Hf, H.
Qed.

Lemma nothrow_for_each {T} (xs : list T) (body : T -> IO ID unit) :
  (forall x, nothrow (body x)) -> nothrow (for_each xs body).
Proof.
  intros Hb. induction xs as [|x xs IH]; simpl.
  - apply nothrow_ret.
  - apply nothrow_bind; [apply Hb | intros _; exact IH].
Qed.

End LoopRules.

(** ** Loops that ask for a line *)

Section Asking.

Context {ID : Type}.
Implicit Types w : World ID.

Lemma ask_reads {A} prompt (K : string -> IO ID (unit + A)) :
  (forall input, forward (K input)) -> forall s, reads (ask prompt K s).
Proof.
  intros HK s. unfold ask.
  apply reads_bind_r; [apply frame_forward, frame_print|]. intros _.
  apply reads_bind_l; [apply reads_getline | exact HK].
Qed.

Lemma ask_consuming {A} prompt (K : string -> IO ID (unit + A)) :
  (forall input, forward (K input)) -> consuming (ask prompt K).
Proof. intros HK s w out s' w'. apply ask_reads, HK. Qed.

(** The loop on an exhausted input: the prompt, then nothing more. *)
Lemma ask_nil {A} prompt (K : string -> IO ID (unit + A)) emps :
  loop (ask prompt K) tt {| employees := emps; cin := [] |} = (prompt, Diverges).
Proof. unfold loop, ask, bind, print, getline; simpl. now rewrite app_nil_r. Qed.

(** The loop on a line: the prompt, the decision on that line, and the
    loop again if the decision was to go round. *)
Lemma ask_cons {A} prompt (K : string -> IO ID (unit + A)) emps line rest :
  (forall input, forward (K input)) ->
  loop (ask prompt K) tt {| employees := emps; cin := line :: rest |} =
  prepend prompt
    ((r <- K line ;;
      match r with inl _ => loop (ask prompt K) tt | inr a => ret a end)
       {| employees := emps; cin := rest |}).
Proof.
  intros HK. rewrite (loop_unfold _ (ask_consuming prompt K HK)).
  unfold ask at 1. unfold bind, print, getline, prepend; simpl.
  destruct (K line _) as [o1 [[[]|a] w1| |e]]; simpl; try reflexivity.
  - destruct (loop _ _ _); simpl. now rewrite app_assoc.
  - now rewrite app_assoc.
Qed.

Lemma ask_returns {A} prompt (K : string -> IO ID (unit + A))
      (Q : list (Employee ID) -> A -> Prop) :
  (forall input, frame (K input)) ->
  (forall input w out a w', K input w = (out, Returned (inr a) w') -> Q (employees w) a) ->
  forall w out a w', loop (ask prompt K) tt w = (out, Returned a w') -> Q (employees w) a.
Proof.
  intros HK HQ. apply loop_returns.
  - apply ask_consuming. intros input. apply frame_forward, HK.
  - intros s. unfold ask.
    apply keeps_bind; [apply frame_keeps, frame_print|]. intros _.
    apply keeps_bind; [apply keeps_getline|]. intros input. apply frame_keeps, HK.
  - intros s w out a w' E. unfold ask in E.
    apply bind_inv in E as (o1 & [] & w1 & o2 & E1 & E2 & _).
    apply frame_print in E1. subst w1.
    apply bind_inv in E2 as (o3 & line & w2 & o4 & E3 & E4 & _).
    rewrite <- (keeps_getline _ _ _ _ E3). eapply HQ, E4.
Qed.

End Asking.

Ltac frame_tac :=
  unfold again, leave, isIdUnique; cbv zeta;
  repeat first
    [ apply frame_ret | apply frame_print | apply frame_throw
    | apply frame_get_employees | apply frame_bind
    | match goal with
      | |- forall _, _ => intro
      | |- frame (match ?x with _ => _ end) => destruct x
      end ].

Ltac run_io :=
  unfold bind, print, again, leave, ret, throw, prepend, isIdUnique, get_employees;
  simpl.

(** ** [trim] computes what its name says *)

Section Trim.

Lemma at_nth s : forall i, at_ s i = nth i (chars s) zero.
Proof.
  unfold at_. induction s as [|c s IH]; intros [|i]; simpl; try reflexivity.
  apply IH.
Qed.

Lemma chars_length s : List.length (chars s) = String.length s.
Proof. induction s; simpl; congruence. Qed.

Lemma chars_substring s : forall a len,
  chars (substring a len s) = firstn len (skipn a (chars s)).
Proof.
  induction s as [|c s IH]; intros [|a] [|len]; simpl; try reflexivity.
  - f_equal. apply (IH 0%nat len).
  - apply (IH a 0%nat).
  - apply (IH a (S len)).
Qed.

Lemma skipn_nth (l : list ascii) i :
  (i < List.length l)%nat -> skipn i l = nth i l zero :: skipn (S i) l.
Proof.
  revert i. induction l as [|c l IH]; intros [|i] H; simpl in *; try lia.
  - reflexivity.
  - apply IH. lia.
Qed.

(** The first loop stops where the leading white space ends. *)
Lemma trim_start_spec s fuel : forall i,
  (i + fuel = String.length s)%nat ->
  let r := trim_start s i (String.length s - 1) fuel in
  (i <= r <= String.length s)%nat
  /\ skipn r (chars s) = drop_space (skipn i (chars s)).
Proof.
  induction fuel as [|fuel IH]; intros i Hi; cbv zeta.
  - simpl. split; [lia|].
    rewrite skipn_all2 by (rewrite chars_length; lia). reflexivity.
  - cbn [trim_start].
    replace (i <=? String.length s - 1)%nat with true
      by (symmetry; apply Nat.leb_le; lia).
    cbn [andb]. rewrite at_nth.
    rewrite (skipn_nth (chars s) i) by (rewrite chars_length; lia).
    cbn [drop_space].
    destruct (isspace (nth i (chars s) zero)).
    + destruct (IH (S i) ltac:(lia)) as [Hr Hs]. split; [lia | exact Hs].
    + split; [lia|]. apply skipn_nth. rewrite chars_length. lia.
Qed.

(** The second loop stops on the last character that is not white
    space, and never steps below index 0. *)
Lemma trim_end_spec s start : forall e,
  (start <= e < String.length s)%nat ->
  isspace (nth start (chars s) zero) = false ->
  (forall j, (e < j < String.length s)%nat -> isspace (nth j (chars s) zero) = true) ->
  exists b,
    trim_end s start e = Some b
    /\ (start <= b <= e)%nat
    /\ isspace (nth b (chars s) zero) = false
    /\ forall j, (b < j < String.length s)%nat -> isspace (nth j (chars s) zero) = true.
Proof.
  induction e as [|e IH]; intros He Hs Hafter.
  - assert (start = 0)%nat by lia. subst start.
    simpl. rewrite at_nth, Hs. exists 0%nat. repeat split; auto; lia.
  - cbn [trim_end].
    replace (start <=? S e)%nat with true by (symmetry; apply Nat.leb_le; lia).
    cbn [andb]. rewrite at_nth.
    destruct (isspace (nth (S e) (chars s) zero)) eqn:E.
    + assert (start <> S e) by (intros ->; congruence).
      destruct IH as (b & Hb & Hr & Hn & Ha); [lia | exact Hs | |].
      { intros j Hj. destruct (Nat.eq_dec j (S e)) as [->|]; [exact E|].
        apply Hafter. lia. }
      exists b. repeat split; auto; lia.
    + exists (S e). repeat split; auto; lia.
Qed.

Lemma drop_space_all (l l' : list ascii) :
  forallb isspace l = true -> drop_space (l ++ l') = drop_space l'.
Proof.
  induction l as [|c l IH]; simpl; [reflexivity|].
  intros H. apply andb_true_iff in H as [Hc Hl]. rewrite Hc. now apply IH.
Qed.

Lemma forallb_nth (l : list ascii) :
  (forall j, (j < List.length l)%nat -> isspace (nth j l zero) = true) ->
  forallb isspace l = true.
Proof.
  induction l as [|c l IH]; intros H; [reflexivity|]. cbn [forallb].
  pose proof (H 0%nat ltac:(simpl; lia)) as H0. cbn [nth] in H0. rewrite H0.
  apply IH. intros j Hj. apply (H (S j)). simpl. lia.
Qed.

Lemma firstn_snoc (l : list ascii) : forall m,
  (m < List.length l)%nat ->
  firstn (S m) l = (firstn m l ++ [nth m l zero])%list.
Proof.
  induction l as [|c l IH]; intros [|m] H; simpl in *; try lia.
  - reflexivity.
  - f_equal. apply IH. lia.
Qed.

(** Dropping the white space at the back of [l] leaves its first [k]
    characters, if the [k]-th is the last that is not white space. *)
Lemma strip_back (l : list ascii) k :
  (0 < k <= List.length l)%nat ->
  isspace (nth (k - 1) l zero) = false ->
  (forall j, (k <= j < List.length l)%nat -> isspace (nth j l zero) = true) ->
  rev (drop_space (rev l)) = firstn k l.
Proof.
  intros Hk Hlast Hafter.
  rewrite <- (firstn_skipn k l) at 1. rewrite rev_app_distr.
  rewrite drop_space_all.
  - assert (Hf : firstn k l = (firstn (k - 1) l ++ [nth (k - 1) l zero])%list).
    { replace k with (S (k - 1)) at 1 by lia. apply firstn_snoc. lia. }
    rewrite Hf at 1. rewrite rev_app_distr. cbn [rev app drop_space].
    rewrite Hlast. cbn [rev]. rewrite rev_involutive. symmetry. exact Hf.
  - apply forallb_forall. intros x Hx. apply in_rev in Hx. revert x Hx.
    apply forallb_forall. apply forallb_nth. intros j Hj.
    rewrite length_skipn in Hj. rewrite nth_skipn. apply Hafter. lia.
Qed.

Lemma drop_space_head (l : list ascii) :
  match drop_space l with
  | c :: _ => isspace c = false
  | [] => True
  end.
Proof.
  induction l as [|c l IH]; simpl; [exact I|].
  destruct (isspace c) eqn:E; [exact IH | exact E].
Qed.

(** The index of the second loop never wraps around. *)
Lemma trim_defined s :
  s <> EmptyString ->
  let end_ := (String.length s - 1)%nat in
  trim_end s (trim_start s 0 end_ (String.length s)) end_ <> None.
Proof.
  intros Hne. cbv zeta.
  assert (Hn : (0 < String.length s)%nat) by (destruct s; [congruence | simpl; lia]).
  destruct (trim_start_spec s (String.length s) 0%nat ltac:(lia)) as [Hr Hs].
  cbv zeta in Hr, Hs. cbn [skipn] in Hs.
  set (start := trim_start s 0 (String.length s - 1) (String.length s)) in *.
  destruct (Nat.eq_dec start (String.length s)) as [Hall|Hsome].
  - destruct (String.length s - 1)%nat eqn:E; cbn [trim_end];
      replace (start <=? _)%nat with false by (symmetry; apply Nat.leb_gt; lia);
      discriminate.
  - assert (Hhead : isspace (nth start (chars s) zero) = false).
    { pose proof (drop_space_head (chars s)) as Hd. rewrite <- Hs in Hd.
      rewrite (skipn_nth (chars s) start) in Hd by (rewrite chars_length; lia).
      exact Hd. }
    destruct (trim_end_spec s start (String.length s - 1)) as (b & Hb & _);
      [lia | exact Hhead | intros; lia |].
    rewrite Hb. discriminate.
Qed.

(** [trim] yields the string without its leading and trailing white
    space. *)
Theorem trim_spec s :
  Z.of_nat (String.length s) <= SIZE_MAX ->
  chars (trim s) = strip (chars s).
Proof.
  intros Hsize. unfold trim, strip.
  destruct s as [|c0 s0]; [reflexivity|].
  cbn [empty]. set (s := String c0 s0) in *.
  assert (Hn : (0 < String.length s)%nat) by (simpl; lia).
  cbv zeta.
  destruct (trim_start_spec s (String.length s) 0%nat ltac:(lia)) as [Hr Hs].
  cbv zeta in Hr, Hs. cbn [skipn] in Hs.
  set (start := trim_start s 0 (String.length s - 1) (String.length s)) in *.
  rewrite <- Hs.
  destruct (Nat.eq_dec start (String.length s)) as [Hall|Hsome].
  - (* nothing but white space *)
    rewrite skipn_all2 by (rewrite chars_length; lia). cbn [rev drop_space].
    assert (He : trim_end s start (String.length s - 1) = Some (String.length s - 1)%nat).
    { destruct (String.length s - 1)%nat eqn:E; cbn [trim_end];
        replace (start <=? _)%nat with false by (symmetry; apply Nat.leb_gt; lia);
        reflexivity. }
    rewrite He, chars_substring.
    rewrite skipn_all2 by (rewrite chars_length; lia). apply firstn_nil.
  - assert (Hhead : isspace (nth start (chars s) zero) = false).
    { pose proof (drop_space_head (chars s)) as Hd. rewrite <- Hs in Hd.
      rewrite (skipn_nth (chars s) start) in Hd by (rewrite chars_length; lia).
      exact Hd. }
    destruct (trim_end_spec s start (String.length s - 1)) as (b & Hb & Hr' & Hn' & Ha);
      [lia | exact Hhead | intros; lia |].
    rewrite Hb, chars_substring.
    assert (Hlen : size_t_wrap (Z.of_nat b - Z.of_nat start + 1) = (b - start + 1)%nat).
    { unfold size_t_wrap. rewrite Z.mod_small; [lia|]. unfold SIZE_MAX in *. lia. }
    rewrite Hlen. symmetry. apply strip_back.
    + rewrite length_skipn, chars_length. lia.
    + rewrite nth_skipn. replace (start + (b - start + 1 - 1))%nat with b by lia.
      exact Hn'.
    + intros j Hj. rewrite length_skipn, chars_length in Hj.
      rewrite nth_skipn. apply Ha. lia.
Qed.

(** [trim] on blanks, tabs and a carriage return around and inside a
    line. *)
Example trim_values :
  trim "  Ann  Lee " = "Ann  Lee"
  /\ trim (TAB ++ "4" ++ String "013"%char EmptyString) = "4"
  /\ trim "   " = EmptyString
  /\ trim EmptyString = EmptyString.
Proof. repeat split; vm_compute; reflexivity. Qed.

End Trim.

(** ** What the character loops compute *)

Section Scans.

Import A_E Grammar.

Lemma scanInt_forallb s valid : scanInt s valid = valid && forallb isdigit (chars s).
Proof.
  induction s as [|c s IH]; simpl.
  - now rewrite andb_true_r.
  - destruct (isdigit c); simpl; [exact IH | now rewrite andb_false_r].
Qed.

Lemma scanInt_shape s : scanInt s (negb (empty s)) = count_shape s.
Proof. apply scanInt_forallb. Qed.

Lemma scanID_forallb s valid : scanID s valid = valid && forallb isalnum (chars s).
Proof.
  induction s as [|c s IH]; simpl.
  - now rewrite andb_true_r.
  - destruct (isalnum c); simpl; [exact IH | now rewrite andb_false_r].
Qed.

Lemma scanID_shape s : scanID s (negb (empty s)) = id_shape s.
Proof. apply scanID_forallb. Qed.

Lemma point_not_digit c : is_point c = true -> isdigit c = false.
Proof. unfold is_point. intros H. apply Ascii.eqb_eq in H. now subst. Qed.

(** From any point of the loop on, with [valid] still set. *)
Lemma scanDouble_from s : forall decimalPoints hasDigit,
  decimalPoints <= 1 ->
  let '(valid, hasDigit') := scanDouble s true decimalPoints hasDigit in
  valid && hasDigit' =
  forallb (fun c => isdigit c || is_point c) (chars s)
  && (decimalPoints + Z.of_nat (points s) <=? 1)
  && (hasDigit || existsb isdigit (chars s)).
Proof.
  induction s as [|c s IH]; intros dp hd Hdp.
  - simpl. unfold points; simpl. rewrite Z.add_0_r, orb_false_r.
    now replace (dp <=? 1) with true by (symmetry; apply Z.leb_le; lia).
  - cbn [scanDouble]. fold (is_point c).
    change (chars (String c s)) with (c :: chars s).
    assert (Hpts : points (String c s)
                   = ((if is_point c then 1 else 0) + points s)%nat).
    { unfold points. change (chars (String c s)) with (c :: chars s).
      simpl. now destruct (is_point c). }
    rewrite Hpts. cbn [forallb existsb].
    destruct (is_point c) eqn:Ep.
    + rewrite (point_not_digit c Ep). cbn [orb andb].
      destruct (dp + 1 >? 1) eqn:E.
      * cbn [negb andb].
        replace (dp + Z.of_nat (1 + points s) <=? 1) with false
          by (symmetry; apply Z.leb_gt; lia).
        now rewrite andb_false_r.
      * cbn [negb]. specialize (IH (dp + 1) hd ltac:(lia)).
        destruct (scanDouble s true (dp + 1) hd) as [v h]. rewrite IH.
        replace (dp + 1 + Z.of_nat (points s)) with (dp + Z.of_nat (1 + points s)) by lia.
        reflexivity.
    + destruct (isdigit c) eqn:Ed; cbn [orb andb negb].
      * specialize (IH dp true Hdp).
        destruct (scanDouble s true dp true) as [v h]. rewrite IH.
        now rewrite orb_true_r.
      * reflexivity.
Qed.

Lemma scanDouble_shape s :
  let '(valid, hasDigit) := scanDouble s (negb (empty s)) 0 false in
  valid && hasDigit = amount_shape s.
Proof.
  destruct s as [|c s]; [reflexivity|].
  pose proof (scanDouble_from (String c s) 0 false ltac:(lia)) as H.
  change (negb (empty (String c s))) with true.
  destruct (scanDouble (String c s) true 0 false) as [v h]. rewrite H.
  unfold amount_shape. change (negb (empty (String c s))) with true.
  cbn [andb orb]. f_equal. f_equal.
  rewrite Z.add_0_l.
  destruct (points (String c s) <=? 1)%nat eqn:E.
  - apply Z.leb_le. apply Nat.leb_le in E. lia.
  - apply Z.leb_gt. apply Nat.leb_gt in E. lia.
Qed.

(** From any point of the loop on, with [valid] still set. *)
Lemma scanName_from s : forall prevSpace,
  scanName s true prevSpace =
  forallb (fun c => isalpha c || isspace c) (chars s)
  && no_adjacent isspace (chars s)
  && negb (prevSpace && match chars s with c :: _ => isspace c | [] => false end).
Proof.
  induction s as [|c s IH]; intros prev.
  - simpl. now rewrite andb_false_r.
  - cbn [scanName]. change (chars (String c s)) with (c :: chars s).
    cbn [forallb].
    assert (Hadj : no_adjacent isspace (c :: chars s)
                   = no_adjacent isspace (chars s)
                     && negb (isspace c
                              && match chars s with c' :: _ => isspace c' | [] => false end)).
    { cbn [no_adjacent]. destruct (chars s) as [|c' l].
      - now rewrite andb_false_r.
      - now rewrite andb_comm. }
    rewrite Hadj.
    destruct (isspace c) eqn:Es.
    + destruct prev; cbn [negb andb orb].
      * now rewrite !andb_false_r.
      * rewrite IH, orb_true_r. cbn [andb].
        rewrite andb_true_r. symmetry. apply andb_assoc.
    + destruct (isalpha c) eqn:Ea; cbn [negb andb orb].
      * rewrite IH. cbn [andb negb]. now rewrite andb_false_r, !andb_true_r.
      * reflexivity.
Qed.

Lemma scanName_shape s : scanName s (negb (empty s)) false = name_shape s.
Proof.
  destruct s as [|c s]; [reflexivity|].
  change (negb (empty (String c s))) with true.
  rewrite scanName_from. unfold name_shape.
  change (negb (empty (String c s))) with true. cbn [andb negb].
  now rewrite andb_true_r.
Qed.

End Scans.

(** ** Signs of doubles *)

Section Doubles.

Lemma unsigned_nonneg x : unsigned x -> nonneg x = true.
Proof. intros [[->|(m & e & ->)]| ->]; reflexivity. Qed.

Lemma shr_1_nonneg mrs : 0 <= shr_m mrs -> 0 <= shr_m (shr_1 mrs).
Proof.
  destruct mrs as [m r s]. simpl.
  destruct m as [|[p|p|]|[p|p|]]; simpl; lia.
Qed.

Lemma iter_pos_shr_1_nonneg p : forall mrs,
  0 <= shr_m mrs -> 0 <= shr_m (iter_pos shr_1 p mrs).
Proof.
  induction p as [p IH|p IH|]; intros mrs H; simpl.
  - apply IH, IH, shr_1_nonneg, H.
  - apply IH, IH, H.
  - apply shr_1_nonneg, H.
Qed.

Lemma shr_record_of_loc_m m l : shr_m (shr_record_of_loc m l) = m.
Proof. destruct l as [|[]]; reflexivity. Qed.

Lemma shr_fexp_nonneg m e l :
  0 <= m -> 0 <= shr_m (fst (shr_fexp prec emax m e l)).
Proof.
  intros H. unfold shr_fexp, shr.
  destruct (fexp prec emax (Zdigits2 m + e) - e) as [|p|p]; simpl;
    try (rewrite shr_record_of_loc_m; exact H).
  apply iter_pos_shr_1_nonneg. now rewrite shr_record_of_loc_m.
Qed.

Lemma round_nearest_even_nonneg m l : 0 <= m -> 0 <= round_nearest_even m l.
Proof.
  intros H. destruct l as [|[]]; simpl; try lia.
  destruct (Z.even m); lia.
Qed.

(** Rounding a non-negative mantissa with a clear sign bit gives no
    NaN and no set sign bit. *)
Lemma binary_round_aux_unsigned m e l :
  0 <= m -> unsigned (binary_round_aux prec emax false m e l).
Proof.
  intros H. unfold binary_round_aux.
  pose proof (shr_fexp_nonneg m e l H) as H1.
  destruct (shr_fexp prec emax m e l) as [mrs' e']. simpl in H1.
  pose proof (shr_fexp_nonneg _ e' loc_Exact
                (round_nearest_even_nonneg _ (loc_of_shr_record mrs') H1)) as H2.
  destruct (shr_fexp prec emax _ e' loc_Exact) as [mrs'' e'']. simpl in H2.
  destruct (shr_m mrs'') as [|p|p]; [| |lia].
  - left; now left.
  - destruct (e'' <=? emax - prec); [left; right; eauto | now right].
Qed.

Lemma round_ratio_unsigned m d : unsigned (fst (round_ratio m d)).
Proof.
  unfold round_ratio, SFdiv_core_binary.
  set (m' := match _ - _ with Z0 => _ | Zpos _ => _ | Zneg _ => _ end).
  assert (Hm' : 0 <= m').
  { subst m'. destruct (_ - _ - _); try lia. apply Z.shiftl_nonneg. lia. }
  pose proof (Z.div_pos m' (Zpos d) Hm' ltac:(lia)) as Hq.
  unfold Z.div in Hq.
  destruct (Z.div_eucl m' (Zpos d)) as [q r]. simpl in *.
  now apply binary_round_aux_unsigned.
Qed.

Lemma fexp_eq x : fexp prec emax x = Z.max (x - 53) (-1074).
Proof. reflexivity. Qed.

Lemma digits2_pos_iter_xO p k :
  digits2_pos (Pos.iter xO p k) = (digits2_pos p + k)%positive.
Proof.
  induction k as [|k IH] using Pos.peano_ind.
  - simpl. now rewrite Pos.add_1_r.
  - rewrite Pos.iter_succ. simpl. rewrite IH. now rewrite Pos.add_succ_r.
Qed.

Lemma digits2_pos_size p : digits2_pos p = Pos.size p.
Proof. induction p; simpl; congruence. Qed.

Lemma digits2_pos_int p : Zpos p <= INT_MAX -> Zpos (digits2_pos p) <= 31.
Proof.
  intros H. rewrite digits2_pos_size.
  pose proof (Pos.size_le p) as Hle.
  assert (Hlt : 2 ^ Zpos (Pos.size p) < 2 ^ 32).
  { rewrite <- Pos2Z.inj_pow. unfold INT_MAX in H. lia. }
  apply Z.pow_lt_mono_r_iff in Hlt; lia.
Qed.

(** A mantissa of exactly 53 bits with an exponent in range is left as
    it is by rounding. *)
Lemma binary_round_aux_canonical m e :
  Zpos (digits2_pos m) = 53 -> -1074 <= e <= 971 ->
  binary_round_aux prec emax false (Zpos m) e loc_Exact = S754_finite false m e.
Proof.
  intros Hd He. unfold binary_round_aux, shr_fexp.
  rewrite fexp_eq. cbn [Zdigits2]. rewrite Hd.
  replace (Z.max (53 + e - 53) (-1074) - e) with 0 by lia.
  cbn [shr shr_record_of_loc shr_m loc_of_shr_record round_nearest_even].
  rewrite fexp_eq. cbn [Zdigits2]. rewrite Hd.
  replace (Z.max (53 + e - 53) (-1074) - e) with 0 by lia.
  cbn [shr shr_record_of_loc shr_m].
  replace (e <=? emax - prec) with true; [reflexivity|].
  symmetry. apply Z.leb_le. unfold emax, prec. lia.
Qed.

(** An [int] that is not negative converts to a finite double that is
    not negative. *)
Lemma double_of_int_unsigned n :
  0 <= n <= INT_MAX -> unsigned_finite (double_of_int n).
Proof.
  intros [H0 H1]. destruct n as [|p|p]; [now left| |lia].
  right. pose proof (digits2_pos_int p H1) as Hd.
  unfold double_of_int, binary_normalize, binary_round, shl_align.
  rewrite fexp_eq.
  set (d := digits2_pos p) in *.
  replace (Z.max (Zpos d + 0 - 53) (-1074) - 0) with (Zpos d - 53) by lia.
  destruct (Zpos d - 53) as [|k|k] eqn:Ek; try lia.
  replace (Z.max (Zpos d + 0 - 53) (-1074)) with (Zpos d - 53) by lia.
  rewrite binary_round_aux_canonical; [eauto| |lia].
  rewrite digits2_pos_iter_xO. fold d. lia.
Qed.

(** The product of two doubles that are finite and not negative is
    not negative (it may be [+inf]). *)
Lemma dmul_unsigned x y :
  unsigned_finite x -> unsigned_finite y -> unsigned (dmul x y).
Proof.
  intros [->|(mx & ex & ->)] [->|(my & ey & ->)]; simpl;
    try (left; left; reflexivity).
  apply binary_round_aux_unsigned. lia.
Qed.

End Doubles.

(** ** What [stoi] and [stod] do with validated strings *)

Section Conversions.

Import Grammar.

Lemma digit_not_space c : isdigit c = true -> isspace c = false.
Proof.
  unfold isdigit, isspace. intros H.
  apply andb_true_iff in H as [H1 H2].
  apply Z.leb_le in H1. apply Z.leb_le in H2.
  apply orb_false_iff. split.
  - apply Z.eqb_neq. lia.
  - apply andb_false_iff. right. apply Z.leb_gt. lia.
Qed.

Lemma point_not_space c : is_point c = true -> isspace c = false.
Proof. unfold is_point. intros H. apply Ascii.eqb_eq in H. now subst. Qed.

Lemma digit_no_sign c s : isdigit c = true -> take_sign (String c s) = (false, String c s).
Proof.
  intros H.
  destruct c as [[] [] [] [] [] [] [] []]; try discriminate H; reflexivity.
Qed.

Lemma point_no_sign c s : is_point c = true -> take_sign (String c s) = (false, String c s).
Proof. unfold is_point. intros H. apply Ascii.eqb_eq in H. now subst. Qed.

Lemma span_digits_all s :
  forallb isdigit (chars s) = true -> span_digits s = (s, EmptyString).
Proof.
  induction s as [|c s IH]; simpl; [reflexivity|].
  intros H. apply andb_true_iff in H as [Hc Hs].
  now rewrite Hc, IH.
Qed.

Lemma digit_value_range c : isdigit c = true -> 0 <= digit_value c <= 9.
Proof.
  unfold isdigit, digit_value. intros H.
  apply andb_true_iff in H as [H1 H2].
  apply Z.leb_le in H1. apply Z.leb_le in H2. lia.
Qed.

Lemma decimal_value_nonneg s : forall acc,
  forallb isdigit (chars s) = true -> 0 <= acc -> 0 <= decimal_value s acc.
Proof.
  induction s as [|c s IH]; intros acc H Hacc; [exact Hacc|].
  change (chars (String c s)) with (c :: chars s) in H. cbn [forallb] in H.
  apply andb_true_iff in H as [Hc Hs]. cbn [decimal_value].
  apply IH; [exact Hs|]. pose proof (digit_value_range c Hc). lia.
Qed.

(** On a non-empty string of digits [stoi] yields its decimal value,
    or [out_of_range] when that exceeds [INT_MAX]; it never reports
    [invalid_argument]. *)
Lemma stoi_count s :
  count_shape s = true ->
  stoi s = if decimal_value s 0 <=? INT_MAX then Value (decimal_value s 0)
           else Throw out_of_range.
Proof.
  unfold count_shape. intros H. apply andb_true_iff in H as [Hne Hall].
  destruct s as [|c s]; [discriminate|].
  pose proof (decimal_value_nonneg _ 0 Hall ltac:(lia)) as Hpos.
  pose proof Hall as Hall'. cbn in Hall'. apply andb_true_iff in Hall' as [Hc _].
  unfold stoi. cbn [skip_space]. rewrite (digit_not_space c Hc).
  rewrite (digit_no_sign c s Hc), (span_digits_all _ Hall).
  cbn [empty].
  replace (INT_MIN <=? decimal_value (String c s) 0) with true
    by (symmetry; apply Z.leb_le; unfold INT_MIN; lia).
  reflexivity.
Qed.

Lemma stoi_count_range s n :
  count_shape s = true -> stoi s = Value n -> 0 <= n <= INT_MAX.
Proof.
  intros H E. rewrite (stoi_count s H) in E.
  destruct (decimal_value s 0 <=? INT_MAX) eqn:Ele; inversion E; subst.
  apply Z.leb_le in Ele. split; [|exact Ele].
  unfold count_shape in H. apply andb_true_iff in H as [_ Hall].
  apply decimal_value_nonneg; [exact Hall | lia].
Qed.

Lemma points_cons c s :
  points (String c s) = ((if is_point c then 1 else 0) + points s)%nat.
Proof.
  unfold points. change (chars (String c s)) with (c :: chars s).
  simpl. now destruct (is_point c).
Qed.

Lemma no_point_digits s :
  forallb (fun c => isdigit c || is_point c) (chars s) = true ->
  points s = 0%nat -> forallb isdigit (chars s) = true.
Proof.
  induction s as [|c s IH]; [reflexivity|].
  change (chars (String c s)) with (c :: chars s). cbn [forallb].
  rewrite points_cons. intros H Hp.
  apply andb_true_iff in H as [Hc Hs].
  destruct (is_point c); [discriminate|].
  rewrite orb_false_r in Hc. rewrite Hc. now apply IH.
Qed.

(** A string the amount check lets through has a mantissa. *)
Lemma mantissa_amount s :
  amount_shape s = true -> exists m k, mantissa s = Some (m, k).
Proof.
  unfold amount_shape. intros H.
  apply andb_true_iff in H as [H Hex]. apply andb_true_iff in H as [H Hpts].
  apply andb_true_iff in H as [Hne Hall]. apply Nat.leb_le in Hpts.
  destruct s as [|c s]; [discriminate|].
  unfold mantissa.
  destruct (span_digits (String c s)) as [ipart rest] eqn:E.
  destruct (empty ipart) eqn:Ei; [|cbn [andb]; eauto].
  cbn [span_digits] in E.
  destruct (isdigit c) eqn:Ec.
  { destruct (span_digits s). inversion E; subst. discriminate. }
  inversion E; subst. clear E.
  change (chars (String c s)) with (c :: chars s) in Hall, Hex.
  cbn [forallb existsb] in Hall, Hex. rewrite Ec in Hall, Hex.
  cbn [orb] in Hall, Hex.
  apply andb_true_iff in Hall as [Hc Hall].
  rewrite points_cons, Hc in Hpts.
  pose proof Hc as Hc'. unfold is_point in Hc'. apply Ascii.eqb_eq in Hc'. subst c.
  assert (Hd : forallb isdigit (chars s) = true) by (apply no_point_digits; [exact Hall | lia]).
  rewrite (span_digits_all s Hd). cbn [fst andb].
  destruct s as [|c s]; [discriminate|]. cbn [empty]. eauto.
Qed.

(** On a string the amount check lets through, [stod] yields a finite
    double that is not negative, or reports [out_of_range]; it never
    reports [invalid_argument]. *)
Lemma stod_amount s :
  amount_shape s = true ->
  match stod s with
  | Value x => unsigned_finite x
  | Throw e => e = out_of_range
  end.
Proof.
  intros H. destruct (mantissa_amount s H) as (m & k & Hm).
  unfold amount_shape in H.
  apply andb_true_iff in H as [H _]. apply andb_true_iff in H as [H _].
  apply andb_true_iff in H as [Hne Hall].
  destruct s as [|c s]; [discriminate|].
  change (chars (String c s)) with (c :: chars s) in Hall. cbn [forallb] in Hall.
  apply andb_true_iff in Hall as [Hc _].
  assert (Hs : take_sign (skip_space (String c s)) = (false, String c s)).
  { cbn [skip_space]. apply orb_true_iff in Hc as [Hc|Hc].
    - now rewrite (digit_not_space c Hc), (digit_no_sign c s Hc).
    - now rewrite (point_not_space c Hc), (point_no_sign c s Hc). }
  unfold stod. rewrite Hs, Hm.
  destruct m as [|p|p]; try (now left).
  pose proof (round_ratio_unsigned p (Z.to_pos (10 ^ Z.of_nat k))) as Hu.
  destruct (round_ratio p _) as [x inexact]. cbn [fst] in Hu.
  destruct Hu as [[->|(mx & ex & ->)]| ->]; try reflexivity.
  destruct (tiny _ _ && inexact); [reflexivity|].
  right; eauto.
Qed.

(** The model of [stod] on some known values: 0.1 and 3.14 rounded to
    nearest, 2^53 + 1 rounded to even, the largest power of ten a double
    holds, the first that overflows, and a value that underflows. *)
Example stod_values :
  stod "0.1" = Value (S754_finite false 7205759403792794 (-56))
  /\ stod "3.14" = Value (S754_finite false 7070651414971679 (-51))
  /\ stod "9007199254740993" = Value (S754_finite false 4503599627370496 1)
  /\ stod ("1" ++ zeros 308) = Value (S754_finite false 5010420900022432 971)
  /\ stod ("1" ++ zeros 309) = Throw out_of_range
  /\ stod ("0." ++ zeros 323 ++ "1") = Throw out_of_range
  /\ stod "." = Throw invalid_argument.
Proof. repeat split; vm_compute; reflexivity. Qed.

(** Underflow around the least normal double, 2^-1022 =
    2.22507385850720138...e-308.  A value below 2^-1022 - 2^-1076 =
    2.22507385850720125959...e-308 is out of range, also where the
    nearest double is 2^-1022; from there on the result is 2^-1022. *)
Example stod_underflow :
  stod ("0." ++ zeros 307 ++ "22250738585072012") = Throw out_of_range
  /\ stod ("0." ++ zeros 307 ++ "2225073858507201259") = Throw out_of_range
  /\ stod ("0." ++ zeros 307 ++ "2225073858507201260")
     = Value (S754_finite false 4503599627370496 (-1074))
  /\ stod ("0." ++ zeros 307 ++ "22250738585072013")
     = Value (S754_finite false 4503599627370496 (-1074))
  /\ stod ("0." ++ zeros 307 ++ "22250738585072011") = Throw out_of_range
  /\ stod ("0." ++ zeros 323 ++ "5") = Throw out_of_range.
Proof. repeat split; vm_compute; reflexivity. Qed.

End Conversions.

(** ** The members both programs share *)

Section RegistryScan.

Lemma scanIds_In {ID} `{EqualityComparable ID} (emps : list (Employee ID)) (id : ID) :
  scanIds emps id = false <-> In id (map getId emps).
Proof.
  induction emps as [|emp emps IH]; simpl.
  - split; [discriminate | tauto].
  - destruct (equal (getId emp) id) eqn:E.
    + apply equal_spec in E. tauto.
    + rewrite IH. split; [tauto|]. intros [Heq|Hin]; [|exact Hin].
      apply equal_spec in Heq. congruence.
Qed.

Lemma frame_isIdUnique {ID} `{EqualityComparable ID} (id : ID) : frame (isIdUnique id).
Proof. frame_tac. Qed.

End RegistryScan.

Section RegistryFacts.

Context {ID : Type} {ID_out : Insertable ID} {ID_eq : EqualityComparable ID}.
Implicit Types (w : World ID) (e : Employee ID) (id : ID).

Lemma scanIds_true emps id :
  scanIds emps id = true <-> forall e, In e emps -> getId e <> id.
Proof.
  split.
  - intros H e He Heq. assert (Hin : In id (map getId emps)).
    { rewrite <- Heq. now apply in_map. }
    apply scanIds_In in Hin. congruence.
  - intros H. destruct (scanIds emps id) eqn:E; [reflexivity|].
    apply scanIds_In in E. apply in_map_iff in E as (e & Heq & He).
    now apply H in He.
Qed.

Lemma scanIds_app emps emps' id :
  scanIds (emps ++ emps') id = scanIds emps id && scanIds emps' id.
Proof.
  induction emps as [|e emps IH]; simpl; [reflexivity|].
  now destruct (equal (getId e) id).
Qed.

Lemma equal_refl id : equal id id = true.
Proof. now apply equal_spec. Qed.

Lemma equal_neq id id' : id <> id' -> equal id id' = false.
Proof.
  intros H. destruct (equal id id') eqn:E; [|reflexivity].
  now apply equal_spec in E.
Qed.

Lemma nothrow_isIdUnique `{EqualityComparable ID} (id : ID) : nothrow (isIdUnique id).
Proof.
  unfold isIdUnique. apply nothrow_bind; [apply nothrow_get_employees|].
  intros emps. apply nothrow_ret.
Qed.

Lemma frame_displayPayrollReport `{Insertable ID} : frame (displayPayrollReport (ID:=ID)).
Proof.
  unfold displayPayrollReport.
  apply frame_bind; [apply frame_get_employees|]. intros [|e emps].
  - apply frame_print.
  - apply frame_bind; [apply frame_print|]. intros _.
    apply frame_for_each. intros x. apply frame_print.
Qed.

Lemma nothrow_displayPayrollReport `{Insertable ID} :
  nothrow (displayPayrollReport (ID:=ID)).
Proof.
  unfold displayPayrollReport.
  apply nothrow_bind; [apply nothrow_get_employees|]. intros [|e emps].
  - apply nothrow_print.
  - apply nothrow_bind; [apply nothrow_print|]. intros _.
    apply nothrow_for_each. intros x. apply nothrow_print.
Qed.

Lemma for_each_print {T} (xs : list T) (f : T -> list item) w :
  for_each xs (fun x => print (f x)) w = (List.concat (map f xs), Returned tt w).
Proof.
  induction xs as [|x xs IH]; [reflexivity|].
  cbn [for_each map List.concat]. unfold bind at 1. unfold print at 1. now rewrite IH.
Qed.

(** The report on a registry that is not empty. *)
Lemma report_cons e emps lines :
  displayPayrollReport {| employees := e :: emps; cin := lines |}
  = ((Str (LF ++ "Employee Payroll Report ---" ++ LF)
        :: List.concat (map display (e :: emps)))%list,
     Returned tt {| employees := e :: emps; cin := lines |}).
Proof.
  unfold displayPayrollReport, bind, get_employees.
  cbn [employees]. unfold print at 1. now rewrite for_each_print.
Qed.

(** The report on an empty registry. *)
Lemma report_nil lines :
  displayPayrollReport {| employees := @nil (Employee ID); cin := lines |}
  = ([Str ("No employees in system!" ++ LF ++ LF)],
     Returned tt {| employees := []; cin := lines |}).
Proof. reflexivity. Qed.

End RegistryFacts.

Ltac nothrow_tac :=
  unfold again, leave; cbv zeta;
  repeat first
    [ apply nothrow_ret | apply nothrow_print | apply nothrow_getline
    | apply nothrow_push_back | apply nothrow_isIdUnique
    | apply nothrow_displayPayrollReport | apply nothrow_bind
    | match goal with
      | |- forall _, _ => intro
      | |- nothrow (match ?x with _ => _ end) => destruct x
      end ].

Section Validators.

Lemma prepend_returned {ID A} p (r : list item * outcome ID A) out a w :
  prepend p r = (out, Returned a w) -> exists o, r = (o, Returned a w).
Proof. destruct r as [o x]. unfold prepend. simpl. intros H. inversion H. eauto. Qed.

(** Every validator reads at least one line and leaves the registry
    alone. *)
Lemma validator_reads {ID A} prompt (K : string -> IO ID (unit + A)) :
  (forall input, frame (K input)) -> reads (loop (ask prompt K) tt).
Proof.
  intros HK. apply reads_loop. intros s. apply ask_reads.
  intros input. apply frame_forward, HK.
Qed.

Lemma validator_keeps {ID A} prompt (K : string -> IO ID (unit + A)) :
  (forall input, frame (K input)) -> keeps (loop (ask prompt K) tt).
Proof.
  intros HK. apply keeps_loop.
  - apply ask_consuming. intros input. apply frame_forward, HK.
  - intros s. unfold ask.
    apply keeps_bind; [apply frame_keeps, frame_print|]. intros _.
    apply keeps_bind; [apply keeps_getline|]. intros input. apply frame_keeps, HK.
Qed.

Lemma nothrow_validator {ID A} prompt (K : string -> IO ID (unit + A)) :
  (forall input, frame (K input)) -> (forall input, nothrow (K input)) ->
  nothrow (loop (ask prompt K) tt).
Proof.
  intros Hf Hn. apply nothrow_loop.
  - apply ask_consuming. intros input. apply frame_forward, Hf.
  - intros s. unfold ask. nothrow_tac. apply Hn.
Qed.

End Validators.

(** ** The validators of A_E.cpp *)

Section A_E_Validators.

Import A_E Grammar.
Implicit Types (emps : list (Employee string)) (rest : list string).

Lemma frame_checkInt input : frame (checkInt input).
Proof. unfold checkInt. frame_tac. Qed.

Lemma frame_checkDouble input : frame (checkDouble input).
Proof. unfold checkDouble. frame_tac. Qed.

Lemma frame_checkName input : frame (checkName input).
Proof. unfold checkName. frame_tac. Qed.

Lemma frame_checkID input : frame (checkID input).
Proof. unfold checkID. frame_tac. Qed.

Lemma getValidInt_ask prompt : getValidInt prompt = loop (ask [Str prompt] checkInt) tt.
Proof. reflexivity. Qed.

Lemma getValidDouble_ask prompt :
  getValidDouble prompt = loop (ask [Str prompt] checkDouble) tt.
Proof. reflexivity. Qed.

Lemma getValidName_ask : getValidName = loop (ask [Str "Enter Name: "] checkName) tt.
Proof. reflexivity. Qed.

Lemma getValidID_ask : getValidID = loop (ask [Str "Enter ID: "] checkID) tt.
Proof. reflexivity. Qed.

Lemma getValidInt_cons prompt emps line rest :
  getValidInt prompt {| employees := emps; cin := line :: rest |} =
  let input := trim line in
  let again_with msg :=
    prepend [Str prompt; Str msg]
            (getValidInt prompt {| employees := emps; cin := rest |}) in
  if scanInt input (negb (empty input)) then
    match stoi input with
    | Value value => ([Str prompt], Returned value {| employees := emps; cin := rest |})
    | Throw invalid_argument =>
        again_with ("Invalid input! Please enter a valid integer." ++ LF)
    | Throw out_of_range =>
        again_with ("Input out of range for an integer." ++ LF)
    end
  else again_with ("Invalid input! Please enter whole numbers only." ++ LF).
Proof.
  rewrite getValidInt_ask, ask_cons by (intro; apply frame_forward, frame_checkInt).
  unfold checkInt. cbv zeta.
  destruct (scanInt _ _); [destruct (stoi _) as [v|[]]|]; run_io;
    try reflexivity; now destruct (loop _ _ _).
Qed.

Lemma getValidDouble_cons prompt emps line rest :
  getValidDouble prompt {| employees := emps; cin := line :: rest |} =
  let input := trim line in
  let again_with msg :=
    prepend [Str prompt; Str msg]
            (getValidDouble prompt {| employees := emps; cin := rest |}) in
  let '(valid, hasDigit) := scanDouble input (negb (empty input)) 0 false in
  if valid && hasDigit then
    match stod input with
    | Value value => ([Str prompt], Returned value {| employees := emps; cin := rest |})
    | Throw invalid_argument =>
        again_with ("Invalid input! Please enter a valid number." ++ LF)
    | Throw out_of_range =>
        again_with ("Input out of range for a double." ++ LF)
    end
  else
    again_with ("Invalid input! Use numbers with optional single decimal point." ++ LF).
Proof.
  rewrite getValidDouble_ask, ask_cons by (intro; apply frame_forward, frame_checkDouble).
  unfold checkDouble. cbv zeta.
  destruct (scanDouble _ _ _ _) as [valid hasDigit].
  destruct (valid && hasDigit); [destruct (stod _) as [v|[]]|]; run_io;
    try reflexivity; now destruct (loop _ _ _).
Qed.

Lemma getValidName_cons emps line rest :
  getValidName {| employees := emps; cin := line :: rest |} =
  let input := trim line in
  if scanName input (negb (empty input)) false then
    ([Str "Enter Name: "], Returned input {| employees := emps; cin := rest |})
  else
    prepend [Str "Enter Name: ";
             Str ("Invalid name! Use letters and single spaces between names." ++ LF)]
            (getValidName {| employees := emps; cin := rest |}).
Proof.
  rewrite getValidName_ask, ask_cons by (intro; apply frame_forward, frame_checkName).
  unfold checkName. cbv zeta.
  destruct (scanName _ _ _); run_io; try reflexivity; now destruct (loop _ _ _).
Qed.

Lemma getValidID_cons emps line rest :
  getValidID {| employees := emps; cin := line :: rest |} =
  let input := trim line in
  let again_with msg :=
    prepend [Str "Enter ID: "; Str msg]
            (getValidID {| employees := emps; cin := rest |}) in
  if scanID input (negb (empty input)) then
    if scanIds emps input then
      ([Str "Enter ID: "], Returned input {| employees := emps; cin := rest |})
    else again_with ("Duplicate ID! Try again." ++ LF)
  else again_with ("Invalid ID! Use only letters and numbers." ++ LF).
Proof.
  rewrite getValidID_ask, ask_cons by (intro; apply frame_forward, frame_checkID).
  unfold checkID. cbv zeta.
  destruct (scanID _ _); [destruct (scanIds emps _) eqn:E|]; run_io;
    try rewrite E; simpl; try reflexivity; now destruct (loop _ _ _).
Qed.

Lemma reads_getValidID : reads getValidID.
Proof. apply validator_reads, frame_checkID. Qed.

Lemma reads_getValidName : reads getValidName.
Proof. apply validator_reads, frame_checkName. Qed.

Lemma reads_getValidDouble prompt : reads (getValidDouble prompt).
Proof. apply validator_reads, frame_checkDouble. Qed.

Lemma reads_getValidInt prompt : reads (getValidInt prompt).
Proof. apply validator_reads, frame_checkInt. Qed.

Lemma keeps_getValidID : keeps getValidID.
Proof. apply validator_keeps, frame_checkID. Qed.

Lemma keeps_getValidName : keeps getValidName.
Proof. apply validator_keeps, frame_checkName. Qed.

Lemma keeps_getValidDouble prompt : keeps (getValidDouble prompt).
Proof. apply validator_keeps, frame_checkDouble. Qed.

Lemma keeps_getValidInt prompt : keeps (getValidInt prompt).
Proof. apply validator_keeps, frame_checkInt. Qed.

(** [getValidID] returns an identifier no record of the registry has. *)
Lemma getValidID_returns w out id w' :
  getValidID w = (out, Returned id w') ->
  id_shape id = true /\ ~ In id (map getId (employees w)).
Proof.
  rewrite getValidID_ask.
  apply (ask_returns _ checkID
           (fun emps id => id_shape id = true /\ ~ In id (map getId emps)));
    [apply frame_checkID|].
  clear. intros input w out a w'. unfold checkID. cbv zeta.
  rewrite scanID_shape.
  destruct (id_shape (trim input)) eqn:Es; run_io; [|discriminate].
  destruct (scanIds (employees w) (trim input)) eqn:Eu; simpl; [|discriminate].
  intros H. inversion H; subst. split; [exact Es|].
  intros Hin. apply scanIds_In in Hin. congruence.
Qed.

(** [getValidDouble] returns a finite double that is not negative. *)
Lemma getValidDouble_returns prompt w out value w' :
  getValidDouble prompt w = (out, Returned value w') -> unsigned_finite value.
Proof.
  rewrite getValidDouble_ask.
  apply (ask_returns _ checkDouble (fun _ value => unsigned_finite value));
    [apply frame_checkDouble|].
  clear. intros input w out a w'. unfold checkDouble. cbv zeta.
  pose proof (scanDouble_shape (trim input)) as Hs.
  destruct (scanDouble (trim input) _ 0 false) as [valid hasDigit].
  rewrite Hs. destruct (amount_shape (trim input)) eqn:Es; run_io; [|discriminate].
  pose proof (stod_amount _ Es) as Hd.
  destruct (stod (trim input)) as [v|[]]; simpl; try discriminate.
  intros H. inversion H; subst. exact Hd.
Qed.

(** [getValidInt] returns an [int] that is not negative. *)
Lemma getValidInt_returns prompt w out value w' :
  getValidInt prompt w = (out, Returned value w') -> 0 <= value <= INT_MAX.
Proof.
  rewrite getValidInt_ask.
  apply (ask_returns _ checkInt (fun _ value => 0 <= value <= INT_MAX));
    [apply frame_checkInt|].
  clear. intros input w out a w'. unfold checkInt. cbv zeta.
  rewrite scanInt_shape.
  destruct (count_shape (trim input)) eqn:Es; run_io; [|discriminate].
  destruct (stoi (trim input)) as [v|[]] eqn:Ev; simpl; try discriminate.
  intros H. inversion H; subst. eapply stoi_count_range; eassumption.
Qed.

Lemma nothrow_getValidID : nothrow getValidID.
Proof.
  apply nothrow_validator; [apply frame_checkID|].
  intros input. unfold checkID. nothrow_tac.
Qed.

Lemma nothrow_getValidName : nothrow getValidName.
Proof.
  apply nothrow_validator; [apply frame_checkName|].
  intros input. unfold checkName. nothrow_tac.
Qed.

Lemma nothrow_getValidDouble prompt : nothrow (getValidDouble prompt).
Proof.
  apply nothrow_validator; [apply frame_checkDouble|].
  intros input. unfold checkDouble. nothrow_tac.
Qed.

Lemma nothrow_getValidInt prompt : nothrow (getValidInt prompt).
Proof.
  apply nothrow_validator; [apply frame_checkInt|].
  intros input. unfold checkInt. nothrow_tac.
Qed.

(** In A_E.cpp a count that does not fit an [int] is answered with the
    message for that, and asked for again. *)
Lemma count_out_of_range prompt emps line rest :
  let state cin := {| employees := emps; cin := cin |} in
  count_shape (trim line) = true ->
  INT_MAX < decimal_value (trim line) 0 ->
  getValidInt prompt (state (line :: rest)) =
  prepend [Str prompt; Str ("Input out of range for an integer." ++ LF)]
          (getValidInt prompt (state rest)).
Proof.
  cbv zeta. intros Hs Hv. rewrite getValidInt_cons. cbv zeta.
  rewrite scanInt_shape, Hs, (stoi_count _ Hs).
  now replace (decimal_value (trim line) 0 <=? INT_MAX) with false
    by (symmetry; apply Z.leb_gt; exact Hv).
Qed.

End A_E_Validators.

(** ** [addEmployee] and the command loop of A_E.cpp *)

Section A_E_Main.

Import A_E.

Create HintDb io.
#[local] Hint Resolve reads_getValidID reads_getValidName reads_getValidDouble
  reads_getValidInt reads_forward forward_push_back frame_forward frame_print
  frame_ret : io.

Lemma forward_addEmployee type : forward (addEmployee type).
Proof.
  unfold addEmployee.
  apply forward_bind; [auto with io|]. intros id.
  apply forward_bind; [auto with io|]. intros name.
  apply forward_bind; [|auto with io].
  destruct type as [|[[|[]|]|[]|]|]; auto with io;
    repeat (apply forward_bind; [auto with io|]; intro); auto with io.
Qed.

(** What [addEmployee] has done when it returns: one record more, at
    the end, built by the constructor of the requested variant from what
    the validators returned. *)
Lemma addEmployee_inv type w out w' :
  1 <= type <= 3 ->
  addEmployee type w = (out, Returned tt w') ->
  exists id name w1 o1 w2 o2,
    getValidID w = (o1, Returned id w1)
    /\ getValidName w1 = (o2, Returned name w2)
    /\ exists e,
        employees w' = (employees w ++ [e])%list
        /\ ((type = 1 /\ exists salary o3 w3,
               getValidDouble "Monthly Salary: $" w2 = (o3, Returned salary w3)
               /\ e = FullTimeEmployee id name salary)
            \/ (type = 2 /\ exists rate hours o3 w3 o4 w4,
                  getValidDouble "Hourly Rate: $" w2 = (o3, Returned rate w3)
                  /\ getValidInt "Hours Worked: " w3 = (o4, Returned hours w4)
                  /\ e = PartTimeEmployee id name rate hours)
            \/ (type = 3 /\ exists rate projects o3 w3 o4 w4,
                  getValidDouble "Payment Per Project: $" w2 = (o3, Returned rate w3)
                  /\ getValidInt "Projects Completed: " w3 = (o4, Returned projects w4)
                  /\ e = ContractualEmployee id name rate projects)).
Proof.
  intros Ht H. unfold addEmployee in H.
  apply bind_inv in H as (o1 & id & w1 & o1' & E1 & H & _).
  apply bind_inv in H as (o2 & name & w2 & o2' & E2 & H & _).
  apply bind_inv in H as (o3 & [] & w3 & o3' & H & E3 & _).
  apply frame_print in E3. subst w3.
  exists id, name, w1, o1, w2, o2. split; [exact E1|]. split; [exact E2|].
  pose proof (keeps_getValidID _ _ _ _ E1) as K1.
  pose proof (keeps_getValidName _ _ _ _ E2) as K2.
  assert (Hty : type = 1 \/ type = 2 \/ type = 3) by lia.
  destruct Hty as [->|[->| ->]].
  - apply bind_inv in H as (o4 & salary & w4 & o4' & E4 & H & _).
    inversion H; subst. cbn [employees].
    rewrite (keeps_getValidDouble _ _ _ _ _ E4), K2, K1.
    eexists. split; [reflexivity|]. left. split; [reflexivity|]. eauto.
  - apply bind_inv in H as (o4 & rate & w4 & o4' & E4 & H & _).
    apply bind_inv in H as (o5 & hours & w5 & o5' & E5 & H & _).
    inversion H; subst. cbn [employees].
    rewrite (keeps_getValidInt _ _ _ _ _ E5), (keeps_getValidDouble _ _ _ _ _ E4), K2, K1.
    eexists. split; [reflexivity|]. right; left. split; [reflexivity|].
    do 6 eexists. eauto.
  - apply bind_inv in H as (o4 & rate & w4 & o4' & E4 & H & _).
    apply bind_inv in H as (o5 & projects & w5 & o5' & E5 & H & _).
    inversion H; subst. cbn [employees].
    rewrite (keeps_getValidInt _ _ _ _ _ E5), (keeps_getValidDouble _ _ _ _ _ E4), K2, K1.
    eexists. split; [reflexivity|]. right; right. split; [reflexivity|].
    do 6 eexists. eauto.
Qed.

Lemma nothrow_addEmployee type : nothrow (addEmployee type).
Proof.
  unfold addEmployee.
  apply nothrow_bind; [apply nothrow_getValidID|]. intros id.
  apply nothrow_bind; [apply nothrow_getValidName|]. intros name.
  apply nothrow_bind; [|intros _; apply nothrow_print].
  destruct type as [|[[|[]|]|[]|]|]; try apply nothrow_ret;
    repeat (apply nothrow_bind;
            [first [apply nothrow_getValidDouble | apply nothrow_getValidInt]|];
            intro);
    apply nothrow_push_back.
Qed.

Lemma forward_dispatch choice : forward (dispatch choice).
Proof.
  assert (Hadd : forall type, forward (addEmployee type ;; ret (inl (B:=Z) tt))).
  { intros type. apply forward_bind; [apply forward_addEmployee|]. auto with io. }
  assert (Hsay : forall msg (r : unit + Z), forward (print (ID:=string) msg ;; ret r)).
  { intros msg r. apply forward_bind; auto with io. }
  assert (Hrep : forward (displayPayrollReport (ID:=string) ;; ret (inl (B:=Z) tt))).
  { apply forward_bind; [apply frame_forward, frame_displayPayrollReport|].
    auto with io. }
  unfold dispatch, again, leave. cbv zeta.
  destruct (_ || _); [apply Hsay|].
  destruct (at_ (trim choice) 0) as [[] [] [] [] [] [] [] []];
    first [apply Hadd | apply Hrep | apply Hsay].
Qed.

Lemma nothrow_dispatch choice : nothrow (dispatch choice).
Proof.
  assert (Hadd : forall type, nothrow (addEmployee type ;; ret (inl (B:=Z) tt))).
  { intros type. apply nothrow_bind; [apply nothrow_addEmployee|].
    intros _. apply nothrow_ret. }
  assert (Hsay : forall msg (r : unit + Z), nothrow (print (ID:=string) msg ;; ret r)).
  { intros msg r. nothrow_tac. }
  assert (Hrep : nothrow (displayPayrollReport (ID:=string) ;; ret (inl (B:=Z) tt))).
  { nothrow_tac. }
  unfold dispatch, again, leave. cbv zeta.
  destruct (_ || _); [apply Hsay|].
  destruct (at_ (trim choice) 0) as [[] [] [] [] [] [] [] []];
    first [apply Hadd | apply Hrep | apply Hsay].
Qed.

Lemma main_pass_reads s : reads (main_pass s).
Proof.
  unfold main_pass.
  apply reads_bind_r; [auto with io|]. intros _.
  apply reads_bind_r; [auto with io|]. intros _.
  apply reads_bind_l; [apply reads_getline | apply forward_dispatch].
Qed.

Lemma main_pass_consuming : consuming main_pass.
Proof. intros s w out s' w'. apply main_pass_reads. Qed.

(** [main] always has the fuel it needs: on every input it has a result. *)
Lemma main_total w :
  exists r, loop_fuel (S (List.length (cin w))) main_pass tt w = Some r /\ main w = r.
Proof. apply loop_total, main_pass_consuming. Qed.

(** A pass of [main] on a line: the menu, the prompt, and what
    [dispatch] does with the line. *)
Lemma main_pass_cons emps line rest :
  main_pass tt {| employees := emps; cin := line :: rest |} =
  prepend (menu ++ [Str "Selection: "])%list
          (dispatch line {| employees := emps; cin := rest |}).
Proof.
  unfold main_pass, bind, print, getline, prepend. cbn [cin employees].
  destruct (dispatch line _) as [o [r w1| |e]]; cbn [fst snd app];
    now rewrite <- app_assoc.
Qed.

(** [main] on a line: the pass on that line, and [main] again unless the
    pass was to leave. *)
Lemma main_cons emps line rest :
  main {| employees := emps; cin := line :: rest |} =
  prepend (menu ++ [Str "Selection: "])%list
    ((r <- dispatch line ;; match r with inl _ => main | inr code => ret code end)
       {| employees := emps; cin := rest |}).
Proof.
  unfold main. rewrite (loop_unfold _ main_pass_consuming).
  unfold bind at 1. rewrite main_pass_cons. unfold bind, prepend.
  destruct (dispatch line _) as [o1 [[[]|a] w1| |e]]; cbn [fst snd]; try reflexivity.
  destruct (loop _ _ w1). cbn [fst snd]. now rewrite app_assoc.
Qed.

(** In A_E.cpp no exception reaches the top level, whatever is typed. *)
Lemma nothrow_main : nothrow main.
Proof.
  apply nothrow_loop; [apply main_pass_consuming|].
  intros s. unfold main_pass. nothrow_tac. apply nothrow_dispatch.
Qed.

Lemma NoDup_snoc {T} (l : list T) (x : T) :
  NoDup l -> ~ In x l -> NoDup (l ++ [x]).
Proof.
  induction 1 as [|y l Hy Hl IH]; simpl; intros Hx.
  - constructor; [tauto | constructor].
  - constructor.
    + rewrite in_app_iff. simpl. intros [H|[H|[]]]; [tauto | subst; tauto].
    + apply IH. tauto.
Qed.

(** A pass of the command loop leaves the registry alone or is a return
    of [addEmployee]. *)
Lemma dispatch_registry choice w out r w' :
  dispatch choice w = (out, Returned r w') ->
  employees w' = employees w
  \/ exists type o, 1 <= type <= 3 /\ addEmployee type w = (o, Returned tt w').
Proof.
  assert (Hadd : forall type, 1 <= type <= 3 ->
            (addEmployee type ;; ret (inl (B:=Z) tt)) w = (out, Returned r w') ->
            employees w' = employees w
            \/ exists type o, 1 <= type <= 3 /\ addEmployee type w = (o, Returned tt w')).
  { intros type Ht H. apply bind_inv in H as (o1 & [] & w1 & o2 & E1 & E2 & _).
    inversion E2; subst. right. eauto. }
  assert (Hsay : forall msg (x : unit + Z),
            (print (ID:=string) msg ;; ret x) w = (out, Returned r w') ->
            employees w' = employees w
            \/ exists type o, 1 <= type <= 3 /\ addEmployee type w = (o, Returned tt w')).
  { intros msg x H. inversion H; subst. now left. }
  assert (Hrep : (displayPayrollReport (ID:=string) ;; ret (inl (B:=Z) tt)) w
                 = (out, Returned r w') ->
            employees w' = employees w
            \/ exists type o, 1 <= type <= 3 /\ addEmployee type w = (o, Returned tt w')).
  { intros H. apply bind_inv in H as (o1 & [] & w1 & o2 & E1 & E2 & _).
    apply frame_displayPayrollReport in E1. inversion E2; subst. now left. }
  unfold dispatch, again, leave. cbv zeta.
  destruct (_ || _); [apply Hsay|].
  destruct (at_ (trim choice) 0) as [[] [] [] [] [] [] [] []];
    first [apply Hsay | apply Hrep | apply Hadd; lia].
Qed.

(** What [addEmployee] adds keeps the registry in order. *)
Lemma addEmployee_ok type w out w' :
  1 <= type <= 3 ->
  addEmployee type w = (out, Returned tt w') ->
  registry_ok (employees w) -> registry_ok (employees w').
Proof.
  intros Ht H [Hsal Hids].
  destruct (addEmployee_inv type w out w' Ht H)
    as (id & name & w1 & o1 & w2 & o2 & E1 & E2 & e & He & Hcase).
  apply getValidID_returns in E1 as [_ Hnew].
  assert (Hid : getId e = id).
  { destruct Hcase as [(_ & ? & ? & ? & _ & ->)
                      |[(_ & ? & ? & ? & ? & ? & ? & _ & _ & ->)
                       |(_ & ? & ? & ? & ? & ? & ? & _ & _ & ->)]]; reflexivity. }
  assert (Hpay : nonneg (salary e) = true).
  { apply unsigned_nonneg.
    destruct Hcase as [(_ & pay & o3 & w3 & E3 & ->)
                      |[(_ & rate & hours & o3 & w3 & o4 & w4 & E3 & E4 & ->)
                       |(_ & rate & projects & o3 & w3 & o4 & w4 & E3 & E4 & ->)]];
      cbn [salary FullTimeEmployee PartTimeEmployee ContractualEmployee];
      apply getValidDouble_returns in E3.
    - now left.
    - apply getValidInt_returns in E4.
      apply dmul_unsigned; [exact E3 | now apply double_of_int_unsigned].
    - apply getValidInt_returns in E4.
      apply dmul_unsigned; [exact E3 | now apply double_of_int_unsigned]. }
  rewrite He. split.
  - intros e' Hin. apply in_app_iff in Hin as [Hin|[<-|[]]]; auto.
  - rewrite map_app. cbn [map]. apply NoDup_snoc; [exact Hids|]. now rewrite Hid.
Qed.

(** Every pass of the command loop keeps the registry in order. *)
Lemma reachable_ok w : reachable w -> registry_ok (employees w).
Proof.
  induction 1 as [lines|w out r w' Hreach IH Hpass].
  - split; [intros e [] | constructor].
  - destruct w as [emps [|line rest]].
    + vm_compute in Hpass. discriminate.
    + rewrite main_pass_cons in Hpass.
      apply prepend_returned in Hpass as [o Hd].
      apply dispatch_registry in Hd as [Hsame|(type & o' & Ht & Hadd)].
      * now rewrite Hsame.
      * eapply addEmployee_ok; eassumption.
Qed.

(** Every record of every reachable registry carries the salary the
    formula of its variant gives on its own fields. *)
Lemma reachable_salaries w : reachable w -> Forall salary_formula (employees w).
Proof.
  induction 1 as [lines|w out r w' Hreach IH Hpass].
  - constructor.
  - destruct w as [emps [|line rest]].
    + vm_compute in Hpass. discriminate.
    + rewrite main_pass_cons in Hpass.
      apply prepend_returned in Hpass as [o Hd].
      apply dispatch_registry in Hd as [Hsame|(type & o' & Ht & Hadd)].
      * now rewrite Hsame.
      * destruct (addEmployee_inv _ _ _ _ Ht Hadd)
          as (id & name & w1 & o1 & w2 & o2 & _ & _ & e & He & Hcase).
        rewrite He. apply Forall_app. split; [exact IH|].
        constructor; [|constructor].
        destruct Hcase as [(_ & ? & ? & ? & _ & ->)
                          |[(_ & ? & ? & ? & ? & ? & ? & _ & _ & ->)
                           |(_ & ? & ? & ? & ? & ? & ? & _ & _ & ->)]];
          unfold salary_formula; simpl; auto.
Qed.

(** The state [main] returns in is reachable, so the invariant of the
    registry holds when the program exits. *)
Lemma main_reachable w out code w' :
  reachable w -> main w = (out, Returned code w') -> reachable w'.
Proof.
  intros Hw Hrun. revert Hw.
  apply (loop_rule main_pass (fun w w' => reachable w -> reachable w')
                   main_pass_consuming) with (s := tt) (out := out) (a := code);
    [auto | | exact Hrun].
  intros [] w0 o r w0' Hpass Hw0. eapply reach_pass; eassumption.
Qed.

Lemma run_registry_ok lines out code w' :
  run lines = (out, Returned code w') -> registry_ok (employees w').
Proof.
  intros Hrun. apply reachable_ok.
  eapply main_reachable; [apply reach_start | exact Hrun].
Qed.

End A_E_Main.

(** ** The same flows in DeepSeek.cpp *)

Section DeepSeek_Facts.

Import DeepSeek.

Lemma DeepSeek_frame_checkInt input : frame (checkInt input).
Proof. unfold checkInt. frame_tac. Qed.

Lemma DeepSeek_frame_checkDouble input : frame (checkDouble input).
Proof. unfold checkDouble. frame_tac. Qed.

Lemma DeepSeek_frame_checkName input : frame (checkName input).
Proof. unfold checkName. frame_tac. Qed.

Lemma DeepSeek_reads_getValidInt prompt : reads (getValidInt prompt).
Proof. apply (validator_reads [Str prompt] checkInt), DeepSeek_frame_checkInt. Qed.

Lemma DeepSeek_reads_getValidDouble prompt : reads (getValidDouble prompt).
Proof. apply (validator_reads [Str prompt] checkDouble), DeepSeek_frame_checkDouble. Qed.

Lemma DeepSeek_reads_getValidName prompt : reads (getValidName prompt).
Proof. apply (validator_reads [Str prompt] checkName), DeepSeek_frame_checkName. Qed.

Lemma DeepSeek_uniqueIdPass_forward id : forward (uniqueIdPass id).
Proof.
  unfold uniqueIdPass.
  apply forward_bind; [apply frame_forward, frame_isIdUnique|]. intros unique.
  destruct (negb unique); [|apply frame_forward, frame_ret].
  apply forward_bind; [apply frame_forward, frame_print|]. intros _.
  apply forward_bind; [apply reads_forward, DeepSeek_reads_getValidInt|].
  intros id'. apply frame_forward, frame_ret.
Qed.

Lemma DeepSeek_uniqueIdPass_consuming : consuming uniqueIdPass.
Proof.
  intros id w out id' w' H. unfold uniqueIdPass in H.
  apply bind_inv in H as (o1 & unique & w1 & o2 & E1 & H & _).
  apply frame_isIdUnique in E1. subst w1.
  destruct (negb unique); [|inversion H].
  apply bind_inv in H as (o3 & [] & w2 & o4 & E2 & H & _).
  apply frame_print in E2. subst w2.
  apply bind_inv in H as (o5 & n & w3 & o6 & E3 & H & _).
  apply DeepSeek_reads_getValidInt in E3. inversion H; subst. exact E3.
Qed.

Lemma DeepSeek_forward_addEmployee type : forward (addEmployee type).
Proof.
  unfold addEmployee.
  apply forward_bind; [apply reads_forward, DeepSeek_reads_getValidInt|]. intros id0.
  apply forward_bind.
  { apply forward_loop; [apply DeepSeek_uniqueIdPass_consuming|].
    apply DeepSeek_uniqueIdPass_forward. }
  intros id.
  apply forward_bind; [apply reads_forward, DeepSeek_reads_getValidName|]. intros name.
  apply forward_bind; [|intros _; apply frame_forward, frame_print].
  destruct type as [|[[|[]|]|[]|]|]; try apply frame_forward, frame_ret;
    repeat (apply forward_bind;
            [first [apply reads_forward, DeepSeek_reads_getValidDouble
                   |apply reads_forward, DeepSeek_reads_getValidInt]|];
            intro);
    apply forward_push_back.
Qed.

Lemma DeepSeek_forward_dispatch choice : forward (dispatch choice).
Proof.
  assert (Hadd : forall type, forward (addEmployee type ;; ret (inl (B:=Z) tt))).
  { intros type. apply forward_bind; [apply DeepSeek_forward_addEmployee|].
    intros _. apply frame_forward, frame_ret. }
  assert (Hsay : forall msg (r : unit + Z), forward (print (ID:=Z) msg ;; ret r)).
  { intros msg r. apply forward_bind; [apply frame_forward, frame_print|].
    intros _. apply frame_forward, frame_ret. }
  assert (Hrep : forward (displayPayrollReport (ID:=Z) ;; ret (inl (B:=Z) tt))).
  { apply forward_bind; [apply frame_forward, frame_displayPayrollReport|].
    intros _. apply frame_forward, frame_ret. }
  unfold dispatch, again, leave.
  destruct (_ || _); [apply Hsay|].
  destruct (at_ choice 0) as [[] [] [] [] [] [] [] []];
    first [apply Hadd | apply Hrep | apply Hsay].
Qed.

Lemma DeepSeek_main_pass_reads s : reads (main_pass s).
Proof.
  unfold main_pass.
  apply reads_bind_r; [apply frame_forward, frame_print|]. intros _.
  apply reads_bind_r; [apply frame_forward, frame_print|]. intros _.
  apply reads_bind_l; [apply reads_getline | apply DeepSeek_forward_dispatch].
Qed.

Lemma DeepSeek_main_pass_consuming : consuming main_pass.
Proof. intros s w out s' w'. apply DeepSeek_main_pass_reads. Qed.

(** [main] of DeepSeek.cpp has a result on every input as well. *)
Lemma DeepSeek_main_total w :
  exists r, loop_fuel (S (List.length (cin w))) main_pass tt w = Some r /\ main w = r.
Proof. apply loop_total, DeepSeek_main_pass_consuming. Qed.

(** DeepSeek.cpp refuses a selection the same way, on the line as it
    was typed (it does not trim). *)
Lemma DeepSeek_menu_refusal (emps : list (Employee Z)) line rest msg :
  let state cin := {| employees := emps; cin := cin |} in
  refusal line = Some msg ->
  main_pass tt (state (line :: rest)) =
  ((menu ++ [Str "Selection: "; Str (msg ++ LF)])%list, Returned (inl tt) (state rest)).
Proof.
  cbv zeta. intros Href.
  assert (Hd : dispatch line {| employees := emps; cin := rest |}
               = ([Str (msg ++ LF)], Returned (inl tt) {| employees := emps; cin := rest |})).
  { unfold dispatch, refusal in *.
    destruct (_ || _).
    - inversion Href; subst. reflexivity.
    - destruct (at_ line 0) as [[] [] [] [] [] [] [] []];
        try discriminate Href; inversion Href; subst; reflexivity. }
  unfold main_pass, bind, print, getline. cbn [cin employees].
  rewrite Hd. reflexivity.
Qed.

(** The looser name rule, the untrimmed menu selection, the duplicate
    check on the number an identifier denotes, and a report. *)
Example DeepSeek_flows :
  getValidName "Enter Name: " {| employees := []; cin := ["John  Doe"] |}
  = ([Str "Enter Name: "], Returned "John  Doe" {| employees := []; cin := [] |})
  /\ fst (main_pass tt {| employees := []; cin := ["6"] |})
     = (menu ++ [Str "Selection: "; Str ("Invalid menu option!" ++ LF)])%list
  /\ fst (main_pass tt {| employees := []; cin := [" 4"] |})
     = (menu ++ [Str "Selection: "; Str ("Invalid menu choice!" ++ LF)])%list
  /\ addEmployee 1 {| employees := [FullTimeEmployee 7 "Ann Lee" half];
                      cin := ["007"; "8"; "Bob Ray"; "0.5"] |}
     = ([Str "Enter ID: "; Str ("Duplicate ID! Try again." ++ LF); Str "Enter ID: ";
         Str "Enter Name: "; Str "Monthly Salary: $"; Str ("Employee added!" ++ LF ++ LF)],
        Returned tt {| employees := [FullTimeEmployee 7 "Ann Lee" half;
                                     FullTimeEmployee 8 "Bob Ray" half];
                       cin := [] |}).
Proof. repeat split; vm_compute; reflexivity. Qed.

End DeepSeek_Facts.

(** * The claims *)

(** ** Input validation: C1, C2, C3, C4, C5 *)

Section Validation.

Import A_E Grammar.

(** C1, as stated, fails: the line [.5] has no digit before the
    decimal point, so the grammar [digit+ ('.' digit+)?] does not match it,
    and yet [getValidDouble] returns on it, with the value 0.5. *)
Lemma amount_grammar_counterexample :
  Grammar.amount (trim ".5") = false /\
  getValidDouble "Monthly Salary: $" {| employees := []; cin := [".5"] |}
  = ([Str "Monthly Salary: $"], Returned half {| employees := []; cin := [] |}).
Proof. split; vm_compute; reflexivity. Qed.

(** C1, amended: on every input line [getValidDouble] returns, with
    the double [stod] reads from the trimmed line, iff the trimmed line
    is non-empty, consists only of digits and at most one ['.'],
    contains at least one digit, and its value is within the range of
    [double], that is, [stod] reports neither overflow nor underflow;
    otherwise it prints an error message and prompts again, with the
    registry unchanged.  In particular [1200.50] parses to 1200.5 and
    [100] to 100.0, while [12.5.6], [abc] and the empty line are
    rejected; so are, as out of range, a one followed by 309 zeros and
    2.2250738585072012e-308 written without exponent, which is below the
    least normal double and not a double itself. *)
Theorem amount_validator prompt emps line rest :
  let input := trim line in
  let state cin := {| employees := emps; cin := cin |} in
  let again_with msg :=
    prepend [Str prompt; Str (msg ++ LF)] (getValidDouble prompt (state rest)) in
  getValidDouble prompt (state (line :: rest)) =
    (if amount_shape input then
       match stod input with
       | Value value => ([Str prompt], Returned value (state rest))
       | Throw _ => again_with "Input out of range for a double."
       end
     else again_with "Invalid input! Use numbers with optional single decimal point.")
  /\ (amount_shape (trim "1200.50") = true
      /\ stod (trim "1200.50") = Value (binary_normalize prec emax 2401 (-1) false))
  /\ (amount_shape (trim "100") = true
      /\ stod (trim "100") = Value (double_of_int 100))
  /\ amount_shape (trim "12.5.6") = false
  /\ amount_shape (trim "abc") = false
  /\ amount_shape (trim EmptyString) = false
  /\ (amount_shape (trim ("1" ++ zeros 309)) = true
      /\ stod (trim ("1" ++ zeros 309)) = Throw out_of_range)
  /\ (amount_shape (trim ("0." ++ zeros 307 ++ "22250738585072012")) = true
      /\ stod (trim ("0." ++ zeros 307 ++ "22250738585072012")) = Throw out_of_range).
Proof.
  cbv zeta. split; [|vm_compute; repeat split; reflexivity].
  rewrite getValidDouble_cons. cbv zeta.
  pose proof (scanDouble_shape (trim line)) as Hs.
  destruct (scanDouble (trim line) _ 0 false) as [valid hasDigit].
  rewrite Hs. destruct (amount_shape (trim line)) eqn:E; [|reflexivity].
  pose proof (stod_amount _ E) as Hd.
  destruct (stod (trim line)) as [v|e]; [reflexivity|]. now subst e.
Qed.

(** C2, as stated, fails: the line [A<TAB>B] holds a character that is
    neither a letter nor a space, so the rule as worded rejects it, and
    yet [getValidName] returns on it (the tab counts as white space for
    [isspace]). *)
Lemma name_rule_counterexample :
  Grammar.name (trim ("A" ++ TAB ++ "B")) = false /\
  getValidName {| employees := []; cin := ["A" ++ TAB ++ "B"] |}
  = ([Str "Enter Name: "],
     Returned ("A" ++ TAB ++ "B") {| employees := []; cin := [] |}).
Proof. split; vm_compute; reflexivity. Qed.

(** C2, amended: [getValidName] accepts an input line iff the trimmed
    line is non-empty, every character of it is a letter or a white-space
    character (as [isspace] classifies), and no two consecutive characters
    are white space; it then returns the trimmed line.  Otherwise it
    prints its error message and prompts again.  Thus [John Doe] is
    accepted while [John  Doe], [John3] and the empty line are
    rejected. *)
Theorem name_validator emps line rest :
  let input := trim line in
  let state cin := {| employees := emps; cin := cin |} in
  getValidName (state (line :: rest)) =
    (if name_shape input then ([Str "Enter Name: "], Returned input (state rest))
     else
       prepend [Str "Enter Name: ";
                Str ("Invalid name! Use letters and single spaces between names." ++ LF)]
               (getValidName (state rest)))
  /\ name_shape (trim "John Doe") = true
  /\ name_shape (trim "John  Doe") = false
  /\ name_shape (trim "John3") = false
  /\ name_shape (trim EmptyString) = false.
Proof.
  cbv zeta. split; [|vm_compute; repeat split; reflexivity].
  rewrite getValidName_cons. cbv zeta. now rewrite scanName_shape.
Qed.

End Validation.

Section Exceptions.

Import DeepSeek.

(** C3 on DeepSeek.cpp (and Test_code.cpp): a count or an amount beyond
    the range of its type is not rejected with a message; [stoi] and [stod]
    throw [out_of_range], nothing catches it, and the exception leaves
    [main].  So does the [invalid_argument] [stod] throws on a lone point,
    which the amount check of this file lets through. *)
Theorem unguarded_conversions :
  snd (run ["2"; "7"; "Ann Lee"; "0.5"; "99999999999"]) = Thrown out_of_range
  /\ snd (run ["1"; "99999999999"]) = Thrown out_of_range
  /\ snd (run ["1"; "7"; "Ann Lee"; "1" ++ zeros 309]) = Thrown out_of_range
  /\ snd (run ["1"; "7"; "Ann Lee"; "."]) = Thrown invalid_argument
  /\ getValidInt "Hours Worked: " {| employees := []; cin := ["99999999999"; "12"] |}
     = ([Str "Hours Worked: "], Thrown out_of_range).
Proof. repeat split; vm_compute; reflexivity. Qed.

(** The same lines in A_E.cpp, and an amount below the least normal
    double: a message each time, and the loop goes on. *)
Lemma guarded_conversions :
  A_E.getValidInt "Hours Worked: " {| employees := []; cin := ["99999999999"; "12"] |}
  = ([Str "Hours Worked: "; Str ("Input out of range for an integer." ++ LF);
      Str "Hours Worked: "],
     Returned 12 {| employees := []; cin := [] |})
  /\ A_E.getValidDouble "Hourly Rate: $"
       {| employees := []; cin := ["1" ++ zeros 309; "0.5"] |}
     = ([Str "Hourly Rate: $"; Str ("Input out of range for a double." ++ LF);
         Str "Hourly Rate: $"],
        Returned half {| employees := []; cin := [] |})
  /\ A_E.getValidDouble "Monthly Salary: $"
       {| employees := []; cin := ["0." ++ zeros 307 ++ "22250738585072012"; "3"] |}
     = ([Str "Monthly Salary: $"; Str ("Input out of range for a double." ++ LF);
         Str "Monthly Salary: $"],
        Returned (double_of_int 3) {| employees := []; cin := [] |}).
Proof. repeat split; vm_compute; reflexivity. Qed.

End Exceptions.

Section Menu.

Import A_E Grammar.

(** C4, as stated, fails: the first character of the selection [6] is
    not one of '1'-'5', and the command loop does not print "Invalid menu
    choice!" for it but "Invalid menu option!". *)
Lemma menu_choice_counterexample :
  let w := {| employees := []; cin := ["6"] |} in
  fst (main_pass tt w) = (menu ++ [Str "Selection: "; Str ("Invalid menu option!" ++ LF)])%list
  /\ fst (main_pass tt w) <> (menu ++ [Str "Selection: "; Str ("Invalid menu choice!" ++ LF)])%list.
Proof. split; [vm_compute; reflexivity | vm_compute; discriminate]. Qed.

(** C4, amended: for every selection whose trimmed text is not exactly
    one character or is not a digit, the command loop prints "Invalid menu
    choice!"; for a single digit other than 1-5 it prints "Invalid menu
    option!"; in both cases the pass ends without dispatching to any
    action (the registry is unchanged, only the selection line is
    consumed) and the loop goes round, displaying the menu again. *)
Theorem menu_refusal emps line rest msg :
  let state cin := {| employees := emps; cin := cin |} in
  refusal (trim line) = Some msg ->
  main_pass tt (state (line :: rest)) =
    ((menu ++ [Str "Selection: "; Str (msg ++ LF)])%list, Returned (inl tt) (state rest))
  /\ main (state (line :: rest)) =
     prepend (menu ++ [Str "Selection: "; Str (msg ++ LF)])%list (main (state rest))
  /\ exists out, fst (main (state rest)) = (menu ++ out)%list.
Proof.
  cbv zeta. intros Href.
  assert (Hd : dispatch line {| employees := emps; cin := rest |}
               = ([Str (msg ++ LF)], Returned (inl tt) {| employees := emps; cin := rest |})).
  { unfold dispatch, refusal in *. cbv zeta.
    destruct (_ || _).
    - inversion Href; subst. reflexivity.
    - destruct (at_ (trim line) 0) as [[] [] [] [] [] [] [] []];
        try discriminate Href; inversion Href; subst; reflexivity. }
  split; [|split].
  - rewrite main_pass_cons, Hd. unfold prepend. cbn [fst snd].
    now rewrite <- app_assoc.
  - rewrite main_cons. unfold bind. rewrite Hd. unfold prepend.
    destruct (main _) as [o r]. cbn [fst snd app]. now rewrite <- app_assoc.
  - destruct rest as [|l rest'].
    + exists [Str "Selection: "]. reflexivity.
    + rewrite main_cons. unfold prepend. cbn [fst]. rewrite <- app_assoc.
      eexists. reflexivity.
Qed.

(** C4 at work: a selection of two characters. *)
Lemma menu_refusal_witness :
  main {| employees := []; cin := ["12"; "5"] |} =
  prepend (menu ++ [Str "Selection: "; Str ("Invalid menu choice!" ++ LF)])%list
          (main {| employees := []; cin := ["5"] |}).
Proof.
  apply (menu_refusal [] "12" ["5"] "Invalid menu choice!").
  reflexivity.
Defined.

(** C5, as stated, fails: with an empty registry the identifier [A1]
    is not already present, and [getValidID] does not reject it: it
    returns it, without any duplicate message. *)
Lemma duplicate_id_counterexample :
  ~ In "A1" (map getId (@nil (Employee string))) /\
  getValidID {| employees := []; cin := ["A1"] |}
  = ([Str "Enter ID: "], Returned "A1" {| employees := []; cin := [] |}).
Proof. split; [intros [] | vm_compute; reflexivity]. Qed.

(** C5, amended: during the add-employee flow, [getValidID] rejects a
    well-formed identifier iff it is already present in the registry; it
    then prints "Duplicate ID! Try again." and prompts for the identifier
    again (and for nothing else).  An identifier that is not present is
    returned. *)
Theorem duplicate_id emps line rest :
  let input := trim line in
  let state cin := {| employees := emps; cin := cin |} in
  id_shape input = true ->
  (In input (map getId emps) ->
   getValidID (state (line :: rest)) =
   prepend [Str "Enter ID: "; Str ("Duplicate ID! Try again." ++ LF)]
           (getValidID (state rest)))
  /\ (~ In input (map getId emps) ->
      getValidID (state (line :: rest)) =
      ([Str "Enter ID: "], Returned input (state rest))).
Proof.
  cbv zeta. intros Hshape.
  rewrite getValidID_cons. cbv zeta. rewrite scanID_shape, Hshape.
  destruct (scanIds emps (trim line)) eqn:E.
  - split; [|reflexivity]. intros Hin. apply scanIds_In in Hin. congruence.
  - split; [reflexivity|]. intros Hnot. apply scanIds_In in E. tauto.
Qed.

(** C5 at work: an identifier the registry already has, typed between
    blanks. *)
Lemma duplicate_id_witness :
  let emps := [FullTimeEmployee "A1" "Ann Lee" half] in
  getValidID {| employees := emps; cin := [" A1 "; "B2"] |} =
  prepend [Str "Enter ID: "; Str ("Duplicate ID! Try again." ++ LF)]
          (getValidID {| employees := emps; cin := ["B2"] |}).
Proof.
  apply (duplicate_id [FullTimeEmployee "A1" "Ann Lee" half] " A1 " ["B2"]).
  - reflexivity.
  - simpl. left. reflexivity.
Defined.

End Menu.

(** ** Salaries and the registry: C6, C7, C8 *)

Section Salaries.

Import A_E.

(** C6: for every employee constructed via the validated path, that is
    by [addEmployee] from what the validators return one after the other,
    the stored salary is what the formula of the variant gives: for
    PartTime the product of the hourly rate and the hours worked, for
    Contractual the product of the payment per project and the number of
    projects completed, for FullTime the monthly salary that was entered,
    unchanged. *)
Theorem validated_salary type w out w' :
  1 <= type <= 3 ->
  addEmployee type w = (out, Returned tt w') ->
  exists ident o1 w1 nm o2 w2 e,
    getValidID w = (o1, Returned ident w1)
    /\ getValidName w1 = (o2, Returned nm w2)
    /\ employees w' = (employees w ++ [e])%list
    /\ getId e = ident
    /\ name e = nm
    /\ match kind e with
       | FullTime =>
           type = 1
           /\ exists o3 w3,
               getValidDouble "Monthly Salary: $" w2 = (o3, Returned (salary e) w3)
       | PartTime hourlyRate hoursWorked =>
           type = 2
           /\ salary e = dmul hourlyRate (double_of_int hoursWorked)
           /\ exists o3 w3 o4 w4,
               getValidDouble "Hourly Rate: $" w2 = (o3, Returned hourlyRate w3)
               /\ getValidInt "Hours Worked: " w3 = (o4, Returned hoursWorked w4)
       | Contractual paymentPerProject projectsCompleted =>
           type = 3
           /\ salary e = dmul paymentPerProject (double_of_int projectsCompleted)
           /\ exists o3 w3 o4 w4,
               getValidDouble "Payment Per Project: $" w2
               = (o3, Returned paymentPerProject w3)
               /\ getValidInt "Projects Completed: " w3
                  = (o4, Returned projectsCompleted w4)
       end.
Proof.
  intros Ht H.
  destruct (addEmployee_inv type w out w' Ht H)
    as (ident & nm & w1 & o1 & w2 & o2 & E1 & E2 & e & He & Hcase).
  exists ident, o1, w1, nm, o2, w2, e.
  split; [exact E1|]. split; [exact E2|]. split; [exact He|].
  destruct Hcase as [(-> & pay & o3 & w3 & E3 & ->)
                    |[(-> & rate & hours & o3 & w3 & o4 & w4 & E3 & E4 & ->)
                     |(-> & rate & projects & o3 & w3 & o4 & w4 & E3 & E4 & ->)]];
    cbn [kind salary getId id name FullTimeEmployee PartTimeEmployee ContractualEmployee];
    (split; [reflexivity|]); (split; [reflexivity|]).
  - split; [reflexivity|]. eauto.
  - split; [reflexivity|]. split; [reflexivity|]. do 4 eexists. eauto.
  - split; [reflexivity|]. split; [reflexivity|]. do 4 eexists. eauto.
Qed.

(** C6 at work: half a unit an hour, twelve hours, six units. *)
Lemma validated_salary_witness :
  exists e,
    e = PartTimeEmployee "A1" "Ann Lee" half 12
    /\ salary e = double_of_int 6
    /\ match kind e with
       | PartTime hourlyRate hoursWorked =>
           salary e = dmul hourlyRate (double_of_int hoursWorked)
       | _ => False
       end.
Proof.
  destruct (validated_salary 2
              {| employees := []; cin := ["A1"; "Ann Lee"; "0.5"; "12"] |}
              [Str "Enter ID: "; Str "Enter Name: "; Str "Hourly Rate: $";
               Str "Hours Worked: "; Str ("Employee added!" ++ LF ++ LF)]
              {| employees := [PartTimeEmployee "A1" "Ann Lee" half 12]; cin := [] |})
    as (ident & o1 & w1 & nm & o2 & w2 & e & _ & _ & He & _ & _ & Hk).
  - lia.
  - vm_compute. reflexivity.
  - exists e. cbn [employees app] in He. inversion He; subst e.
    split; [reflexivity|]. split; [vm_compute; reflexivity|].
    cbn [kind PartTimeEmployee] in *. apply Hk.
Defined.

End Salaries.

Section Uniqueness.

Context {ID : Type} {ID_out : Insertable ID} {ID_eq : EqualityComparable ID}.
Implicit Types (w : World ID) (e : Employee ID) (id : ID).

(** C7: [isIdUnique(id)] is a pure query: it prints nothing and returns
    in the state it was called in; its answer is [true] iff no record of
    the registry has this id.  Consequently, after two records have been
    inserted, it answers [false] for the id of each of them, and for any
    other id what it answered before the insertions ([true] for an id
    that no record has). *)
Theorem isIdUnique_query w id :
  (exists answer,
      isIdUnique id w = ([], Returned answer w)
      /\ (answer = true <-> forall e, In e (employees w) -> getId e <> id))
  /\ forall e1 e2 w2,
      (push_back e1 ;; push_back e2) w = ([], Returned tt w2) ->
      isIdUnique (getId e1) w2 = ([], Returned false w2)
      /\ isIdUnique (getId e2) w2 = ([], Returned false w2)
      /\ (id <> getId e1 -> id <> getId e2 ->
          (forall e, In e (employees w) -> getId e <> id) ->
          isIdUnique id w2 = ([], Returned true w2)).
Proof.
  split.
  - exists (scanIds (employees w) id). split; [reflexivity | apply scanIds_true].
  - intros e1 e2 w2 H. inversion H; subst; clear H.
    unfold isIdUnique, bind, get_employees, ret. cbn [employees app fst snd].
    rewrite <- app_assoc. cbn [app].
    repeat split.
    + rewrite scanIds_app. cbn [scanIds]. rewrite equal_refl.
      now rewrite andb_false_r.
    + rewrite scanIds_app. cbn [scanIds]. rewrite equal_refl.
      destruct (equal (getId e1) (getId e2)); now rewrite andb_false_r.
    + intros H1 H2 Hw. apply scanIds_true in Hw.
      rewrite scanIds_app, Hw. cbn [scanIds].
      rewrite !equal_neq by congruence. reflexivity.
Qed.

End Uniqueness.

(** C7 at work on two records and a third identifier. *)
Lemma isIdUnique_query_witness :
  let e1 := FullTimeEmployee "A1" "Ann Lee" half in
  let e2 := PartTimeEmployee "B2" "Bob Ray" half 12 in
  let w2 := {| employees := [e1; e2]; cin := [] |} in
  isIdUnique "A1" w2 = ([], Returned false w2)
  /\ isIdUnique "B2" w2 = ([], Returned false w2)
  /\ isIdUnique "C3" w2 = ([], Returned true w2).
Proof.
  cbv zeta.
  destruct (isIdUnique_query {| employees := []; cin := [] |} "C3") as [_ H].
  destruct (H (FullTimeEmployee "A1" "Ann Lee" half)
              (PartTimeEmployee "B2" "Bob Ray" half 12)
              {| employees := [FullTimeEmployee "A1" "Ann Lee" half;
                               PartTimeEmployee "B2" "Bob Ray" half 12];
                 cin := [] |} eq_refl) as (H1 & H2 & H3).
  split; [exact H1|]. split; [exact H2|].
  apply H3; [discriminate | discriminate | intros e []].
Defined.

Section Invariant.

Import A_E.

(** C8: in every registry state reachable through the command loop, every
    employee record has a salary that is not negative, and no two records
    share the same id. *)
Theorem registry_invariant w :
  reachable w ->
  (forall e, In e (employees w) -> nonneg (salary e) = true)
  /\ NoDup (map getId (employees w)).
Proof. apply reachable_ok. Qed.

(** C8 at work: the registry after one part-time employee was added. *)
Lemma registry_invariant_witness :
  registry_ok [PartTimeEmployee "A1" "Ann Lee" half 12].
Proof.
  apply (registry_invariant
           {| employees := [PartTimeEmployee "A1" "Ann Lee" half 12]; cin := ["4"] |}).
  eapply (reach_pass {| employees := []; cin := ["2"; "A1"; "Ann Lee"; "0.5"; "12"; "4"] |}).
  - apply reach_start.
  - vm_compute. reflexivity.
Defined.

End Invariant.

(** ** The report: C9, C10 *)

Section Report.

Context {ID : Type} {ID_out : Insertable ID} {ID_eq : EqualityComparable ID}.
Implicit Types (w : World ID) (e : Employee ID) (id : ID).

(** C9: on an empty registry the report is exactly the message "No
    employees in system!" and nothing else; on a registry that is not
    empty it is a header followed by the block [display] prints for each
    record, in the order of the vector, which is the order of insertion
    ([push_back] adds at the end, so the block of a record just inserted
    comes last).  The block depends on the variant of the record: the
    name and the id, then the monthly salary for a full-time employee;
    the hourly rate, the hours worked and their product for a part-time
    employee; the payment per project, the projects completed and their
    product for a contractual employee; then an empty line. *)
Theorem report_output (lines : list string) :
  let state emps := {| employees := emps; cin := lines |} in
  displayPayrollReport (state [])
  = ([Str ("No employees in system!" ++ LF ++ LF)], Returned tt (state []))
  /\ (forall e emps,
        displayPayrollReport (state (e :: emps))
        = ((Str (LF ++ "Employee Payroll Report ---" ++ LF)
              :: List.concat (map display (e :: emps)))%list,
           Returned tt (state (e :: emps))))
  /\ (forall e0 emps e,
        fst ((push_back e ;; displayPayrollReport) (state (e0 :: emps)))
        = (fst (displayPayrollReport (state (e0 :: emps))) ++ display e)%list)
  /\ (forall (ident : ID) (nm : string) (pay : double),
        display (FullTimeEmployee ident nm pay)
        = [Str "Employee: "; Str nm; Str " (ID: "; inserted ident; Str (")" ++ LF);
           Str "Fixed Monthly Salary: $"; Dbl pay; Str (LF ++ LF)])
  /\ (forall (ident : ID) (nm : string) (rate : double) (hours : Z),
        display (PartTimeEmployee ident nm rate hours)
        = [Str "Employee: "; Str nm; Str " (ID: "; inserted ident; Str (")" ++ LF);
           Str "Hourly Rate: $"; Dbl rate; Str LF;
           Str "Hours Worked: "; Int hours; Str LF;
           Str "Total Salary: $"; Dbl (dmul rate (double_of_int hours));
           Str (LF ++ LF)])
  /\ (forall (ident : ID) (nm : string) (rate : double) (projects : Z),
        display (ContractualEmployee ident nm rate projects)
        = [Str "Employee: "; Str nm; Str " (ID: "; inserted ident; Str (")" ++ LF);
           Str "Contract Payment Per Project: $"; Dbl rate; Str LF;
           Str "Projects Completed: "; Int projects; Str LF;
           Str "Total Salary: $"; Dbl (dmul rate (double_of_int projects));
           Str (LF ++ LF)]).
Proof.
  cbv zeta.
  split; [apply report_nil|]. split; [intros; apply report_cons|].
  split; [|repeat split].
  intros e0 emps e. rewrite report_cons. cbn [fst].
  unfold bind at 1. unfold push_back. cbn [employees cin app].
  rewrite report_cons. cbn [fst app]. f_equal.
  change (e0 :: (emps ++ [e])%list) with ((e0 :: emps) ++ [e])%list.
  rewrite map_app, concat_app. cbn [map List.concat]. now rewrite app_nil_r.
Qed.

(** C10: generating a report never modifies the registry: in every state
    [displayPayrollReport] returns in the very state it was called in (the
    same records in the same order, the same input left), so that a report
    followed by any operation behaves as that operation alone on the same
    state, after the output of the report. *)
Theorem report_frame w :
  exists out,
    displayPayrollReport w = (out, Returned tt w)
    /\ forall A (op : IO ID A),
        (displayPayrollReport ;; op) w = prepend out (op w).
Proof.
  assert (H : exists out, displayPayrollReport w = (out, Returned tt w)).
  { destruct w as [[|e emps] lines].
    - eexists. apply report_nil.
    - eexists. apply report_cons. }
  destruct H as [out H]. exists out. split; [exact H|].
  intros A op. exact (bind_run displayPayrollReport (fun _ => op) w out tt w H).
Qed.

End Report.

(** * A session with A_E.cpp *)

(** Add a full-time employee A1, Ann Lee, 5000; ask for the report;
    leave. *)
Example session :
  A_E.run ["1"; "A1"; "Ann Lee"; "5000"; "4"; "5"]
  = ((menu ++ [Str "Selection: "; Str "Enter ID: "; Str "Enter Name: ";
               Str "Monthly Salary: $"; Str ("Employee added!" ++ LF ++ LF)]
      ++ menu ++ [Str "Selection: ";
                  Str (LF ++ "Employee Payroll Report ---" ++ LF);
                  Str "Employee: "; Str "Ann Lee"; Str " (ID: "; Str "A1"; Str (")" ++ LF);
                  Str "Fixed Monthly Salary: $"; Dbl (double_of_int 5000); Str (LF ++ LF)]
      ++ menu ++ [Str "Selection: "; Str ("Exiting system..." ++ LF)])%list,
     Returned 0 {| employees := [FullTimeEmployee "A1" "Ann Lee" (double_of_int 5000)];
                   cin := [] |}).
Proof. vm_compute. reflexivity. Qed.

(** * Further properties *)

(** ** [trim] *)

Section TrimMore.

Lemma chars_inj s1 s2 : chars s1 = chars s2 -> s1 = s2.
Proof.
  intros H. rewrite <- (string_of_list_ascii_of_string s1),
    <- (string_of_list_ascii_of_string s2). unfold chars in H. now rewrite H.
Qed.

Lemma drop_space_split (l : list ascii) :
  exists front, l = (front ++ drop_space l)%list /\ forallb isspace front = true.
Proof.
  induction l as [|c l (front & Hl & Hf)]; [now exists []|].
  cbn [drop_space]. destruct (isspace c) eqn:E.
  - exists (c :: front). cbn [app forallb]. rewrite E, Hf. split; [congruence | reflexivity].
  - now exists [].
Qed.

Lemma drop_space_length (l : list ascii) :
  (List.length (drop_space l) <= List.length l)%nat.
Proof.
  induction l as [|c l IH]; simpl; [lia|]. destruct (isspace c); simpl; lia.
Qed.

Lemma all_space_rev (l : list ascii) :
  forallb isspace l = true -> forallb isspace (rev l) = true.
Proof.
  intros H. apply forallb_forall. intros x Hx. apply in_rev in Hx.
  revert x Hx. now apply forallb_forall.
Qed.

Lemma strip_length (l : list ascii) : (List.length (strip l) <= List.length l)%nat.
Proof.
  unfold strip. rewrite length_rev.
  pose proof (drop_space_length (rev (drop_space l))) as H1.
  pose proof (drop_space_length l) as H2. rewrite length_rev in H1. lia.
Qed.

Lemma strip_outer_clean (l : list ascii) : outer_clean (strip l).
Proof.
  unfold outer_clean, strip. rewrite rev_involutive. split.
  - pose proof (drop_space_head l) as Hd.
    destruct (drop_space_split (rev (drop_space l))) as (g & Hg & Hs).
    set (X := drop_space (rev (drop_space l))) in *.
    assert (Hl : drop_space l = (rev X ++ rev g)%list).
    { rewrite <- rev_app_distr, <- Hg. now rewrite rev_involutive. }
    rewrite Hl in Hd. destruct (rev X) as [|c t]; [exact I | exact Hd].
  - apply drop_space_head.
Qed.

Lemma strip_split (l : list ascii) :
  exists front back,
    l = (front ++ strip l ++ back)%list
    /\ forallb isspace front = true /\ forallb isspace back = true.
Proof.
  destruct (drop_space_split l) as (front & Hl & Hf).
  destruct (drop_space_split (rev (drop_space l))) as (g & Hg & Hs).
  exists front, (rev g). split; [|split; [exact Hf | now apply all_space_rev]].
  unfold strip. rewrite <- rev_app_distr, <- Hg, rev_involutive. exact Hl.
Qed.

Lemma drop_space_clean (l : list ascii) :
  match l with c :: _ => isspace c = false | [] => True end -> drop_space l = l.
Proof. destruct l as [|c l]; [reflexivity|]. simpl. now intros ->. Qed.

Lemma strip_clean (l : list ascii) : outer_clean l -> strip l = l.
Proof.
  intros [Hh Ht]. unfold strip.
  rewrite (drop_space_clean l Hh), (drop_space_clean (rev l) Ht).
  apply rev_involutive.
Qed.

Lemma trim_length s :
  Z.of_nat (String.length s) <= SIZE_MAX ->
  (String.length (trim s) <= String.length s)%nat.
Proof.
  intros H. rewrite <- !chars_length, (trim_spec s H). apply strip_length.
Qed.

(** X1: [trim] removes white space from both ends and nothing else: the
    string is some white space, then the trimmed string, then some white
    space, and the trimmed string neither begins nor ends with a
    white-space character. *)
Theorem trim_splits s :
  Z.of_nat (String.length s) <= SIZE_MAX ->
  exists front back,
    chars s = (front ++ chars (trim s) ++ back)%list
    /\ forallb isspace front = true
    /\ forallb isspace back = true
    /\ outer_clean (chars (trim s)).
Proof.
  intros H. rewrite (trim_spec s H).
  destruct (strip_split (chars s)) as (front & back & Hl & Hf & Hb).
  exists front, back. repeat split; auto; apply strip_outer_clean.
Qed.

(** X1 at work. *)
Lemma trim_splits_witness :
  exists front back,
    chars "  Ann  Lee " = (front ++ chars (trim "  Ann  Lee ") ++ back)%list
    /\ forallb isspace front = true
    /\ forallb isspace back = true
    /\ outer_clean (chars (trim "  Ann  Lee ")).
Proof.
  apply (trim_splits "  Ann  Lee ").
  apply Z.leb_le. vm_compute. reflexivity.
Defined.

(** X2: [trim] is idempotent, and it leaves unchanged every string that
    neither begins nor ends with a white-space character. *)
Theorem trim_fixed s :
  Z.of_nat (String.length s) <= SIZE_MAX ->
  trim (trim s) = trim s
  /\ (outer_clean (chars s) -> trim s = s).
Proof.
  intros H. split.
  - apply chars_inj. rewrite trim_spec.
    + rewrite (trim_spec s H). apply strip_clean, strip_outer_clean.
    + pose proof (trim_length s H). lia.
  - intros Hc. apply chars_inj. rewrite (trim_spec s H). now apply strip_clean.
Qed.

(** X2 at work. *)
Lemma trim_fixed_witness :
  trim (trim " A1 ") = trim " A1 " /\ trim "Ann Lee" = "Ann Lee".
Proof.
  split.
  - apply (trim_fixed " A1 "). apply Z.leb_le. vm_compute. reflexivity.
  - apply (trim_fixed "Ann Lee").
    + apply Z.leb_le. vm_compute. reflexivity.
    + vm_compute. split; reflexivity.
Defined.

End TrimMore.

(** ** The validators of A_E.cpp, as their callers see them *)

Section ValidatorsMore.

Import A_E Grammar.

Lemma getValidName_returns w out value w' :
  getValidName w = (out, Returned value w') -> name_shape value = true.
Proof.
  rewrite getValidName_ask.
  apply (ask_returns _ checkName (fun _ value => name_shape value = true));
    [apply frame_checkName|].
  clear. intros input w out a w'. unfold checkName. cbv zeta.
  rewrite scanName_shape.
  destruct (name_shape (trim input)) eqn:Es; run_io; [|discriminate].
  intros H. inversion H; subst. exact Es.
Qed.

(** X3: a validator that returns has read at least one line and has not
    touched the registry. *)
Theorem validators_only_read w :
  (forall out value w',
      getValidID w = (out, Returned value w') ->
      employees w' = employees w /\ (List.length (cin w') < List.length (cin w))%nat)
  /\ (forall out value w',
        getValidName w = (out, Returned value w') ->
        employees w' = employees w /\ (List.length (cin w') < List.length (cin w))%nat)
  /\ (forall prompt out value w',
        getValidDouble prompt w = (out, Returned value w') ->
        employees w' = employees w /\ (List.length (cin w') < List.length (cin w))%nat)
  /\ (forall prompt out value w',
        getValidInt prompt w = (out, Returned value w') ->
        employees w' = employees w /\ (List.length (cin w') < List.length (cin w))%nat).
Proof.
  repeat split.
  - eapply keeps_getValidID; eassumption.
  - eapply reads_getValidID; eassumption.
  - eapply keeps_getValidName; eassumption.
  - eapply reads_getValidName; eassumption.
  - eapply keeps_getValidDouble; eassumption.
  - eapply reads_getValidDouble; eassumption.
  - eapply keeps_getValidInt; eassumption.
  - eapply reads_getValidInt; eassumption.
Qed.

(** X3 at work: two lines read, the registry as it was. *)
Lemma validators_only_read_witness :
  let emps := [FullTimeEmployee "A1" "Ann Lee" half] in
  employees {| employees := emps; cin := ["4"] |} = emps
  /\ (List.length ["4"] < List.length ["x"; "12"; "4"])%nat.
Proof.
  cbv zeta.
  apply (proj2 (proj2 (proj2
           (validators_only_read
              {| employees := [FullTimeEmployee "A1" "Ann Lee" half];
                 cin := ["x"; "12"; "4"] |})))
           "Hours Worked: "
           [Str "Hours Worked: ";
            Str ("Invalid input! Please enter whole numbers only." ++ LF);
            Str "Hours Worked: "]
           12).
  vm_compute. reflexivity.
Defined.

(** X4: the count [getValidInt] returns is never negative and fits an
    [int]. *)
Theorem count_returned prompt w out value w' :
  getValidInt prompt w = (out, Returned value w') -> 0 <= value <= INT_MAX.
Proof. apply getValidInt_returns. Qed.

(** X4 at work. *)
Lemma count_returned_witness : 0 <= 12 <= INT_MAX.
Proof.
  apply (count_returned "Hours Worked: " {| employees := []; cin := [" 12 "] |}
           [Str "Hours Worked: "] 12 {| employees := []; cin := [] |}).
  vm_compute. reflexivity.
Defined.

(** X5: the amount [getValidDouble] returns is [+0] or a positive finite
    double: never negative, never infinite, never NaN. *)
Theorem amount_returned prompt w out value w' :
  getValidDouble prompt w = (out, Returned value w') ->
  value = S754_zero false \/ exists m e, value = S754_finite false m e.
Proof. apply getValidDouble_returns. Qed.

(** X5 at work. *)
Lemma amount_returned_witness :
  half = S754_zero false \/ exists m e, half = S754_finite false m e.
Proof.
  apply (amount_returned "Hourly Rate: $" {| employees := []; cin := [".5"] |}
           [Str "Hourly Rate: $"] half {| employees := []; cin := [] |}).
  vm_compute. reflexivity.
Defined.

(** X6: the identifier [getValidID] returns is a non-empty string of
    letters and digits that no record of the registry has, however many
    lines were rejected before. *)
Theorem id_returned w out value w' :
  getValidID w = (out, Returned value w') ->
  id_shape value = true /\ ~ In value (map getId (employees w)).
Proof. apply getValidID_returns. Qed.

(** X6 at work: the first line is a duplicate, the second has a blank
    inside, the third is returned. *)
Lemma id_returned_witness :
  id_shape "B2" = true
  /\ ~ In "B2" (map getId [FullTimeEmployee "A1" "Ann Lee" half]).
Proof.
  apply (id_returned
           {| employees := [FullTimeEmployee "A1" "Ann Lee" half];
              cin := ["A1"; "B 2"; "B2"] |}
           [Str "Enter ID: "; Str ("Duplicate ID! Try again." ++ LF);
            Str "Enter ID: "; Str ("Invalid ID! Use only letters and numbers." ++ LF);
            Str "Enter ID: "]
           "B2" {| employees := [FullTimeEmployee "A1" "Ann Lee" half]; cin := [] |}).
  vm_compute. reflexivity.
Defined.

(** X7: the name [getValidName] returns is non-empty and made of letters
    and single white-space characters. *)
Theorem name_returned w out value w' :
  getValidName w = (out, Returned value w') -> name_shape value = true.
Proof. apply getValidName_returns. Qed.

(** X7 at work. *)
Lemma name_returned_witness : name_shape "Ann Lee" = true.
Proof.
  apply (name_returned {| employees := []; cin := ["Ann  Lee"; " Ann Lee"] |}
           [Str "Enter Name: ";
            Str ("Invalid name! Use letters and single spaces between names." ++ LF);
            Str "Enter Name: "]
           "Ann Lee" {| employees := []; cin := [] |}).
  vm_compute. reflexivity.
Defined.

End ValidatorsMore.

Section Retries.

Import A_E Grammar.

(** X8: [getValidName] returns the first acceptable line, trimmed, after
    one error message for each line before it, and leaves the lines after
    it unread; if no line is acceptable it never returns. *)
Theorem name_first_acceptable emps rejected :
  let state cin := {| employees := emps; cin := cin |} in
  let complaint :=
    [Str "Enter Name: ";
     Str ("Invalid name! Use letters and single spaces between names." ++ LF)] in
  Forall (fun line => name_shape (trim line) = false) rejected ->
  (forall accepted rest,
      name_shape (trim accepted) = true ->
      getValidName (state (rejected ++ accepted :: rest)%list)
      = ((flat_map (fun _ => complaint) rejected ++ [Str "Enter Name: "])%list,
         Returned (trim accepted) (state rest)))
  /\ getValidName (state rejected)
     = ((flat_map (fun _ => complaint) rejected ++ [Str "Enter Name: "])%list, Diverges).
Proof.
  cbv zeta. induction 1 as [|line rejected Hline Hrej [IH1 IH2]]; split.
  - intros accepted rest Hok. cbn [app flat_map].
    rewrite getValidName_cons. cbv zeta. now rewrite scanName_shape, Hok.
  - reflexivity.
  - intros accepted rest Hok. cbn [app flat_map].
    rewrite getValidName_cons. cbv zeta. rewrite scanName_shape, Hline.
    rewrite (IH1 accepted rest Hok). reflexivity.
  - cbn [app flat_map]. rewrite getValidName_cons. cbv zeta. rewrite scanName_shape, Hline.
    rewrite IH2. reflexivity.
Qed.

(** X8 at work. *)
Lemma name_first_acceptable_witness :
  getValidName {| employees := []; cin := ["Ann3"; ""; " Ann Lee "; "Bob"] |}
  = ([Str "Enter Name: ";
      Str ("Invalid name! Use letters and single spaces between names." ++ LF);
      Str "Enter Name: ";
      Str ("Invalid name! Use letters and single spaces between names." ++ LF);
      Str "Enter Name: "],
     Returned "Ann Lee" {| employees := []; cin := ["Bob"] |}).
Proof.
  apply (proj1 (name_first_acceptable [] ["Ann3"; EmptyString]
                  ltac:(repeat constructor)) " Ann Lee " ["Bob"]).
  vm_compute. reflexivity.
Defined.

End Retries.

(** ** What the loops print *)

Section Outputs.

Context {ID : Type}.

(** What every pass prints among [allowed], the loop prints among
    [allowed]. *)
Lemma loop_prints_only {S A} (step : S -> IO ID (S + A)) allowed :
  consuming step ->
  (forall s w, prints_only allowed (step s w)) ->
  forall s w, prints_only allowed (loop step s w).
Proof.
  intros Hc Hs.
  assert (H : forall n s w, (List.length (cin w) <= n)%nat ->
               prints_only allowed (loop step s w)).
  { induction n as [|n IH]; intros s w Hn;
      rewrite (loop_unfold step Hc); unfold bind, prints_only;
      pose proof (Hs s w) as Hp; unfold prints_only in Hp;
      destruct (step s w) as [o1 [[s'|a] w1| |e]] eqn:E; cbn [fst] in *;
      try exact Hp.
    - apply Hc in E. lia.
    - unfold ret. now rewrite app_nil_r.
    - pose proof (Hc _ _ _ _ _ E).
      pose proof (IH s' w1 ltac:(lia)) as Hl. unfold prints_only in Hl.
      destruct (loop step s' w1) as [o2 r]. cbn [fst] in *.
      apply Forall_app. now split.
    - unfold ret. now rewrite app_nil_r. }
  intros s w. now apply (H (List.length (cin w))).
Qed.

Lemma bind_prints_only {A B} (m : IO ID A) (f : A -> IO ID B) allowed w :
  prints_only allowed (m w) ->
  (forall a w', prints_only allowed (f a w')) ->
  prints_only allowed ((x <- m ;; f x) w).
Proof.
  unfold prints_only, bind. intros Hm Hf.
  destruct (m w) as [o1 [a w1| |e]]; cbn [fst] in *; try exact Hm.
  specialize (Hf a w1). destruct (f a w1) as [o2 r]. cbn [fst] in *.
  apply Forall_app. now split.
Qed.

End Outputs.

Section DeadHandlers.

Import A_E Grammar.

Ltac prints_tac :=
  run_io; repeat (apply Forall_cons; [simpl; auto 6|]); try apply Forall_nil.

Lemma checkInt_prints prompt input w :
  prints_only
    [Str prompt;
     Str ("Input out of range for an integer." ++ LF);
     Str ("Invalid input! Please enter whole numbers only." ++ LF)]
    (checkInt input w).
Proof.
  unfold checkInt, prints_only. cbv zeta. rewrite scanInt_shape.
  destruct (count_shape (trim input)) eqn:Es.
  - rewrite (stoi_count _ Es).
    destruct (_ <=? INT_MAX); prints_tac.
  - prints_tac.
Qed.

Lemma checkDouble_prints prompt input w :
  prints_only
    [Str prompt;
     Str ("Input out of range for a double." ++ LF);
     Str ("Invalid input! Use numbers with optional single decimal point." ++ LF)]
    (checkDouble input w).
Proof.
  unfold checkDouble, prints_only. cbv zeta.
  pose proof (scanDouble_shape (trim input)) as Hs.
  destruct (scanDouble (trim input) _ 0 false) as [valid hasDigit].
  rewrite Hs. destruct (amount_shape (trim input)) eqn:Es.
  - pose proof (stod_amount _ Es) as Hd.
    destruct (stod (trim input)) as [v|e]; [|subst e]; prints_tac.
  - prints_tac.
Qed.

Lemma ask_prints_only {A} prompt allowed (K : string -> IO string (unit + A)) :
  (forall input, frame (K input)) ->
  In (Str prompt) allowed ->
  (forall input w, prints_only allowed (K input w)) ->
  forall w, prints_only allowed (loop (ask [Str prompt] K) tt w).
Proof.
  intros Hf Hp HK. apply loop_prints_only.
  - apply ask_consuming. intros input. apply frame_forward, Hf.
  - intros s w. unfold ask.
    apply bind_prints_only; [apply Forall_cons; [exact Hp | apply Forall_nil]|].
    intros _ w1.
    apply bind_prints_only.
    + unfold prints_only, getline. destruct (cin w1); constructor.
    + intros input w2. apply HK.
Qed.

(** X9: [getValidInt] and [getValidDouble] print nothing but their prompt,
    their out-of-range message and their message for a malformed line:
    the handlers of [std::invalid_argument] are never entered, because what
    passes the character check always holds a digit to convert. *)
Theorem numeric_validators_print prompt w :
  prints_only
    [Str prompt;
     Str ("Input out of range for an integer." ++ LF);
     Str ("Invalid input! Please enter whole numbers only." ++ LF)]
    (getValidInt prompt w)
  /\ prints_only
       [Str prompt;
        Str ("Input out of range for a double." ++ LF);
        Str ("Invalid input! Use numbers with optional single decimal point." ++ LF)]
       (getValidDouble prompt w).
Proof.
  split.
  - rewrite getValidInt_ask. apply ask_prints_only;
      [apply frame_checkInt | now left | apply checkInt_prints].
  - rewrite getValidDouble_ask. apply ask_prints_only;
      [apply frame_checkDouble | now left | apply checkDouble_prints].
Qed.

End DeadHandlers.

(** ** [addEmployee] and [main] of A_E.cpp *)

Section AddMore.

Import A_E.

Lemma addEmployee_new_id type w out w' :
  1 <= type <= 3 ->
  addEmployee type w = (out, Returned tt w') ->
  exists e,
    employees w' = (employees w ++ [e])%list
    /\ ~ In (getId e) (map getId (employees w)).
Proof.
  intros Ht H.
  destruct (addEmployee_inv type w out w' Ht H)
    as (id & name & w1 & o1 & w2 & o2 & E1 & E2 & e & He & Hcase).
  apply getValidID_returns in E1 as [_ Hnew].
  exists e. split; [exact He|].
  destruct Hcase as [(_ & ? & ? & ? & _ & ->)
                    |[(_ & ? & ? & ? & ? & ? & ? & _ & _ & ->)
                     |(_ & ? & ? & ? & ? & ? & ? & _ & _ & ->)]]; exact Hnew.
Qed.

(** X10: when [addEmployee] returns for one of the three variants, the
    records that were there are still there, in the same order, one record
    has been added at the end, and the id of that record, which
    [isIdUnique] found free before the call, is found taken after it. *)
Theorem added_id_is_taken type w out w' :
  1 <= type <= 3 ->
  addEmployee type w = (out, Returned tt w') ->
  exists e,
    employees w' = (employees w ++ [e])%list
    /\ isIdUnique (getId e) w = ([], Returned true w)
    /\ isIdUnique (getId e) w' = ([], Returned false w').
Proof.
  intros Ht H.
  destruct (addEmployee_new_id type w out w' Ht H) as (e & He & Hnew).
  exists e. split; [exact He|].
  unfold isIdUnique, bind, get_employees, ret. cbn [app]. split.
  - destruct (scanIds (employees w) (getId e)) eqn:E; [reflexivity|].
    apply scanIds_In in E. tauto.
  - rewrite He, scanIds_app. cbn [scanIds]. rewrite equal_refl.
    now rewrite andb_false_r.
Qed.

(** X10 at work. *)
Lemma added_id_is_taken_witness :
  exists e,
    [FullTimeEmployee "A1" "Ann Lee" half] = ([] ++ [e])%list
    /\ isIdUnique (getId e) {| employees := []; cin := ["A1"; "Ann Lee"; "0.5"] |}
       = ([], Returned true {| employees := []; cin := ["A1"; "Ann Lee"; "0.5"] |})
    /\ isIdUnique (getId e)
         {| employees := [FullTimeEmployee "A1" "Ann Lee" half]; cin := [] |}
       = ([], Returned false
                {| employees := [FullTimeEmployee "A1" "Ann Lee" half]; cin := [] |}).
Proof.
  apply (added_id_is_taken 1
           {| employees := []; cin := ["A1"; "Ann Lee"; "0.5"] |}
           [Str "Enter ID: "; Str "Enter Name: "; Str "Monthly Salary: $";
            Str ("Employee added!" ++ LF ++ LF)]
           {| employees := [FullTimeEmployee "A1" "Ann Lee" half]; cin := [] |}).
  - lia.
  - vm_compute. reflexivity.
Defined.

(** X11: whenever [addEmployee] returns, the last thing it printed is
    "Employee added!", also when [type] is none of 1, 2, 3: the [switch]
    has no case for it, and then nothing was added to the registry. *)
Theorem added_message type w out w' :
  addEmployee type w = (out, Returned tt w') ->
  (exists before, out = (before ++ [Str ("Employee added!" ++ LF ++ LF)])%list)
  /\ (~ 1 <= type <= 3 -> employees w' = employees w).
Proof.
  intros H. unfold addEmployee in H.
  apply bind_inv in H as (o1 & id & w1 & o1' & E1 & H & ->).
  apply bind_inv in H as (o2 & name & w2 & o2' & E2 & H & ->).
  apply bind_inv in H as (o3 & [] & w3 & o3' & H & E3 & ->).
  inversion E3; subst. split.
  - exists (o1 ++ o2 ++ o3)%list. now rewrite <- !app_assoc.
  - intros Hty.
    pose proof (keeps_getValidID _ _ _ _ E1) as K1.
    pose proof (keeps_getValidName _ _ _ _ E2) as K2.
    destruct type as [|[[|[]|]|[]|]|]; try lia; inversion H; subst; congruence.
Qed.

(** X11 at work: a variant the [switch] does not know. *)
Lemma added_message_witness :
  (exists before,
      [Str "Enter ID: "; Str "Enter Name: "; Str ("Employee added!" ++ LF ++ LF)]
      = (before ++ [Str ("Employee added!" ++ LF ++ LF)])%list)
  /\ (~ 1 <= 4 <= 3 ->
      employees {| employees := @nil (Employee string); cin := [] |}
      = employees {| employees := []; cin := ["A1"; "Ann Lee"] |}).
Proof.
  apply (added_message 4 {| employees := []; cin := ["A1"; "Ann Lee"] |}
           [Str "Enter ID: "; Str "Enter Name: "; Str ("Employee added!" ++ LF ++ LF)]
           {| employees := []; cin := [] |}).
  vm_compute. reflexivity.
Defined.

End AddMore.

Section LoopLeaves.

Context {ID : Type}.

(** What holds of the output and value of every pass that leaves the
    loop, and keeps holding when more output comes before, holds of the
    output and value of the loop. *)
Lemma loop_leaves {S A} (step : S -> IO ID (S + A)) (P : list item -> A -> Prop) :
  consuming step ->
  (forall s w out a w', step s w = (out, Returned (inr a) w') -> P out a) ->
  (forall before out a, P out a -> P (before ++ out)%list a) ->
  forall s w out a w', loop step s w = (out, Returned a w') -> P out a.
Proof.
  intros Hc Hlast Hpre.
  assert (H : forall n s w out a w', (List.length (cin w) <= n)%nat ->
               loop step s w = (out, Returned a w') -> P out a).
  { induction n as [|n IH]; intros s w out a w' Hn Hrun;
      rewrite (loop_unfold step Hc) in Hrun;
      apply bind_inv in Hrun as (o1 & r & w1 & o2 & E1 & E2 & ->);
      destruct r as [s'|a'].
    - apply Hc in E1. lia.
    - inversion E2; subst. rewrite app_nil_r. eauto.
    - pose proof (Hc _ _ _ _ _ E1). apply Hpre. apply IH in E2; [exact E2|lia].
    - inversion E2; subst. rewrite app_nil_r. eauto. }
  intros s w out a w'. now apply (H (List.length (cin w))).
Qed.

End LoopLeaves.

Section MainMore.

Import A_E Grammar.

(** Only the selection 5 makes a pass leave the loop. *)
Lemma dispatch_leaves choice w out code w' :
  dispatch choice w = (out, Returned (inr code) w') ->
  code = 0 /\ out = [Str ("Exiting system..." ++ LF)] /\ w' = w.
Proof.
  assert (Hadd : forall type,
            (addEmployee type ;; ret (inl (B:=Z) tt)) w = (out, Returned (inr code) w') ->
            code = 0 /\ out = [Str ("Exiting system..." ++ LF)] /\ w' = w).
  { intros type H. apply bind_inv in H as (o1 & [] & w1 & o2 & _ & E2 & _).
    inversion E2. }
  assert (Hrep : (displayPayrollReport (ID:=string) ;; ret (inl (B:=Z) tt)) w
                 = (out, Returned (inr code) w') ->
            code = 0 /\ out = [Str ("Exiting system..." ++ LF)] /\ w' = w).
  { intros H. apply bind_inv in H as (o1 & [] & w1 & o2 & _ & E2 & _).
    inversion E2. }
  assert (Hsay : forall msg,
            (print (ID:=string) msg ;; ret (inl (B:=Z) tt)) w = (out, Returned (inr code) w') ->
            code = 0 /\ out = [Str ("Exiting system..." ++ LF)] /\ w' = w).
  { intros msg H. inversion H. }
  unfold dispatch, again, leave. cbv zeta.
  destruct (_ || _); [apply Hsay|].
  destruct (at_ (trim choice) 0) as [[] [] [] [] [] [] [] []];
    first [apply Hsay | apply Hrep | apply Hadd
          | intros H; inversion H; subst; auto].
Qed.

(** X12: the registry only grows.  A pass of the command loop leaves the
    records as they are or adds one record at the end, and when [main]
    returns the registry it started with is a prefix of the registry it
    ends with: no record is ever removed, replaced or reordered. *)
Theorem registry_only_grows w :
  (forall out r w',
      main_pass tt w = (out, Returned r w') ->
      employees w' = employees w
      \/ exists e, employees w' = (employees w ++ [e])%list)
  /\ (forall out code w',
        main w = (out, Returned code w') ->
        exists added, employees w' = (employees w ++ added)%list).
Proof.
  assert (Hpass : forall w out r w',
             main_pass tt w = (out, Returned r w') ->
             employees w' = employees w
             \/ exists e, employees w' = (employees w ++ [e])%list).
  { clear. intros [emps [|line rest]] out r w' Hpass.
    - vm_compute in Hpass. discriminate.
    - rewrite main_pass_cons in Hpass.
      apply prepend_returned in Hpass as [o Hd].
      apply dispatch_registry in Hd as [Hsame|(type & o' & Ht & Hadd)].
      + now left.
      + right. destruct (addEmployee_new_id _ _ _ _ Ht Hadd) as (e & He & _).
        cbn [employees] in *. eauto. }
  split; [apply Hpass|].
  intros out code w'. unfold main.
  apply (loop_rule main_pass
           (fun w w' => exists added, employees w' = (employees w ++ added)%list)
           main_pass_consuming).
  - intros w1 w2 w3 [a1 H1] [a2 H2]. exists (a1 ++ a2)%list.
    now rewrite H2, H1, app_assoc.
  - intros [] w0 o r w0' H. apply Hpass in H as [H|[e H]].
    + exists []. now rewrite app_nil_r.
    + now exists [e].
Qed.

(** X12 at work: a session that adds one record to one. *)
Lemma registry_only_grows_witness :
  exists added,
    [FullTimeEmployee "A1" "Ann Lee" half; FullTimeEmployee "B2" "Bob Ray" half]
    = ([FullTimeEmployee "A1" "Ann Lee" half] ++ added)%list.
Proof.
  apply (proj2 (registry_only_grows
                  {| employees := [FullTimeEmployee "A1" "Ann Lee" half];
                     cin := ["1"; "A1"; "B2"; "Bob Ray"; "0.5"; "5"] |})
           ((menu ++ [Str "Selection: "; Str "Enter ID: ";
                      Str ("Duplicate ID! Try again." ++ LF); Str "Enter ID: ";
                      Str "Enter Name: "; Str "Monthly Salary: $";
                      Str ("Employee added!" ++ LF ++ LF)])
            ++ menu ++ [Str "Selection: "; Str ("Exiting system..." ++ LF)])%list
           0
           {| employees := [FullTimeEmployee "A1" "Ann Lee" half;
                            FullTimeEmployee "B2" "Bob Ray" half];
              cin := [] |}).
  vm_compute. reflexivity.
Defined.

(** X13: [main] returns only through the selection 5: whenever it
    returns, the exit code is 0 and the last thing printed is "Exiting
    system..."; and on a selection whose trimmed text is [5] it returns
    at once, with the registry as it is and the lines that follow
    unread. *)
Theorem main_exit emps :
  let state cin := {| employees := emps; cin := cin |} in
  (forall lines out code w',
      main (state lines) = (out, Returned code w') ->
      code = 0
      /\ exists before, out = (before ++ [Str ("Exiting system..." ++ LF)])%list)
  /\ (forall line rest,
        trim line = "5" ->
        main (state (line :: rest))
        = ((menu ++ [Str "Selection: "; Str ("Exiting system..." ++ LF)])%list,
           Returned 0 (state rest))).
Proof.
  cbv zeta. split.
  - intros lines out code w'. unfold main.
    apply (loop_leaves main_pass
             (fun out code =>
                code = 0
                /\ exists before, out = (before ++ [Str ("Exiting system..." ++ LF)])%list)
             main_pass_consuming).
    + intros [] [emps0 [|line rest]] o c w0 H.
      * vm_compute in H. discriminate.
      * rewrite main_pass_cons in H.
        destruct (dispatch line _) as [o' r'] eqn:Ed. unfold prepend in H.
        cbn [fst snd] in H. inversion H; subst.
        apply dispatch_leaves in Ed as (-> & -> & _).
        split; [reflexivity|].
        exists (menu ++ [Str "Selection: "])%list. reflexivity.
    + intros before o c [-> [b ->]]. split; [reflexivity|].
      exists (before ++ b)%list. now rewrite app_assoc.
  - intros line rest Htrim. rewrite main_cons.
    unfold dispatch. cbv zeta. rewrite Htrim.
    unfold bind, print, leave, ret, prepend. cbn [fst snd negb orb Nat.eqb String.length at_ String.get isdigit].
    reflexivity.
Qed.

(** X13 at work. *)
Lemma main_exit_witness :
  main {| employees := []; cin := [" 5 "; "1"] |}
  = ((menu ++ [Str "Selection: "; Str ("Exiting system..." ++ LF)])%list,
     Returned 0 {| employees := []; cin := ["1"] |}).
Proof.
  apply (proj2 (main_exit []) " 5 " ["1"]).
  vm_compute. reflexivity.
Defined.

(** X14: in A_E.cpp no exception leaves [main], whatever is typed and
    whatever the registry holds: every conversion that can throw is
    inside a [try] whose handlers print a message and let the loop ask
    again. *)
Theorem main_catches_all w : escapes (main w) = false.
Proof.
  unfold escapes. destruct (main w) as [out [code w'| |e]] eqn:E; try reflexivity.
  exfalso. exact (nothrow_main w out e E).
Qed.

(** X15: [getValidInt] answers a line of digits whose value exceeds
    [INT_MAX] with "Input out of range for an integer." and asks again,
    with the registry unchanged. *)
Theorem count_too_large prompt emps line rest :
  let state cin := {| employees := emps; cin := cin |} in
  count_shape (trim line) = true ->
  INT_MAX < decimal_value (trim line) 0 ->
  getValidInt prompt (state (line :: rest)) =
  prepend [Str prompt; Str ("Input out of range for an integer." ++ LF)]
          (getValidInt prompt (state rest)).
Proof. apply count_out_of_range. Qed.

(** X15 at work: one more than [INT_MAX]. *)
Lemma count_too_large_witness :
  getValidInt "Hours Worked: " {| employees := []; cin := ["2147483648"; "12"] |} =
  prepend [Str "Hours Worked: "; Str ("Input out of range for an integer." ++ LF)]
          (getValidInt "Hours Worked: " {| employees := []; cin := ["12"] |}).
Proof.
  apply (count_too_large "Hours Worked: " [] "2147483648" ["12"]).
  - vm_compute. reflexivity.
  - vm_compute. reflexivity.
Defined.

(** X16: in every state the command loop can reach, every part-time
    record carries the product of its own hourly rate and hours as its
    salary, and every contractual record the product of its own payment
    per project and number of projects: the derived fields and the salary
    never disagree. *)
Theorem salaries_agree w : reachable w -> Forall salary_formula (employees w).
Proof. apply reachable_salaries. Qed.

(** X16 at work. *)
Lemma salaries_agree_witness :
  Forall salary_formula [PartTimeEmployee "A1" "Ann Lee" half 12].
Proof.
  apply (salaries_agree
           {| employees := [PartTimeEmployee "A1" "Ann Lee" half 12]; cin := [] |}).
  eapply (reach_pass {| employees := []; cin := ["2"; "A1"; "Ann Lee"; "0.5"; "12"] |}).
  - apply reach_start.
  - vm_compute. reflexivity.
Defined.

End MainMore.

(** ** DeepSeek.cpp: the validators without handlers *)

Section LoopStates.

Context {ID : Type}.

(** The rule of [loop_returns] for a loop that carries a state: what
    every pass keeps of the state may be used where the loop is left. *)
Lemma loop_state_returns {S A} (step : S -> IO ID (S + A))
      (I : S -> Prop) (Q : list (Employee ID) -> A -> Prop) :
  consuming step ->
  (forall s, keeps (step s)) ->
  (forall s w out s' w', I s -> step s w = (out, Returned (inl s') w') -> I s') ->
  (forall s w out a w', I s -> step s w = (out, Returned (inr a) w') -> Q (employees w) a) ->
  forall s w out a w', I s -> loop step s w = (out, Returned a w') -> Q (employees w) a.
Proof.
  intros Hc Hk Hi Hq.
  assert (H : forall n s w out a w', (List.length (cin w) <= n)%nat -> I s ->
               loop step s w = (out, Returned a w') -> Q (employees w) a).
  { induction n as [|n IH]; intros s w out a w' Hn Hs Hrun;
      rewrite (loop_unfold step Hc) in Hrun;
      apply bind_inv in Hrun as (o1 & r & w1 & o2 & E1 & E2 & _);
      destruct r as [s'|a'].
    - apply Hc in E1. lia.
    - inversion E2; subst. eauto.
    - pose proof (Hc _ _ _ _ _ E1). rewrite <- (Hk _ _ _ _ _ E1).
      apply IH in E2; [exact E2 | lia | eauto].
    - inversion E2; subst. eauto. }
  intros s w out a w'. now apply (H (List.length (cin w))).
Qed.

End LoopStates.

Section DeepSeekValidators.

Import DeepSeek Grammar.
Implicit Types (emps : list (Employee Z)) (rest : list string).

Lemma DeepSeek_scanInt_forallb s valid :
  scanInt s valid = valid && forallb isdigit (chars s).
Proof.
  induction s as [|c s IH]; [now rewrite andb_true_r|].
  change (chars (String c s)) with (c :: chars s). cbn [scanInt forallb].
  destruct (isdigit c); cbn [negb andb]; [exact IH | now rewrite andb_false_r].
Qed.

Lemma DeepSeek_scanInt_shape s : scanInt s (negb (empty s)) = count_shape s.
Proof. apply DeepSeek_scanInt_forallb. Qed.

Lemma DeepSeek_scanName_forallb s valid :
  scanName s valid = valid && forallb (fun c => isalpha c || is_blank c) (chars s).
Proof.
  induction s as [|c s IH]; [now rewrite andb_true_r|].
  change (chars (String c s)) with (c :: chars s). cbn [scanName forallb].
  unfold is_blank at 1.
  destruct (isalpha c), (Ascii.eqb c " "); cbn [negb andb orb];
    first [exact IH | now rewrite andb_false_r].
Qed.

Lemma DeepSeek_scanName_shape s : scanName s (negb (empty s)) = Loose.name_shape s.
Proof. apply DeepSeek_scanName_forallb. Qed.

Lemma DeepSeek_scanDouble_from s : forall valid decimalPoints,
  0 <= decimalPoints <= 1 ->
  scanDouble s valid decimalPoints =
  valid && forallb (fun c => isdigit c || is_point c) (chars s)
        && (decimalPoints + Z.of_nat (points s) <=? 1).
Proof.
  induction s as [|c s IH]; intros valid dp Hdp.
  - cbn [scanDouble]. unfold points. change (chars EmptyString) with (@nil ascii).
    cbn [forallb filter List.length Z.of_nat].
    replace (dp + 0 <=? 1) with true by (symmetry; apply Z.leb_le; lia).
    now rewrite !andb_true_r.
  - cbn [scanDouble]. change (chars (String c s)) with (c :: chars s).
    cbn [forallb]. rewrite points_cons.
    change (Ascii.eqb c ".") with (is_point c).
    destruct (is_point c) eqn:Ep.
    + rewrite (point_not_digit c Ep). cbn [orb andb].
      destruct (dp + 1 >? 1) eqn:Egt.
      * cbn [negb]. apply Z.gtb_lt in Egt.
        replace (dp + Z.of_nat (1 + points s) <=? 1) with false
          by (symmetry; apply Z.leb_gt; lia).
        now rewrite andb_false_r.
      * destruct valid; cbn [negb andb]; [|reflexivity].
        rewrite IH by (rewrite Z.gtb_ltb in Egt; apply Z.ltb_ge in Egt; lia).
        cbn [andb]. f_equal. f_equal. lia.
    + cbn [orb]. destruct (isdigit c); cbn [negb andb].
      * destruct valid; cbn [negb andb]; [|reflexivity].
        rewrite IH by exact Hdp. reflexivity.
      * now rewrite andb_false_r.
Qed.

Lemma DeepSeek_scanDouble_shape s :
  scanDouble s (negb (empty s)) 0 = Loose.amount_shape s.
Proof.
  rewrite DeepSeek_scanDouble_from by lia. unfold Loose.amount_shape.
  f_equal. cbn [Z.add].
  destruct (Z.of_nat (points s) <=? 1) eqn:E.
  - apply Z.leb_le in E. symmetry. apply Nat.leb_le. lia.
  - apply Z.leb_gt in E. symmetry. apply Nat.leb_gt. lia.
Qed.

(** All the characters of [s] are points once none is a digit. *)
Lemma only_points s :
  forallb (fun c => isdigit c || is_point c) (chars s) = true ->
  existsb isdigit (chars s) = false ->
  points s = String.length s.
Proof.
  induction s as [|c s IH]; [reflexivity|].
  change (chars (String c s)) with (c :: chars s). cbn [forallb existsb].
  rewrite points_cons. intros H He.
  apply andb_true_iff in H as [Hc Hs]. apply orb_false_iff in He as [Hd He].
  rewrite Hd in Hc. cbn [orb] in Hc. rewrite Hc. cbn [String.length].
  now rewrite IH.
Qed.

(** What [stod] does with a line the amount check of DeepSeek.cpp lets
    through: a finite double that is not negative, [out_of_range], or, on
    the lone point, [invalid_argument]. *)
Lemma stod_loose s :
  Loose.amount_shape s = true ->
  match stod s with
  | Value x => unsigned_finite x
  | Throw out_of_range => existsb isdigit (chars s) = true
  | Throw invalid_argument => s = "."
  end.
Proof.
  intros H. destruct (existsb isdigit (chars s)) eqn:Ed.
  - assert (Ha : amount_shape s = true).
    { unfold amount_shape. unfold Loose.amount_shape in H. now rewrite H, Ed. }
    pose proof (stod_amount s Ha) as Hs.
    destruct (stod s) as [x|e]; [exact Hs | now subst e].
  - unfold Loose.amount_shape in H.
    apply andb_true_iff in H as [H Hp]. apply andb_true_iff in H as [Hne Hall].
    apply Nat.leb_le in Hp. rewrite (only_points s Hall Ed) in Hp.
    destruct s as [|c [|c' s]]; [discriminate| |cbn [String.length] in Hp; lia].
    change (chars (String c EmptyString)) with [c] in Hall, Ed.
    cbn [forallb existsb] in Hall, Ed. rewrite orb_false_r in Ed.
    rewrite Ed, andb_true_r in Hall. cbn [orb] in Hall.
    unfold is_point in Hall. apply Ascii.eqb_eq in Hall. subst c.
    vm_compute. reflexivity.
Qed.

Lemma DeepSeek_getValidInt_cons prompt emps line rest :
  getValidInt prompt {| employees := emps; cin := line :: rest |} =
  if count_shape line then
    match stoi line with
    | Value value => ([Str prompt], Returned value {| employees := emps; cin := rest |})
    | Throw e => ([Str prompt], Thrown e)
    end
  else
    prepend [Str prompt; Str ("Invalid input! Please enter whole numbers only." ++ LF)]
            (getValidInt prompt {| employees := emps; cin := rest |}).
Proof.
  change (getValidInt prompt) with (loop (ask [Str prompt] checkInt) tt).
  rewrite ask_cons by (intro; apply frame_forward, DeepSeek_frame_checkInt).
  unfold checkInt. cbv zeta. rewrite DeepSeek_scanInt_shape.
  destruct (count_shape line); [destruct (stoi line) as [v|e]|]; run_io;
    try reflexivity; now destruct (loop _ _ _).
Qed.

Lemma DeepSeek_getValidDouble_cons prompt emps line rest :
  getValidDouble prompt {| employees := emps; cin := line :: rest |} =
  if Loose.amount_shape line then
    match stod line with
    | Value value => ([Str prompt], Returned value {| employees := emps; cin := rest |})
    | Throw e => ([Str prompt], Thrown e)
    end
  else
    prepend [Str prompt;
             Str ("Invalid input! Use numbers with optional single decimal point." ++ LF)]
            (getValidDouble prompt {| employees := emps; cin := rest |}).
Proof.
  change (getValidDouble prompt) with (loop (ask [Str prompt] checkDouble) tt).
  rewrite ask_cons by (intro; apply frame_forward, DeepSeek_frame_checkDouble).
  unfold checkDouble. cbv zeta. rewrite DeepSeek_scanDouble_shape.
  destruct (Loose.amount_shape line); [destruct (stod line) as [v|e]|]; run_io;
    try reflexivity; now destruct (loop _ _ _).
Qed.

Lemma DeepSeek_getValidName_cons prompt emps line rest :
  getValidName prompt {| employees := emps; cin := line :: rest |} =
  if Loose.name_shape line then
    ([Str prompt], Returned line {| employees := emps; cin := rest |})
  else
    prepend [Str prompt; Str ("Invalid name! Use letters and spaces only." ++ LF)]
            (getValidName prompt {| employees := emps; cin := rest |}).
Proof.
  change (getValidName prompt) with (loop (ask [Str prompt] checkName) tt).
  rewrite ask_cons by (intro; apply frame_forward, DeepSeek_frame_checkName).
  unfold checkName. cbv zeta. rewrite DeepSeek_scanName_shape.
  destruct (Loose.name_shape line); run_io; try reflexivity; now destruct (loop _ _ _).
Qed.

Lemma DeepSeek_keeps_getValidInt prompt : keeps (getValidInt prompt).
Proof. apply (validator_keeps [Str prompt] checkInt), DeepSeek_frame_checkInt. Qed.

Lemma DeepSeek_keeps_getValidDouble prompt : keeps (getValidDouble prompt).
Proof. apply (validator_keeps [Str prompt] checkDouble), DeepSeek_frame_checkDouble. Qed.

Lemma DeepSeek_keeps_getValidName prompt : keeps (getValidName prompt).
Proof. apply (validator_keeps [Str prompt] checkName), DeepSeek_frame_checkName. Qed.

Lemma DeepSeek_getValidInt_returns prompt w out value w' :
  getValidInt prompt w = (out, Returned value w') -> 0 <= value <= INT_MAX.
Proof.
  apply (ask_returns [Str prompt] checkInt (fun _ value => 0 <= value <= INT_MAX));
    [apply DeepSeek_frame_checkInt|].
  clear. intros input w out a w'. unfold checkInt. cbv zeta.
  rewrite DeepSeek_scanInt_shape.
  destruct (count_shape input) eqn:Es; run_io; [|discriminate].
  destruct (stoi input) as [v|e] eqn:Ev; simpl; try discriminate.
  intros H. inversion H; subst. eapply stoi_count_range; eassumption.
Qed.

Lemma DeepSeek_getValidDouble_returns prompt w out value w' :
  getValidDouble prompt w = (out, Returned value w') -> unsigned_finite value.
Proof.
  apply (ask_returns [Str prompt] checkDouble (fun _ value => unsigned_finite value));
    [apply DeepSeek_frame_checkDouble|].
  clear. intros input w out a w'. unfold checkDouble. cbv zeta.
  rewrite DeepSeek_scanDouble_shape.
  destruct (Loose.amount_shape input) eqn:Es; run_io; [|discriminate].
  pose proof (stod_loose _ Es) as Hd.
  destruct (stod input) as [v|e]; simpl; try discriminate.
  intros H. inversion H; subst. exact Hd.
Qed.

(** X17: in DeepSeek.cpp [getValidInt] decides on the line as it was
    typed.  A non-empty line of digits is returned as its decimal value if
    that fits an [int]; if it does not, [std::out_of_range] leaves
    [getValidInt], with nothing printed after the prompt.  Any other line,
    one with a blank or a sign in it as well, gets the message and the
    prompt again. *)
Theorem DeepSeek_count_line prompt emps line rest :
  let state cin := {| employees := emps; cin := cin |} in
  getValidInt prompt (state (line :: rest)) =
  if count_shape line then
    if decimal_value line 0 <=? INT_MAX
    then ([Str prompt], Returned (decimal_value line 0) (state rest))
    else ([Str prompt], Thrown out_of_range)
  else
    prepend [Str prompt; Str ("Invalid input! Please enter whole numbers only." ++ LF)]
            (getValidInt prompt (state rest)).
Proof.
  cbv zeta. rewrite DeepSeek_getValidInt_cons.
  destruct (count_shape line) eqn:Es; [|reflexivity].
  rewrite (stoi_count _ Es). now destruct (_ <=? INT_MAX).
Qed.

(** X18: in DeepSeek.cpp [getValidDouble] lets through every non-empty
    line of digits with at most one point in it.  Of such a line it
    returns the value, a finite double that is not negative, leaving the
    lines after it unread; or [std::out_of_range] leaves it; or, when the
    line is the lone point, [std::invalid_argument] leaves it.  Any other
    line gets the message and the prompt again. *)
Theorem DeepSeek_amount_line prompt emps line rest :
  let state cin := {| employees := emps; cin := cin |} in
  (Loose.amount_shape line = true ->
   (exists value,
       unsigned_finite value
       /\ stod line = Value value
       /\ getValidDouble prompt (state (line :: rest))
          = ([Str prompt], Returned value (state rest)))
   \/ (existsb isdigit (chars line) = true
       /\ getValidDouble prompt (state (line :: rest)) = ([Str prompt], Thrown out_of_range))
   \/ (line = "."
       /\ getValidDouble prompt (state (line :: rest))
          = ([Str prompt], Thrown invalid_argument)))
  /\ (Loose.amount_shape line = false ->
      getValidDouble prompt (state (line :: rest)) =
      prepend [Str prompt;
               Str ("Invalid input! Use numbers with optional single decimal point." ++ LF)]
              (getValidDouble prompt (state rest))).
Proof.
  cbv zeta. rewrite DeepSeek_getValidDouble_cons. split; intros Hs; rewrite Hs;
    [|reflexivity].
  pose proof (stod_loose line Hs) as Hd.
  destruct (stod line) as [v|[]].
  - left. eauto.
  - right; right. auto.
  - right; left. auto.
Qed.

(** X18 at work: the lone point passes the check and [stod] throws. *)
Lemma DeepSeek_amount_line_witness :
  (exists value,
      unsigned_finite value
      /\ stod "." = Value value
      /\ getValidDouble "Hourly Rate: $" {| employees := []; cin := ["."; "0.5"] |}
         = ([Str "Hourly Rate: $"], Returned value {| employees := []; cin := ["0.5"] |}))
  \/ (existsb isdigit (chars ".") = true
      /\ getValidDouble "Hourly Rate: $" {| employees := []; cin := ["."; "0.5"] |}
         = ([Str "Hourly Rate: $"], Thrown out_of_range))
  \/ ("." = "."
      /\ getValidDouble "Hourly Rate: $" {| employees := []; cin := ["."; "0.5"] |}
         = ([Str "Hourly Rate: $"], Thrown invalid_argument)).
Proof.
  apply (proj1 (DeepSeek_amount_line "Hourly Rate: $" [] "." ["0.5"])).
  vm_compute. reflexivity.
Defined.

(** X19: in DeepSeek.cpp [getValidName] returns the first line that is
    non-empty and made of letters and blanks, exactly as it was typed,
    blanks at the ends and blanks in a row included, after one message for
    each line before it, and leaves the lines after it unread; if no line
    is acceptable it never returns. *)
Theorem DeepSeek_name_first_acceptable prompt emps rejected :
  let state cin := {| employees := emps; cin := cin |} in
  let complaint :=
    [Str prompt; Str ("Invalid name! Use letters and spaces only." ++ LF)] in
  Forall (fun line => Loose.name_shape line = false) rejected ->
  (forall accepted rest,
      Loose.name_shape accepted = true ->
      getValidName prompt (state (rejected ++ accepted :: rest)%list)
      = ((flat_map (fun _ => complaint) rejected ++ [Str prompt])%list,
         Returned accepted (state rest)))
  /\ getValidName prompt (state rejected)
     = ((flat_map (fun _ => complaint) rejected ++ [Str prompt])%list, Diverges).
Proof.
  cbv zeta. induction 1 as [|line rejected Hline Hrej [IH1 IH2]]; split.
  - intros accepted rest Hok. cbn [app flat_map].
    rewrite DeepSeek_getValidName_cons. now rewrite Hok.
  - reflexivity.
  - intros accepted rest Hok. cbn [app flat_map].
    rewrite DeepSeek_getValidName_cons, Hline.
    rewrite (IH1 accepted rest Hok). reflexivity.
  - cbn [app flat_map]. rewrite DeepSeek_getValidName_cons, Hline.
    rewrite IH2. reflexivity.
Qed.

(** X19 at work. *)
Lemma DeepSeek_name_first_acceptable_witness :
  getValidName "Enter Name: " {| employees := []; cin := ["Ann3"; " Ann  Lee "; "Bob"] |}
  = ([Str "Enter Name: "; Str ("Invalid name! Use letters and spaces only." ++ LF);
      Str "Enter Name: "],
     Returned " Ann  Lee " {| employees := []; cin := ["Bob"] |}).
Proof.
  apply (proj1 (DeepSeek_name_first_acceptable "Enter Name: " [] ["Ann3"]
                  ltac:(repeat constructor)) " Ann  Lee " ["Bob"]).
  vm_compute. reflexivity.
Defined.

End DeepSeekValidators.

(** ** DeepSeek.cpp: [addEmployee] and [main] *)

Section DeepSeekMain.

Import DeepSeek Grammar.
Implicit Types (emps : list (Employee Z)) (rest : list string).

Lemma DeepSeek_keeps_uniqueIdPass id : keeps (uniqueIdPass id).
Proof.
  unfold uniqueIdPass.
  apply keeps_bind; [apply frame_keeps, frame_isIdUnique|]. intros unique.
  destruct (negb unique); [|apply frame_keeps, frame_ret].
  apply keeps_bind; [apply frame_keeps, frame_print|]. intros _.
  apply keeps_bind; [apply DeepSeek_keeps_getValidInt|].
  intros id'. apply frame_keeps, frame_ret.
Qed.

(** The identifier the loop of [addEmployee] ends with is one no record
    has, and an [int] that is not negative if the first one was. *)
Lemma DeepSeek_unique_id id0 w out id w' :
  0 <= id0 <= INT_MAX ->
  loop uniqueIdPass id0 w = (out, Returned id w') ->
  scanIds (employees w) id = true /\ 0 <= id <= INT_MAX.
Proof.
  apply (loop_state_returns uniqueIdPass (fun id => 0 <= id <= INT_MAX)
           (fun emps id => scanIds emps id = true /\ 0 <= id <= INT_MAX)
           DeepSeek_uniqueIdPass_consuming DeepSeek_keeps_uniqueIdPass).
  - clear. intros id w out id' w' _ H. unfold uniqueIdPass in H.
    apply bind_inv in H as (o1 & unique & w1 & o2 & E1 & H & _).
    destruct (negb unique); [|inversion H].
    apply bind_inv in H as (o3 & [] & w2 & o4 & E2 & H & _).
    apply bind_inv in H as (o5 & n & w3 & o6 & E3 & H & _).
    apply DeepSeek_getValidInt_returns in E3. inversion H; subst. exact E3.
  - clear. intros id w out id' w' Hid H. unfold uniqueIdPass in H.
    apply bind_inv in H as (o1 & unique & w1 & o2 & E1 & H & _).
    unfold isIdUnique, bind, get_employees, ret in E1. cbn in E1.
    inversion E1; subst. clear E1.
    destruct (scanIds (employees w1) id) eqn:Eu; cbn [negb] in H.
    + inversion H; subst. auto.
    + apply bind_inv in H as (o3 & [] & w2 & o4 & E2 & H & _).
      apply bind_inv in H as (o5 & n & w3 & o6 & E3 & H & _).
      inversion H.
Qed.

(** What [addEmployee] of DeepSeek.cpp has done when it returns. *)
Lemma DeepSeek_addEmployee_inv type w out w' :
  1 <= type <= 3 ->
  addEmployee type w = (out, Returned tt w') ->
  exists e,
    employees w' = (employees w ++ [e])%list
    /\ scanIds (employees w) (getId e) = true
    /\ 0 <= getId e <= INT_MAX
    /\ nonneg (salary e) = true.
Proof.
  intros Ht H. unfold addEmployee in H.
  apply bind_inv in H as (o0 & id0 & w0 & o0' & E0 & H & _).
  apply bind_inv in H as (o1 & ident & w1 & o1' & E1 & H & _).
  apply bind_inv in H as (o2 & name & w2 & o2' & E2 & H & _).
  apply bind_inv in H as (o3 & [] & w3 & o3' & H & E3 & _).
  apply frame_print in E3. subst w3.
  pose proof (DeepSeek_keeps_getValidInt _ _ _ _ _ E0) as K0.
  pose proof (keeps_loop uniqueIdPass DeepSeek_uniqueIdPass_consuming
                DeepSeek_keeps_uniqueIdPass _ _ _ _ _ E1) as K1.
  pose proof (DeepSeek_keeps_getValidName _ _ _ _ _ E2) as K2.
  apply DeepSeek_getValidInt_returns in E0.
  apply (DeepSeek_unique_id _ _ _ _ _ E0) in E1 as [Hnew Hid].
  rewrite K0 in Hnew.
  assert (Hty : type = 1 \/ type = 2 \/ type = 3) by lia.
  destruct Hty as [->|[->| ->]].
  - apply bind_inv in H as (o4 & pay & w4 & o4' & E4 & H & _).
    inversion H; subst. cbn [employees].
    rewrite (DeepSeek_keeps_getValidDouble _ _ _ _ _ E4), K2, K1, K0.
    eexists. split; [reflexivity|]. cbn [getId id salary FullTimeEmployee].
    repeat split; try tauto.
    apply unsigned_nonneg. left. eapply DeepSeek_getValidDouble_returns, E4.
  - apply bind_inv in H as (o4 & rate & w4 & o4' & E4 & H & _).
    apply bind_inv in H as (o5 & hours & w5 & o5' & E5 & H & _).
    inversion H; subst. cbn [employees].
    rewrite (DeepSeek_keeps_getValidInt _ _ _ _ _ E5),
      (DeepSeek_keeps_getValidDouble _ _ _ _ _ E4), K2, K1, K0.
    eexists. split; [reflexivity|]. cbn [getId id salary PartTimeEmployee].
    repeat split; try tauto.
    apply unsigned_nonneg, dmul_unsigned.
    + eapply DeepSeek_getValidDouble_returns, E4.
    + apply double_of_int_unsigned. eapply DeepSeek_getValidInt_returns, E5.
  - apply bind_inv in H as (o4 & rate & w4 & o4' & E4 & H & _).
    apply bind_inv in H as (o5 & projects & w5 & o5' & E5 & H & _).
    inversion H; subst. cbn [employees].
    rewrite (DeepSeek_keeps_getValidInt _ _ _ _ _ E5),
      (DeepSeek_keeps_getValidDouble _ _ _ _ _ E4), K2, K1, K0.
    eexists. split; [reflexivity|]. cbn [getId id salary ContractualEmployee].
    repeat split; try tauto.
    apply unsigned_nonneg, dmul_unsigned.
    + eapply DeepSeek_getValidDouble_returns, E4.
    + apply double_of_int_unsigned. eapply DeepSeek_getValidInt_returns, E5.
Qed.

(** A pass of the command loop of DeepSeek.cpp leaves the registry alone
    or is a return of [addEmployee]. *)
Lemma DeepSeek_dispatch_registry choice w out r w' :
  dispatch choice w = (out, Returned r w') ->
  employees w' = employees w
  \/ exists type o, 1 <= type <= 3 /\ addEmployee type w = (o, Returned tt w').
Proof.
  assert (Hadd : forall type, 1 <= type <= 3 ->
            (addEmployee type ;; ret (inl (B:=Z) tt)) w = (out, Returned r w') ->
            employees w' = employees w
            \/ exists type o, 1 <= type <= 3 /\ addEmployee type w = (o, Returned tt w')).
  { intros type Ht H. apply bind_inv in H as (o1 & [] & w1 & o2 & E1 & E2 & _).
    inversion E2; subst. right. eauto. }
  assert (Hsay : forall msg (x : unit + Z),
            (print (ID:=Z) msg ;; ret x) w = (out, Returned r w') ->
            employees w' = employees w
            \/ exists type o, 1 <= type <= 3 /\ addEmployee type w = (o, Returned tt w')).
  { intros msg x H. inversion H; subst. now left. }
  assert (Hrep : (displayPayrollReport (ID:=Z) ;; ret (inl (B:=Z) tt)) w
                 = (out, Returned r w') ->
            employees w' = employees w
            \/ exists type o, 1 <= type <= 3 /\ addEmployee type w = (o, Returned tt w')).
  { intros H. apply bind_inv in H as (o1 & [] & w1 & o2 & E1 & E2 & _).
    apply frame_displayPayrollReport in E1. inversion E2; subst. now left. }
  unfold dispatch, again, leave.
  destruct (_ || _); [apply Hsay|].
  destruct (at_ choice 0) as [[] [] [] [] [] [] [] []];
    first [apply Hsay | apply Hrep | apply Hadd; lia].
Qed.

Lemma DeepSeek_main_pass_cons emps line rest :
  main_pass tt {| employees := emps; cin := line :: rest |} =
  prepend (menu ++ [Str "Selection: "])%list
          (dispatch line {| employees := emps; cin := rest |}).
Proof.
  unfold main_pass, bind, print, getline, prepend. cbn [cin employees].
  destruct (dispatch line _) as [o [r w1| |e]]; cbn [fst snd app];
    now rewrite <- app_assoc.
Qed.

(** X20: the registry of DeepSeek.cpp, in every state its command loop
    can reach: no two records share an id, every id is an [int] that is
    not negative, and no salary is negative.  The checks that guard this
    are the digits-only rule of [getValidInt], the loop on [isIdUnique] in
    [addEmployee], and the digits-and-point rule of [getValidDouble]. *)
Theorem DeepSeek_registry_invariant w :
  DeepSeek_reachable w ->
  NoDup (map getId (employees w))
  /\ (forall e, In e (employees w) -> 0 <= getId e <= INT_MAX)
  /\ (forall e, In e (employees w) -> nonneg (salary e) = true).
Proof.
  induction 1 as [lines|w out r w' Hreach (Hids & Hrange & Hpay) Hpass].
  - split; [constructor | split; intros e []].
  - destruct w as [emps [|line rest]].
    + vm_compute in Hpass. discriminate.
    + rewrite DeepSeek_main_pass_cons in Hpass.
      apply prepend_returned in Hpass as [o Hd].
      apply DeepSeek_dispatch_registry in Hd as [Hsame|(type & o' & Ht & Hadd)].
      * rewrite Hsame. auto.
      * destruct (DeepSeek_addEmployee_inv _ _ _ _ Ht Hadd)
          as (e & He & Hnew & Hid & Hsal).
        cbn [employees] in *. rewrite He. split; [|split].
        -- rewrite map_app. cbn [map]. apply NoDup_snoc; [exact Hids|].
           intros Hin. apply scanIds_In in Hin. congruence.
        -- intros e' Hin. apply in_app_iff in Hin as [Hin|[<-|[]]]; auto.
        -- intros e' Hin. apply in_app_iff in Hin as [Hin|[<-|[]]]; auto.
Qed.

(** X20 at work: the registry after a part-time record was added, the
    first identifier typed being refused for its sign. *)
Lemma DeepSeek_registry_invariant_witness :
  NoDup (map getId [PartTimeEmployee 7 "Ann Lee" half 12])
  /\ (forall e, In e [PartTimeEmployee 7 "Ann Lee" half 12] -> 0 <= getId e <= INT_MAX)
  /\ (forall e, In e [PartTimeEmployee 7 "Ann Lee" half 12] -> nonneg (salary e) = true).
Proof.
  apply (DeepSeek_registry_invariant
           {| employees := [PartTimeEmployee 7 "Ann Lee" half 12]; cin := ["4"] |}).
  eapply (DeepSeek_pass
            {| employees := []; cin := ["2"; "-7"; "7"; "Ann Lee"; "0.5"; "12"; "4"] |}).
  - apply DeepSeek_start.
  - vm_compute. reflexivity.
Defined.

(** X21: DeepSeek.cpp answers a selection it does not act upon the way
    A_E.cpp does, but on the line as it was typed: a selection with a
    blank around it is an invalid choice.  The registry stays as it is and
    the next line is the next selection. *)
Theorem DeepSeek_selection_refused emps line rest msg :
  let state cin := {| employees := emps; cin := cin |} in
  refusal line = Some msg ->
  main_pass tt (state (line :: rest)) =
  ((menu ++ [Str "Selection: "; Str (msg ++ LF)])%list, Returned (inl tt) (state rest)).
Proof. apply DeepSeek_menu_refusal. Qed.

(** X21 at work: the selection 4 with a blank in front. *)
Lemma DeepSeek_selection_refused_witness :
  main_pass tt {| employees := []; cin := [" 4"; "5"] |} =
  ((menu ++ [Str "Selection: "; Str ("Invalid menu choice!" ++ LF)])%list,
   Returned (inl tt) {| employees := []; cin := ["5"] |}).
Proof.
  apply (DeepSeek_selection_refused [] " 4" ["5"] "Invalid menu choice!").
  vm_compute. reflexivity.
Defined.

End DeepSeekMain.

(** ** abstraction_encapsulation/main.cpp: the salary behind its setter *)

Section Encapsulated.

Import Encapsulation.

(** What [x > 0] says of a double: positive and finite, or [+inf]. *)
Lemma positive_inv x :
  positive x = true -> (exists m e, x = S754_finite false m e) \/ x = S754_infinity false.
Proof.
  unfold positive, SFltb. destruct x as [[]| []| |[] m e]; cbn; try discriminate; eauto.
Qed.

Lemma last_cons {T} (x : T) (l : list T) (d : T) : last (x :: l) d = last l x.
Proof.
  revert x d. induction l as [|y l IH]; intros x d; [reflexivity|].
  change (last (x :: y :: l) d) with (last (y :: l) d). now rewrite !IH.
Qed.

(** One call of [setSalary]. *)
Lemma setSalary_fields x e :
  getName (setSalary x e) = getName e
  /\ getAge (setSalary x e) = getAge e
  /\ derived (setSalary x e) = derived e
  /\ getSalary (setSalary x e) = if positive x then x else getSalary e.
Proof. unfold setSalary. destruct (positive x); cbn; auto. Qed.

(** X22: whatever values [setSalary] is called with, one after the
    other, the name, the age and the class of the object stay as they
    were, and the salary is the last of the values that was greater than
    zero, or the salary the object had if none was: zero, negative values
    and NaN are ignored.  A salary greater than zero stays greater than
    zero. *)
Theorem setSalary_calls (calls : list double) (e : Employee) :
  let e' := fold_left (fun e empSalary => setSalary empSalary e) calls e in
  getName e' = getName e
  /\ getAge e' = getAge e
  /\ derived e' = derived e
  /\ getSalary e' = last (filter positive calls) (getSalary e)
  /\ (positive (getSalary e) = true -> positive (getSalary e') = true).
Proof.
  cbv zeta. revert e. induction calls as [|x calls IH]; intros e.
  - cbn. auto.
  - cbn [fold_left filter].
    destruct (IH (setSalary x e)) as (Hn & Ha & Hd & Hs & Hp).
    destruct (setSalary_fields x e) as (Fn & Fa & Fd & Fs).
    rewrite Hn, Ha, Hd, Fn, Fa, Fd. repeat split.
    + rewrite Hs, Fs. destruct (positive x); [now rewrite last_cons | reflexivity].
    + intros Hpos. apply Hp. rewrite Fs. now destruct (positive x) eqn:Ex.
Qed.

(** X22 at work: a negative value, NaN and zero after 0.5. *)
Lemma setSalary_calls_witness :
  positive
    (getSalary
       (fold_left (fun e empSalary => setSalary empSalary e)
          [half; S754_finite true 1 0; S754_nan; S754_zero false]
          {| name := "John Doe"; age := 30; salary := double_of_int 50000;
             derived := PermanentEmployee |}))
  = true.
Proof.
  apply (proj2 (proj2 (proj2 (proj2
           (setSalary_calls
              [half; S754_finite true 1 0; S754_nan; S754_zero false]
              {| name := "John Doe"; age := 30; salary := double_of_int 50000;
                 derived := PermanentEmployee |}))))).
  vm_compute. reflexivity.
Defined.

(** X23: the bonus [calculateBonus] prints for an object whose salary is
    greater than zero is never negative and never NaN, for either class:
    it is [+0] (a product too small for a double), positive and finite, or
    [+inf]. *)
Theorem bonus_of_positive (e : Employee) :
  positive (getSalary e) = true ->
  bonus e = S754_zero false
  \/ (exists m ex, bonus e = S754_finite false m ex)
  \/ bonus e = S754_infinity false.
Proof.
  intros Hp.
  assert (H : unsigned (bonus e)).
  { unfold bonus. apply positive_inv in Hp as [(m & ex & Hs)| Hs]; rewrite Hs;
      destruct (derived e);
      first [ solve [apply dmul_unsigned; right; unfold tenth, twentieth; eauto]
            | right; reflexivity ]. }
  destruct H as [[H|H]|H]; auto.
Qed.

(** X23 at work: the contract employee of [main], with a salary of
    30000. *)
Lemma bonus_of_positive_witness :
  let e := {| name := "Jane Smith"; age := 25; salary := double_of_int 30000;
              derived := ContractEmployee |} in
  bonus e = S754_zero false
  \/ (exists m ex, bonus e = S754_finite false m ex)
  \/ bonus e = S754_infinity false.
Proof.
  cbv zeta.
  apply (bonus_of_positive
           {| name := "Jane Smith"; age := 25; salary := double_of_int 30000;
              derived := ContractEmployee |}).
  vm_compute. reflexivity.
Defined.

End Encapsulated.
